(** * Verification of the pabawi route-rewriting scripts

  The scripts under [backend/scripts] rewrite a TypeScript source file with
  Python's [re] module.  This development embeds

  - the part of Python's regular expressions the scripts use (a backtracking
    matcher with greedy and lazy repetition, capturing groups, character
    classes and the word boundary), together with [re.search], [re.finditer]
    and [re.sub];
  - the string methods the scripts call ([str.replace], [str.strip],
    [str.split], [in]);
  - every transformation function of the six scripts and their [main]
    drivers over an explicit file system,

  and states the properties of the rewrite pipeline over these definitions.

  Text is a [string] of code points below 256. *)

From Stdlib Require Import Bool Arith Lia List NArith.
From Stdlib Require Import Ascii String DecimalString.
Import ListNotations.

Open Scope string_scope.

(** ** Characters and text *)

Definition code (a : ascii) : N := N_of_ascii a.

Definition between (lo hi : N) (a : ascii) : bool :=
  (N.leb lo (code a) && N.leb (code a) hi)%bool.

(** [\s] on [str] patterns: the characters [str.isspace] accepts. *)
Definition is_space (a : ascii) : bool :=
  (between 9 13 a || between 28 32 a || N.eqb (code a) 133
   || N.eqb (code a) 160)%bool.

(** [\d]: decimal digits. *)
Definition is_digit (a : ascii) : bool := between 48 57 a.

(** [\w]: alphanumeric characters and the underscore. *)
Definition is_word (a : ascii) : bool :=
  (between 48 57 a || between 65 90 a || between 97 122 a
   || N.eqb (code a) 95
   || N.eqb (code a) 170 || between 178 179 a || N.eqb (code a) 181
   || between 185 186 a || between 188 190 a
   || between 192 214 a || between 216 246 a || between 248 255 a)%bool.

(** The double quote and the line feed, which string literals below do not
  spell out. *)
Definition dq : string := String "034"%char EmptyString.
Definition nl : string := String "010"%char EmptyString.

(** [consumed s s'] is the text read when the matcher went from [s] to its
  suffix [s']. *)
Definition consumed (s s' : string) : string :=
  substring 0 (String.length s - String.length s') s.

(** [shorter s' s]: the matcher made progress from [s] to [s']. *)
Definition shorter (s' s : string) : bool :=
  Nat.ltb (String.length s') (String.length s).

(** ** Regular expressions *)

Inductive re : Type :=
| Eps                          (* the empty pattern *)
| Chr (a : ascii)              (* a literal character *)
| Cls (p : ascii -> bool)      (* a character class, [\s], [\d], [.] *)
| Cat (r1 r2 : re)             (* r1 r2 *)
| Alt (r1 r2 : re)             (* r1|r2 *)
| Star (r : re)                (* r*, greedy *)
| Lazy (r : re)                (* r*?, lazy *)
| Grp (i : nat) (r : re)       (* capturing group number i *)
| Wordb.                       (* \b *)

(** Captured groups, most recent binding first. *)
Definition caps : Type := list (nat * string).

Fixpoint group (i : nat) (c : caps) : option string :=
  match c with
  | [] => None
  | (j, w) :: c' => if Nat.eqb i j then Some w else group i c'
  end.

Definition is_word_before (prev : option ascii) : bool :=
  match prev with Some a => is_word a | None => false end.

Definition is_word_at (s : string) : bool :=
  match s with String a _ => is_word a | EmptyString => false end.

Section Matcher.

Context {A : Type}.

(** A continuation receives the character before the position, the text
    from the position and the groups captured so far. *)
Definition cont : Type := option ascii -> string -> caps -> option A.

(** A matcher in continuation-passing style. *)
Definition runner : Type :=
  option ascii -> string -> caps -> cont -> option A.

(** [r*]: one more iteration of [r] is tried before going on; an iteration
    that reads nothing is refused. *)
Fixpoint star_loop (iter : runner) (k : cont) (n : nat)
         (prev : option ascii) (s : string) (c : caps) : option A :=
  match n with
  | 0 => k prev s c
  | S n' =>
      match iter prev s c
              (fun prev' s' c' =>
                 if shorter s' s then star_loop iter k n' prev' s' c'
                 else None) with
      | Some v => Some v
      | None => k prev s c
      end
  end.

(** [r*?]: going on is tried before one more iteration of [r]. *)
Fixpoint lazy_loop (iter : runner) (k : cont) (n : nat)
         (prev : option ascii) (s : string) (c : caps) : option A :=
  match k prev s c with
  | Some v => Some v
  | None =>
      match n with
      | 0 => None
      | S n' =>
          iter prev s c
            (fun prev' s' c' =>
               if shorter s' s then lazy_loop iter k n' prev' s' c'
               else None)
      end
  end.

(** The backtracking matcher: the alternatives of a pattern are tried in
    the order Python tries them, and the first way to reach a successful
    continuation is the result. *)
Fixpoint exec (r : re) (prev : option ascii) (s : string) (c : caps)
         (k : cont) {struct r} : option A :=
  match r with
  | Eps => k prev s c
  | Chr a =>
      match s with
      | String b s' => if Ascii.eqb a b then k (Some b) s' c else None
      | EmptyString => None
      end
  | Cls p =>
      match s with
      | String b s' => if p b then k (Some b) s' c else None
      | EmptyString => None
      end
  | Cat r1 r2 =>
      exec r1 prev s c (fun prev' s' c' => exec r2 prev' s' c' k)
  | Alt r1 r2 =>
      match exec r1 prev s c k with
      | Some v => Some v
      | None => exec r2 prev s c k
      end
  | Star r1 => star_loop (exec r1) k (String.length s) prev s c
  | Lazy r1 => lazy_loop (exec r1) k (String.length s) prev s c
  | Grp i r1 =>
      exec r1 prev s c
        (fun prev' s' c' => k prev' s' ((i, consumed s s') :: c'))
  | Wordb =>
      if xorb (is_word_before prev) (is_word_at s) then k prev s c
      else None
  end.

End Matcher.

(** A literal text, a sequence of patterns, [r+] and the classes [\s], [\d],
    [\w] and the dot under [re.DOTALL]. *)
Fixpoint lit (s : string) : re :=
  match s with
  | EmptyString => Eps
  | String a s' => Cat (Chr a) (lit s')
  end.

Fixpoint sequence (rs : list re) : re :=
  match rs with
  | [] => Eps
  | [r] => r
  | r :: rs' => Cat r (sequence rs')
  end.

Definition plus (r : re) : re := Cat r (Star r).
Definition space : re := Cls is_space.
Definition digit : re := Cls is_digit.
Definition word : re := Cls is_word.
Definition any : re := Cls (fun _ => true).

(** The class of every character but [a]. *)
Definition isnt (a b : ascii) : bool := negb (Ascii.eqb b a).
Definition but (a : ascii) : re := Cls (isnt a).

(** ** Match objects, [re.search], [re.sub] *)

Record rmatch : Type := mkMatch {
  m_text : string;           (* group 0 *)
  m_caps : caps;             (* numbered groups *)
  m_prev : option ascii;     (* character before the end of the match *)
  m_rest : string            (* text after the match *)
}.

(** [match.group(i)] of a group that took part in the match. *)
Definition grp (i : nat) (m : rmatch) : string :=
  match group i (m_caps m) with Some w => w | None => EmptyString end.

(** A match that starts at the current position. *)
Definition match_here (r : re) (prev : option ascii) (s : string)
  : option rmatch :=
  exec r prev s [] (fun p s' c => Some (mkMatch (consumed s s') c p s')).

(** [re.search] from the current position: the text skipped and the leftmost
  match. *)
Fixpoint search (r : re) (prev : option ascii) (s : string)
  : option (string * rmatch) :=
  match match_here r prev s with
  | Some m => Some (EmptyString, m)
  | None =>
      match s with
      | EmptyString => None
      | String a s' =>
          match search r (Some a) s' with
          | Some (skipped, m) => Some (String a skipped, m)
          | None => None
          end
      end
  end.

(** [re.sub(pattern, repl, string)] with a callable [repl]: the text between
  matches is copied, every match is replaced by [repl match].  After an
  empty match one character is copied before the search resumes. *)
Fixpoint sub_loop (n : nat) (r : re) (repl : rmatch -> string)
         (prev : option ascii) (s : string) : string :=
  match n with
  | 0 => s
  | S n' =>
      match search r prev s with
      | None => s
      | Some (skipped, m) =>
          skipped ++ repl m ++
          match m_text m, m_rest m with
          | EmptyString, EmptyString => EmptyString
          | EmptyString, String a s' =>
              String a (sub_loop n' r repl (Some a) s')
          | _, rest => sub_loop n' r repl (m_prev m) rest
          end
      end
  end.

Definition re_sub (r : re) (repl : rmatch -> string) (s : string) : string :=
  sub_loop (S (String.length s)) r repl None s.

(** [re.finditer]: the matches [re.sub] replaces, each with its start
  offset in the text. *)
Fixpoint find_loop (n : nat) (r : re) (pos : nat) (prev : option ascii)
         (s : string) : list (nat * rmatch) :=
  match n with
  | 0 => []
  | S n' =>
      match search r prev s with
      | None => []
      | Some (skipped, m) =>
          let start := pos + String.length skipped in
          (start, m) ::
          match m_text m, m_rest m with
          | EmptyString, EmptyString => []
          | EmptyString, String a s' =>
              find_loop n' r (S start) (Some a) s'
          | w, rest => find_loop n' r (start + String.length w) (m_prev m) rest
          end
      end
  end.

Definition finditer (r : re) (s : string) : list (nat * rmatch) :=
  find_loop (S (String.length s)) r 0 None s.

(** ** String methods *)

(** [s.startswith(p)], returning the rest of [s]. *)
Fixpoint strip_prefix (p s : string) : option string :=
  match p, s with
  | EmptyString, _ => Some s
  | String a p', String b s' =>
      if Ascii.eqb a b then strip_prefix p' s' else None
  | String _ _, EmptyString => None
  end.

(** [p in s]. *)
Fixpoint contains (p s : string) : bool :=
  match strip_prefix p s with
  | Some _ => true
  | None =>
      match s with
      | EmptyString => false
      | String _ s' => contains p s'
      end
  end.

(** [s.replace(old, new)] for a non-empty [old]: occurrences are replaced
  from the left, without overlap. *)
Fixpoint replace_loop (n : nat) (old new s : string) : string :=
  match n with
  | 0 => s
  | S n' =>
      match strip_prefix old s with
      | Some rest => new ++ replace_loop n' old new rest
      | None =>
          match s with
          | EmptyString => EmptyString
          | String a s' => String a (replace_loop n' old new s')
          end
      end
  end.

Fixpoint intersperse (new s : string) : string :=
  match s with
  | EmptyString => new
  | String a s' => new ++ String a (intersperse new s')
  end.

Definition replace (old new s : string) : string :=
  match old with
  | EmptyString => intersperse new s
  | _ => replace_loop (S (String.length s)) old new s
  end.

(** [s.count(p)] for a non-empty [p]. *)
Fixpoint count_loop (n : nat) (p s : string) : nat :=
  match n with
  | 0 => 0
  | S n' =>
      match strip_prefix p s with
      | Some rest => S (count_loop n' p rest)
      | None =>
          match s with
          | EmptyString => 0
          | String _ s' => count_loop n' p s'
          end
      end
  end.

Definition count (p s : string) : nat :=
  count_loop (S (String.length s)) p s.

(** [s.strip()]. *)
Fixpoint lstrip (s : string) : string :=
  match s with
  | String a s' => if is_space a then lstrip s' else s
  | EmptyString => EmptyString
  end.

Fixpoint rstrip (s : string) : string :=
  match s with
  | EmptyString => EmptyString
  | String a s' =>
      match rstrip s' with
      | EmptyString => if is_space a then EmptyString
                        else String a EmptyString
      | t => String a t
      end
  end.

Definition strip (s : string) : string := rstrip (lstrip s).

(** [s.split(sep)] for a separator of one character. *)
Fixpoint split (sep : ascii) (s : string) : list string :=
  match s with
  | EmptyString => [EmptyString]
  | String a s' =>
      if Ascii.eqb a sep then EmptyString :: split sep s'
      else match split sep s' with
           | w :: ws => String a w :: ws
           | [] => [String a EmptyString]
           end
  end.

(** ** Files and the drivers' effects

  The scripts run on a POSIX system: paths are separated by [/], a line
  ends with a line feed, and standard output takes every text. *)

(** The exceptions the file operations raise.  [UnicodeDecodeError] carries
  its description. *)
Inductive exn : Type :=
| FileNotFoundError
| PermissionError
| IsADirectoryError
| UnicodeDecodeError (reason : string).

(** A file: its text as stored, line ends included; the exception that
  opening it for reading, reading or decoding it raises, if any; the
  exception that opening it for writing raises, if any. *)
Record node : Type := mkNode {
  content : string;
  read_error : option exn;
  write_error : option exn
}.

Definition readable (n : node) : bool :=
  match read_error n with None => true | Some _ => false end.

Definition writable (n : node) : bool :=
  match write_error n with None => true | Some _ => false end.

(** The world a script runs in: the files by path, the directories, and what
  has been printed so far (latest line first). *)
Record world : Type := mkWorld {
  files : list (string * node);
  dirs : list string;
  stdout : list string
}.

(** How a computation ends: with a value, with an uncaught exception, or
  with [sys.exit(code)]. *)
Inductive outcome (A : Type) : Type :=
| Ok (a : A)
| Raised (e : exn)
| Exited (status : nat).
Arguments Ok {A} a.
Arguments Raised {A} e.
Arguments Exited {A} status.

Definition IO (A : Type) : Type := world -> outcome A * world.

Definition ret {A : Type} (a : A) : IO A := fun w => (Ok a, w).

Definition bind {A B : Type} (m : IO A) (f : A -> IO B) : IO B :=
  fun w =>
    match m w with
    | (Ok a, w') => f a w'
    | (Raised e, w') => (Raised e, w')
    | (Exited n, w') => (Exited n, w')
    end.

Notation "x <- m ;; f" := (bind m (fun x => f))
  (at level 61, m at next level, right associativity).
Notation "m ;;; f" := (bind m (fun _ => f))
  (at level 61, right associativity).

Fixpoint lookup (path : string) (fs : list (string * node)) : option node :=
  match fs with
  | [] => None
  | (p, n) :: fs' => if String.eqb p path then Some n else lookup path fs'
  end.

(** The file at [path] after [text] has been written to it: a file that
  could not be decoded can be now. *)
Fixpoint store (path : string) (text : string) (fs : list (string * node))
  : list (string * node) :=
  match fs with
  | [] => [(path, mkNode text None None)]
  | (p, n) :: fs' =>
      if String.eqb p path
      then (p, mkNode text
                 match read_error n with
                 | Some (UnicodeDecodeError _) => None
                 | e => e
                 end
                 (write_error n)) :: fs'
      else (p, n) :: store path text fs'
  end.

Definition is_dir (path : string) (w : world) : bool :=
  existsb (String.eqb path) (dirs w).

(** The directory part of a path, [None] for a bare file name. *)
Fixpoint dirname (path : string) : option string :=
  match path with
  | EmptyString => None
  | String a rest =>
      match dirname rest with
      | Some d => Some (String a d)
      | None => if Ascii.eqb a "/" then Some EmptyString else None
      end
  end.

(** The directory a new file at [path] goes into exists; the current
  directory and the root always do. *)
Definition parent_exists (path : string) (w : world) : bool :=
  match dirname path with
  | None | Some EmptyString => true
  | Some d => is_dir d w
  end.

(** The carriage return, and what reading in text mode does to the line
  ends: [\r\n] and a lone [\r] become [\n]. *)
Definition cr : string := String "013"%char EmptyString.

Definition universal_newlines (text : string) : string :=
  replace cr nl (replace (cr ++ nl) nl text).

(** [open(path, 'r').read()] *)
Definition read_file (path : string) : IO string :=
  fun w =>
    match lookup path (files w) with
    | Some n =>
        match read_error n with
        | None => (Ok (universal_newlines (content n)), w)
        | Some e => (Raised e, w)
        end
    | None =>
        if is_dir path w then (Raised IsADirectoryError, w)
        else (Raised FileNotFoundError, w)
    end.

(** [open(path, 'w').write(text)]: a line feed is written as it is. *)
Definition write_file (path : string) (text : string) : IO unit :=
  fun w =>
    match lookup path (files w) with
    | Some n =>
        match write_error n with
        | None =>
            (Ok tt, mkWorld (store path text (files w)) (dirs w) (stdout w))
        | Some e => (Raised e, w)
        end
    | None =>
        if is_dir path w then (Raised IsADirectoryError, w)
        else if parent_exists path w
        then (Ok tt, mkWorld (store path text (files w)) (dirs w) (stdout w))
        else (Raised FileNotFoundError, w)
    end.

Definition print (line : string) : IO unit :=
  fun w => (Ok tt, mkWorld (files w) (dirs w) (line :: stdout w)).

Definition sys_exit {A : Type} (status : nat) : IO A :=
  fun w => (Exited status, w).

(** [try: body except E: handler] for the exceptions [catches] accepts. *)
Definition try_except {A : Type} (body : IO A) (catches : exn -> bool)
           (handler : exn -> IO A) : IO A :=
  fun w =>
    match body w with
    | (Raised e, w') => if catches e then handler e w' else (Raised e, w')
    | r => r
    end.

Fixpoint for_each {A : Type} (xs : list A) (body : A -> IO unit) : IO unit :=
  match xs with
  | [] => ret tt
  | x :: xs' => body x ;;; for_each xs' body
  end.

(** ** add-error-debug-info.py *)

Module AddErrorDebugInfo.

(** The pattern of [add_debug_to_catch_block]:
    [(\} catch \(error\) \{\s*const duration = Date\.now\(\) - startTime;)] *)
Definition catch_pattern : re :=
  Grp 1 (sequence [lit "} catch (error) {"; Star space;
                   lit "const duration = Date.now() - startTime;"]).

(** The replacement template after its [\1]. *)
Definition catch_block : string :=
"

        if (debugInfo) {
          debugInfo.duration = duration;
          expertModeService.addError(debugInfo, {
            message: `Error: ${error instanceof Error ? error.message : 'Unknown error'}`,
            stack: error instanceof Error ? error.stack : undefined,
            level: 'error',
          });
          debugInfo.performance = expertModeService.collectPerformanceMetrics();
          debugInfo.context = expertModeService.collectRequestContext(req);
        }".

Definition add_debug_to_catch_block (content : string) : string :=
  re_sub catch_pattern (fun m => grp 1 m ++ catch_block) content.

(** [res\.status\((\d+)\)\.json\(\{\s*error: \{([^}]+)\}\s*\}\);] *)
Definition error_pattern : re :=
  sequence [lit "res.status("; Grp 1 (plus digit); lit ").json({";
            Star space; lit "error: {"; Grp 2 (plus (but "}")); lit "}";
            Star space; lit "});"].

Definition error_replacement (m : rmatch) : string :=
  let status_code := grp 1 m in
  let error_content := grp 2 m in
"const errorResponse = {
          error: {" ++ error_content ++ "}
        };
        res.status(" ++ status_code ++ ").json(
          debugInfo ? expertModeService.attachDebugInfo(errorResponse, debugInfo) : errorResponse
        );".

Definition add_debug_to_error_responses (content : string) : string :=
  re_sub error_pattern error_replacement content.

(** The response statement inside an early return,
    [res\.status\(\d+\)\.json\(\{[^}]+\}\);] *)
Definition early_response : re :=
  sequence [lit "res.status("; plus digit; lit ").json({"; plus (but "}");
            lit "});"].

(** [(if \(!puppetserverService\) \{[^}]+logger\.warn[^}]+\})\s*(...)],
    the second group being [early_response]. *)
Definition early_pattern : re :=
  sequence [Grp 1 (sequence [lit "if (!puppetserverService) {";
                             plus (but "}"); lit "logger.warn";
                             plus (but "}"); lit "}"]);
            Star space; Grp 2 early_response].

(** [res\.status\((\d+)\)\.json\(\{([^}]+)\}\);] *)
Definition status_pattern : re :=
  sequence [lit "res.status("; Grp 1 (plus digit); lit ").json({";
            Grp 2 (plus (but "}")); lit "});"].

Definition early_instrumented (condition_block status_code error_content
                               : string) : string :=
condition_block ++ "

        if (debugInfo) {
          debugInfo.duration = Date.now() - startTime;
          expertModeService.addWarning(debugInfo, {
            message: " ++ dq ++ "Puppetserver integration is not configured" ++ dq ++ ",
            level: 'warn',
          });
          debugInfo.performance = expertModeService.collectPerformanceMetrics();
          debugInfo.context = expertModeService.collectRequestContext(req);
        }

        const errorResponse = {
          " ++ error_content ++ "
        };
        res.status(" ++ status_code ++ ").json(
          debugInfo ? expertModeService.attachDebugInfo(errorResponse, debugInfo) : errorResponse
        );".

Definition early_replacement (m : rmatch) : string :=
  let condition_block := grp 1 m in
  let response := grp 2 m in
  match search status_pattern None response with
  | Some (_, status_match) =>
      let status_code := grp 1 status_match in
      let error_content := grp 2 status_match in
      early_instrumented condition_block status_code error_content
  | None => m_text m
  end.

Definition add_debug_to_early_returns (content : string) : string :=
  re_sub early_pattern early_replacement content.

Definition file_path : string :=
  "backend/src/routes/integrations/puppetserver.ts".

Definition main : IO unit :=
  content <- read_file file_path ;;
  let content := add_debug_to_catch_block content in
  let content := add_debug_to_error_responses content in
  write_file file_path content ;;;
  print "âœ“ Added debug info to error responses".

End AddErrorDebugInfo.

(** ** add-expert-mode-init.py *)

Module AddExpertModeInit.

(** [(const startTime = Date\.now\(\);)\s*\n\s*\n\s*(logger\.info\()] *)
Definition init_pattern : re :=
  sequence [Grp 1 (lit "const startTime = Date.now();"); Star space;
            Chr "010"; Star space; Chr "010"; Star space;
            Grp 2 (lit "logger.info(")].

Definition init_block : string :=
"
      const expertModeService = new ExpertModeService();
      const requestId = req.id ?? expertModeService.generateRequestId();

      // Create debug info once at the start if expert mode is enabled
      const debugInfo = req.expertMode
        ? expertModeService.createDebugInfo('OPERATION_PLACEHOLDER', requestId, 0)
        : null;

      if (debugInfo) {
        expertModeService.setIntegration(debugInfo, 'puppetserver');
      }

      ".

Definition add_expert_mode_init (content : string) : string :=
  re_sub init_pattern (fun m => grp 1 m ++ init_block ++ grp 2 m) content.

Definition quoted (s : string) : string := dq ++ s ++ dq.

Definition routes : list (string * string) :=
  [ (quoted "/nodes/:certname/status",
     "GET /api/integrations/puppetserver/nodes/:certname/status");
    (quoted "/nodes/:certname/facts",
     "GET /api/integrations/puppetserver/nodes/:certname/facts");
    (quoted "/catalog/:certname/:environment",
     "GET /api/integrations/puppetserver/catalog/:certname/:environment");
    (quoted "/catalog/compare",
     "POST /api/integrations/puppetserver/catalog/compare");
    (quoted "/environments",
     "GET /api/integrations/puppetserver/environments");
    (quoted "/environments/:name",
     "GET /api/integrations/puppetserver/environments/:name");
    (quoted "/environments/:name/deploy",
     "POST /api/integrations/puppetserver/environments/:name/deploy");
    (quoted "/environments/:name/cache",
     "DELETE /api/integrations/puppetserver/environments/:name/cache");
    (quoted "/status/services",
     "GET /api/integrations/puppetserver/status/services");
    (quoted "/status/simple",
     "GET /api/integrations/puppetserver/status/simple");
    (quoted "/admin-api",
     "GET /api/integrations/puppetserver/admin-api");
    (quoted "/metrics",
     "GET /api/integrations/puppetserver/metrics") ].

(** [router\.(get|post|delete)\(\s*] then the escaped route text, then
    [.*?OPERATION_PLACEHOLDER], the dot matching every character. *)
Definition route_regex (route_pattern : string) : re :=
  sequence [lit "router.";
            Grp 1 (Alt (lit "get") (Alt (lit "post") (lit "delete")));
            lit "("; Star space; lit route_pattern; Lazy any;
            lit "OPERATION_PLACEHOLDER"].

Definition replace_op (operation_name : string) (m : rmatch) : string :=
  replace "OPERATION_PLACEHOLDER" operation_name (m_text m).

(** One turn of the loop over [routes]. *)
Definition fix_route (content : string) (route : string * string) : string :=
  let (route_pattern, operation_name) := route in
  re_sub (route_regex route_pattern) (replace_op operation_name) content.

Definition fix_operation_names (content : string) : string :=
  fold_left fix_route routes content.

Definition file_path : string :=
  "backend/src/routes/integrations/puppetserver.ts".

Definition main : IO unit :=
  content <- read_file file_path ;;
  let content := add_expert_mode_init content in
  let content := fix_operation_names content in
  write_file file_path content ;;;
  print "✓ Added expert mode initialization to routes".

End AddExpertModeInit.

(** ** fix-all-error-responses.py *)

Module FixAllErrorResponses.

(** The error body, [[^}]+] followed by any number of [\{[^}]*\}[^}]*]. *)
Definition error_body : re :=
  Cat (plus (but "}"))
      (Star (sequence [lit "{"; Star (but "}"); lit "}"; Star (but "}")])).

(** [res\.status\((\d+)\)\.json\(\{\s*error:\s*\{(body)\}\s*\}\);] with
    [error_body] for the body. *)
Definition error_pattern : re :=
  sequence [lit "res.status("; Grp 1 (plus digit); lit ").json({";
            Star space; lit "error:"; Star space; lit "{"; Grp 2 error_body;
            lit "}"; Star space; lit "});"].

Definition error_replacement (m : rmatch) : string :=
  let status_code := grp 1 m in
  let error_content := strip (grp 2 m) in
  let error_content := re_sub (plus space) (fun _ => " ") error_content in
  let error_content := replace " ," "," error_content in
"const errorResponse = {
          error: { " ++ error_content ++ " }
        };
        res.status(" ++ status_code ++ ").json(
          debugInfo ? expertModeService.attachDebugInfo(errorResponse, debugInfo) : errorResponse
        );".

Definition fix_error_responses (content : string) : string :=
  re_sub error_pattern error_replacement content.

(** [(if \(!puppetserverService\) \{[^}]*logger\.warn[^}]*\})\s*res\.status] *)
Definition pattern1 : re :=
  sequence [Grp 1 (sequence [lit "if (!puppetserverService) {";
                             Star (but "}"); lit "logger.warn";
                             Star (but "}"); lit "}"]);
            Star space; lit "res.status"].

Definition debug_collection (message : string) : string :=
"

        if (debugInfo) {
          debugInfo.duration = Date.now() - startTime;
          expertModeService.addWarning(debugInfo, {
            message: " ++ dq ++ message ++ dq ++ ",
            level: 'warn',
          });
          debugInfo.performance = expertModeService.collectPerformanceMetrics();
          debugInfo.context = expertModeService.collectRequestContext(req);
        }

        res.status".

Definition add_debug_collection (m : rmatch) : string :=
  let condition := grp 1 m in
  condition ++ debug_collection "Puppetserver integration is not configured".

(** The same for [if \(!puppetserverService\.isInitialized\(\)\) \{]. *)
Definition pattern2 : re :=
  sequence [Grp 1 (sequence [lit "if (!puppetserverService.isInitialized()) {";
                             Star (but "}"); lit "logger.warn";
                             Star (but "}"); lit "}"]);
            Star space; lit "res.status"].

Definition add_debug_collection2 (m : rmatch) : string :=
  let condition := grp 1 m in
  condition ++ debug_collection "Puppetserver integration is not initialized".

Definition add_debug_to_early_returns (content : string) : string :=
  let content := re_sub pattern1 add_debug_collection content in
  let content := re_sub pattern2 add_debug_collection2 content in
  content.

Definition file_path : string :=
  "backend/src/routes/integrations/puppetserver.ts".

Definition main : IO unit :=
  content <- read_file file_path ;;
  let content := fix_error_responses content in
  let content := add_debug_to_early_returns content in
  write_file file_path content ;;;
  print "âœ“ Fixed all error responses".

End FixAllErrorResponses.

(** ** transform-expert-mode.py *)

Module TransformExpertMode.

(** The call [handleExpertModeResponse(req, res, responseData, '...',
    duration, '...', {...});] with [\s*] between its tokens, the quoted
    arguments [[^\']+] and the braces' content [[^}]*]. *)
Definition call_pattern : re :=
  sequence [lit "handleExpertModeResponse"; Star space; lit "("; Star space;
            lit "req,"; Star space; lit "res,"; Star space;
            lit "responseData,"; Star space;
            lit "'"; Grp 1 (plus (but "'")); lit "',"; Star space;
            lit "duration,"; Star space;
            lit "'"; Grp 2 (plus (but "'")); lit "',"; Star space;
            lit "{"; Grp 3 (Star (but "}")); lit "}"; Star space; lit ");"].

Definition result_head : string :=
"if (debugInfo) {
          debugInfo.duration = duration;".

Definition result_tail : string :=
"
          debugInfo.performance = expertModeService.collectPerformanceMetrics();
          debugInfo.context = expertModeService.collectRequestContext(req);
          res.json(expertModeService.attachDebugInfo(responseData, debugInfo));
        } else {
          res.json(responseData);
        }".

Definition add_metadata (key value : string) : string :=
"
          expertModeService.addMetadata(debugInfo, '" ++ key ++ "', " ++ value ++ ");".

Definition replacement (m : rmatch) : string :=
  let operation := grp 1 m in
  let integration := grp 2 m in
  let metadata := strip (grp 3 m) in
  let result := result_head in
  let result :=
    match metadata with
    | EmptyString => result
    | _ =>
        let parts := split ":" metadata in
        match parts with
        | [p0; p1] =>
            let key := strip p0 in
            let value := strip p1 in
            result ++ add_metadata key value
        | _ => result
        end
    end in
  result ++ result_tail.

Definition transform_handle_expert_mode_response (content : string)
  : string :=
  re_sub call_pattern replacement content.

(** [handleExpertModeResponse,\s*] *)
Definition obsolete_import : re :=
  Cat (lit "handleExpertModeResponse,") (Star space).

Definition import_guard : string := "import { ExpertModeService }".

Definition utils_import : string := "from " ++ dq ++ "./utils" ++ dq ++ ";".

Definition utils_and_service_import : string :=
"from " ++ dq ++ "./utils" ++ dq ++ ";
import { ExpertModeService } from " ++ dq ++ "../../services/ExpertModeService" ++ dq ++ ";".

(** Remove handleExpertModeResponse from imports. *)
Definition remove_obsolete_import (content : string) : string :=
  re_sub obsolete_import (fun _ => EmptyString) content.

(** Add ExpertModeService import if not present. *)
Definition add_service_import (content : string) : string :=
  if negb (contains import_guard content)
  then replace utils_import utils_and_service_import content
  else content.

Definition file_path : string :=
  "backend/src/routes/integrations/puppetserver.ts".

Definition main : IO unit :=
  content <- read_file file_path ;;
  let content := remove_obsolete_import content in
  let content := add_service_import content in
  let content := transform_handle_expert_mode_response content in
  write_file file_path content ;;;
  print "✓ Transformed Puppetserver routes".

End TransformExpertMode.

(** ** fix-lint-errors.py *)

(** [str(n)] *)
Definition str_of_nat (n : nat) : string :=
  NilEmpty.string_of_uint (Nat.to_uint n).

(** [s.endswith(suffix)] *)
Fixpoint ends_with (suffix s : string) : bool :=
  if String.eqb s suffix then true
  else match s with
       | EmptyString => false
       | String _ s' => ends_with suffix s'
       end.

Definition starts_with (p s : string) : bool :=
  match strip_prefix p s with Some _ => true | None => false end.

(** [str(e)] for an exception raised on [path]. *)
Definition describe (e : exn) (path : string) : string :=
  match e with
  | FileNotFoundError =>
      "[Errno 2] No such file or directory: '" ++ path ++ "'"
  | PermissionError => "[Errno 13] Permission denied: '" ++ path ++ "'"
  | IsADirectoryError => "[Errno 21] Is a directory: '" ++ path ++ "'"
  | UnicodeDecodeError reason => reason
  end.

Module FixLintErrors.

(** [\$\{([^}]+\.length)\}] becomes [${String(\1)}] and
    [\$\{(count|total|size|index|page|limit|offset)\}] likewise. *)
Definition length_pattern : re :=
  sequence [lit "${"; Grp 1 (Cat (plus (but "}")) (lit ".length")); lit "}"].

Definition counter_pattern : re :=
  sequence [lit "${";
            Grp 1 (Alt (lit "count") (Alt (lit "total") (Alt (lit "size")
                  (Alt (lit "index") (Alt (lit "page") (Alt (lit "limit")
                  (lit "offset")))))));
            lit "}"].

Definition wrap_string (m : rmatch) : string :=
  "${String(" ++ grp 1 m ++ ")}".

Definition fix_template_literals (content : string) : string :=
  let patterns := [ (length_pattern, wrap_string);
                    (counter_pattern, wrap_string) ] in
  fold_left (fun content pr => re_sub (fst pr) (snd pr) content)
            patterns content.

(** [(\w+)\s*\|\|\s*] followed by [0\b], by two double quotes, or by two
    single quotes.  The last template, [\1 ?? \'\'], keeps its
    backslashes: [\'] is not an escape of a replacement template. *)
Definition or_prefix : list re :=
  [Grp 1 (plus word); Star space; lit "||"; Star space].

Definition or_zero : re := sequence (or_prefix ++ [lit "0"; Wordb])%list.
Definition or_dquotes : re := sequence (or_prefix ++ [lit (dq ++ dq)])%list.
Definition or_squotes : re := sequence (or_prefix ++ [lit "''"])%list.

Definition fix_nullish_coalescing (content : string) : string :=
  let patterns :=
    [ (or_zero, fun m => grp 1 m ++ " ?? 0");
      (or_dquotes, fun m => grp 1 m ++ " ?? " ++ dq ++ dq);
      (or_squotes, fun m => grp 1 m ++ " ?? \'\'") ] in
  fold_left (fun content pr => re_sub (fst pr) (snd pr) content)
            patterns content.

Definition backend_src : string := "backend/src".

(** [backend_src.exists()] *)
Definition exists_ (path : string) : IO bool :=
  fun w =>
    (Ok (existsb (String.eqb path) (dirs w)
         || existsb (fun f => String.eqb path (fst f)) (files w))%bool, w).

(** [backend_src.rglob('*.ts')] *)
Definition rglob_ts (dir : string) : IO (list string) :=
  fun w =>
    (Ok (filter (fun path => starts_with (dir ++ "/") path
                             && ends_with ".ts" path)%bool
                (map fst (files w))), w).

(** [ts_file.relative_to(backend_src.parent)] *)
Definition relative_to_parent (path : string) : string :=
  match strip_prefix "backend/" path with
  | Some rest => rest
  | None => path
  end.

Definition process (ts_file : string) : IO unit :=
  try_except
    (content <- read_file ts_file ;;
     let original := content in
     let content := fix_template_literals content in
     let content := fix_nullish_coalescing content in
     if negb (String.eqb content original)
     then print ("Fixed: " ++ relative_to_parent ts_file)
          (* the write of the fixed content is commented out *)
     else ret tt)
    (fun _ => true)
    (fun e => print ("Error processing " ++ ts_file ++ ": "
                     ++ describe e ts_file)).

Definition main : IO unit :=
  present <- exists_ backend_src ;;
  (if negb present
   then print "Error: backend/src directory not found" ;;; sys_exit 1
   else ret tt) ;;;
  ts_files <- rglob_ts backend_src ;;
  print ("Found " ++ str_of_nat (List.length ts_files)
         ++ " TypeScript files") ;;;
  print "Note: This script makes conservative fixes." ;;;
  print ("Manual review is still required for complex cases." ++ nl) ;;;
  for_each ts_files process.

End FixLintErrors.

(** ** add-logging-to-routes.py *)

Module AddLoggingToRoutes.

(** [s.upper()] on the letters a to z; the driver applies it to the
    method names only. *)
Definition upper_char (a : ascii) : ascii :=
  if between 97 122 a then ascii_of_N (code a - 32) else a.

Fixpoint upper (s : string) : string :=
  match s with
  | EmptyString => EmptyString
  | String a s' => String (upper_char a) (upper s')
  end.




(** [(catch \(error\) \{)] *)
Definition catch_pattern : re := Grp 1 (lit "catch (error) {").



(** [router\.(get|post|delete)\(\s*] then a double-quoted, non-empty text
    without double quotes, the second group. *)
Definition route_pattern : re :=
  sequence [lit "router.";
            Grp 1 (Alt (lit "get") (Alt (lit "post") (lit "delete")));
            lit "("; Star space; lit dq; Grp 2 (plus (but "034")); lit dq].

Definition file_path : string := "backend/src/routes/integrations.ts".

Definition main : IO unit :=
  content <- try_except (read_file file_path)
               (fun e => match e with FileNotFoundError => true
                                    | _ => false end)
               (fun _ => print ("Error: Could not find " ++ file_path) ;;;
                         sys_exit 1) ;;
  let routes := finditer route_pattern content in
  for_each routes (fun hit =>
    let method := grp 1 (snd hit) in
    let endpoint := grp 2 (snd hit) in
    print ("Processing: " ++ upper method ++ " " ++ endpoint)) ;;;
  let routes_found := List.length routes in
  print (nl ++ "Found " ++ str_of_nat routes_found ++ " routes") ;;;
  print "Pattern established - manual updates recommended for remaining routes" ;;;
  print (nl ++ "To complete the updates:") ;;;
  print "1. Add 'const startTime = Date.now();' at the start of each route handler" ;;;
  print "2. Add logger.info() call after startTime" ;;;
  print "3. Add logger.error/warn/debug calls in appropriate places" ;;;
  print "4. Replace console.* calls with logger.* calls" ;;;
  print "5. Add handleExpertModeResponse() call before res.json()" ;;;
  print "6. Calculate duration and pass to handleExpertModeResponse()".

End AddLoggingToRoutes.

(** ** What a pattern matches

  [matches r prev w rest c c'] reads: pattern [r] can match the text [w]
  when [w] is preceded by the character [prev] and followed by [rest],
  turning the captured groups [c] into [c'].  It is the specification the
  backtracking matcher is compared with. *)

(** The character before the position once [w] has been read. *)
Fixpoint after (prev : option ascii) (w : string) : option ascii :=
  match w with
  | EmptyString => prev
  | String a w' => after (Some a) w'
  end.

Inductive matches : re -> option ascii -> string -> string -> caps -> caps
                      -> Prop :=
| M_Eps prev rest c :
    matches Eps prev EmptyString rest c c
| M_Chr a prev rest c :
    matches (Chr a) prev (String a EmptyString) rest c c
| M_Cls (p : ascii -> bool) a prev rest c :
    p a = true ->
    matches (Cls p) prev (String a EmptyString) rest c c
| M_Cat r1 r2 prev w1 w2 rest c c1 c2 :
    matches r1 prev w1 (w2 ++ rest) c c1 ->
    matches r2 (after prev w1) w2 rest c1 c2 ->
    matches (Cat r1 r2) prev (w1 ++ w2) rest c c2
| M_AltL r1 r2 prev w rest c c1 :
    matches r1 prev w rest c c1 ->
    matches (Alt r1 r2) prev w rest c c1
| M_AltR r1 r2 prev w rest c c1 :
    matches r2 prev w rest c c1 ->
    matches (Alt r1 r2) prev w rest c c1
| M_Star0 r prev rest c :
    matches (Star r) prev EmptyString rest c c
| M_StarS r prev w1 w2 rest c c1 c2 :
    w1 <> EmptyString ->
    matches r prev w1 (w2 ++ rest) c c1 ->
    matches (Star r) (after prev w1) w2 rest c1 c2 ->
    matches (Star r) prev (w1 ++ w2) rest c c2
| M_Lazy0 r prev rest c :
    matches (Lazy r) prev EmptyString rest c c
| M_LazyS r prev w1 w2 rest c c1 c2 :
    w1 <> EmptyString ->
    matches r prev w1 (w2 ++ rest) c c1 ->
    matches (Lazy r) (after prev w1) w2 rest c1 c2 ->
    matches (Lazy r) prev (w1 ++ w2) rest c c2
| M_Grp i r prev w rest c c1 :
    matches r prev w rest c c1 ->
    matches (Grp i r) prev w rest c ((i, w) :: c1)
| M_Wordb prev rest c :
    xorb (is_word_before prev) (is_word_at rest) = true ->
    matches Wordb prev EmptyString rest c c.

(** ** The vocabulary of the statements *)

(** Every character of [w] satisfies [p]. *)
Fixpoint all_chars (p : ascii -> bool) (w : string) : bool :=
  match w with
  | EmptyString => true
  | String a w' => (p a && all_chars p w')%bool
  end.

(** The number of characters [a] in [s]. *)
Fixpoint occurrences (a : ascii) (s : string) : nat :=
  match s with
  | EmptyString => 0
  | String b s' => (if Ascii.eqb b a then 1 else 0) + occurrences a s'
  end.

(** A pattern without capturing groups. *)
Fixpoint groupless (r : re) : bool :=
  match r with
  | Eps | Chr _ | Cls _ | Wordb => true
  | Cat r1 r2 | Alt r1 r2 => (groupless r1 && groupless r2)%bool
  | Star r1 | Lazy r1 => groupless r1
  | Grp _ _ => false
  end.

(** What a successful run of a matcher for [r] guarantees. *)
Definition sound_at {A : Type} (r : re) (run : @runner A) : Prop :=
  forall prev s c k v,
    run prev s c k = Some v ->
    exists w s' c',
      s = w ++ s' /\ matches r prev w s' c c' /\
      k (after prev w) s' c' = Some v.

(** A matcher for [r] succeeds on every text the pattern can match from the
    current position, provided the continuation accepts that way of matching
    it.  The result may come from another way to match that Python tries
    first. *)
Definition complete_at {A : Type} (r : re) (run : @runner A) : Prop :=
  forall prev w rest c c',
    matches r prev w rest c c' ->
    forall k v,
      k (after prev w) rest c' = Some v ->
      exists v', run prev (w ++ rest) c k = Some v'.

(** A text cut into the stretches [re.sub] copies and the matches it
    replaces. *)
Inductive piece : Type :=
| Kept (u : string)
| Hit (m : rmatch).

Fixpoint source_of (ps : list piece) : string :=
  match ps with
  | [] => EmptyString
  | Kept u :: ps' => u ++ source_of ps'
  | Hit m :: ps' => m_text m ++ source_of ps'
  end.

Fixpoint output_of (repl : rmatch -> string) (ps : list piece) : string :=
  match ps with
  | [] => EmptyString
  | Kept u :: ps' => u ++ output_of repl ps'
  | Hit m :: ps' => repl m ++ output_of repl ps'
  end.

(** The matches among the pieces with their start offsets, the first piece
    starting at [pos]. *)
Fixpoint hits_of (pos : nat) (ps : list piece) : list (nat * rmatch) :=
  match ps with
  | [] => []
  | Kept u :: ps' => hits_of (pos + String.length u) ps'
  | Hit m :: ps' => (pos, m) :: hits_of (pos + String.length (m_text m)) ps'
  end.

(** Every replaced piece is a match of the pattern at its place. *)
Definition hit_of (r : re) (p : piece) : Prop :=
  match p with
  | Kept _ => True
  | Hit m =>
      exists prev, matches r prev (m_text m) (m_rest m) [] (m_caps m)
  end.

(** A computation that leaves the files alone. *)
Definition keeps_files {A : Type} (m : IO A) : Prop :=
  forall w, files (snd (m w)) = files w /\ dirs (snd (m w)) = dirs w.

(** *** The shapes the passes produce *)

(** The shape every wrapped error response has: build the response object,
    then send it with the status code, merged with the debug info when there
    is one. *)
Definition canonical_response (status_code error_object : string) : string :=
"const errorResponse = {
          error: " ++ error_object ++ "
        };
        res.status(" ++ status_code ++ ").json(
          debugInfo ? expertModeService.attachDebugInfo(errorResponse, debugInfo) : errorResponse
        );".

(** What [add_debug_to_error_responses] does with a piece of the text. *)
Definition wrapped_flat (p : piece) : Prop :=
  match p with
  | Kept _ => True
  | Hit m =>
      exists status_code ws1 body ws2,
        status_code <> EmptyString /\
        all_chars is_digit status_code = true /\
        all_chars is_space ws1 = true /\
        body <> EmptyString /\
        all_chars (isnt "}") body = true /\
        all_chars is_space ws2 = true /\
        m_text m = "res.status(" ++ status_code ++ ").json({" ++ ws1
                   ++ "error: {" ++ body ++ "}" ++ ws2 ++ "});" /\
        AddErrorDebugInfo.error_replacement m
        = canonical_response status_code ("{" ++ body ++ "}")
  end.

(** The error body as [fix_error_responses] writes it. *)
Definition normalized (body : string) : string :=
  replace " ," "," (re_sub (plus space) (fun _ => " ") (strip body)).

(** What [fix_error_responses] does with a piece of the text. *)
Definition wrapped_nested (p : piece) : Prop :=
  match p with
  | Kept _ => True
  | Hit m =>
      exists status_code ws1 ws2 body ws3,
        status_code <> EmptyString /\
        all_chars is_digit status_code = true /\
        all_chars is_space ws1 = true /\
        all_chars is_space ws2 = true /\
        all_chars is_space ws3 = true /\
        m_text m = "res.status(" ++ status_code ++ ").json({" ++ ws1
                   ++ "error:" ++ ws2 ++ "{" ++ body ++ "}" ++ ws3 ++ "});" /\
        FixAllErrorResponses.error_replacement m
        = canonical_response status_code ("{ " ++ normalized body ++ " }")
  end.

Definition http_methods : list string := ["get"; "post"; "delete"].

(** What one turn of the loop of [fix_operation_names] does with a piece of
    the text: a match runs from a route registration with the route's text,
    whatever its method, up to an [OPERATION_PLACEHOLDER] further on. *)
Definition route_region (route_pattern : string) (p : piece) : Prop :=
  match p with
  | Kept _ => True
  | Hit m =>
      exists method ws between,
        In method http_methods /\ all_chars is_space ws = true /\
        m_text m = "router." ++ method ++ "(" ++ ws ++ route_pattern
                   ++ between ++ "OPERATION_PLACEHOLDER"
  end.

(** What [remove_obsolete_import] deletes: the obsolete name with its comma
    and the whitespace after it. *)
Definition obsolete_symbol (p : piece) : Prop :=
  match p with
  | Kept _ => True
  | Hit m =>
      exists ws,
        all_chars is_space ws = true /\
        m_text m = "handleExpertModeResponse," ++ ws
  end.


(** *** Texts in which a pattern finds nothing *)

(** A pattern without word boundaries: what it matches does not depend on
    the text around. *)
Fixpoint boundary_free (r : re) : bool :=
  match r with
  | Eps | Chr _ | Cls _ => true
  | Cat r1 r2 | Alt r1 r2 => (boundary_free r1 && boundary_free r2)%bool
  | Star r1 | Lazy r1 | Grp _ r1 => boundary_free r1
  | Wordb => false
  end.

(** A match of [r] starts at the beginning of [x]. *)
Definition starts_match (r : re) (x : string) : Prop :=
  exists w t c', x = w ++ t /\ matches r None w t [] c'.

(** No match of [r] starts anywhere in [x]. *)
Definition quiet (r : re) (x : string) : Prop :=
  forall prev, search r prev x = None.

(** Texts that disagree before either ends. *)
Fixpoint compatible (p b : string) : bool :=
  match p, b with
  | String a p', String c b' => (Ascii.eqb a c && compatible p' b')%bool
  | _, _ => true
  end.

(** No non-empty suffix of [l] can be continued into a text that starts
    with [lead]. *)
Fixpoint clash (lead l : string) : bool :=
  match l with
  | EmptyString => true
  | String _ l' => (negb (compatible lead l) && clash lead l')%bool
  end.

(** *** The parts of an error response and of its rewriting *)

(** The text of a match of [add_debug_to_error_responses] up to its first
    closing brace. *)
Definition flat_head (status_code ws1 body : string) : string :=
  "res.status(" ++ status_code ++ ").json({" ++ ws1 ++ "error: {" ++ body.

(** The text of a match of [fix_error_responses] up to the opening brace of
    the error object. *)
Definition nested_head (status_code ws1 ws2 : string) : string :=
  "res.status(" ++ status_code ++ ").json({" ++ ws1 ++ "error:" ++ ws2 ++ "{".

(** The canonical response up to the error object, and from the status code
    on. *)
Definition object_open : string :=
"const errorResponse = {
          error: {".

Definition send_tail : string :=
").json(
          debugInfo ? expertModeService.attachDebugInfo(errorResponse, debugInfo) : errorResponse
        );".

(** [scan st s] reads [s] looking for a closing brace that follows another
    one with only whitespace between them: [None] when there is such a
    pair, otherwise whether the text read so far ends with a closing brace
    and whitespace.  [st] tells whether the text before [s] does. *)
Fixpoint scan (st : bool) (s : string) : option bool :=
  match s with
  | EmptyString => Some st
  | String c s' =>
      if Ascii.eqb c "}" then (if st then None else scan true s')
      else if is_space c then scan st s'
      else scan false s'
  end.

(** One nested object of an error body and the text up to the next. *)
Definition body_item : re :=
  sequence [lit "{"; Star (but "}"); lit "}"; Star (but "}")].

(** The text of a whole match of [fix_error_responses]: it ends with the
    closing braces of the error object and of the payload. *)
Definition response_text (w : string) : Prop :=
  (forall t, starts_match FixAllErrorResponses.error_pattern (w ++ t)) /\
  exists w0 ws3,
    all_chars is_space ws3 = true /\ w = w0 ++ "}" ++ ws3 ++ "});".

(** What follows the first pair of closing braces of a match. *)
Definition after_pair (post : string) : Prop :=
  post = ");" \/
  exists ws3, all_chars is_space ws3 = true /\ post = ws3 ++ "});".

(** The characters the end of a match is made of. *)
Definition closing_char (a : ascii) : bool :=
  (is_space a || Ascii.eqb a "}" || Ascii.eqb a ")" || Ascii.eqb a ";")%bool.

(** *** What the other passes produce *)

(** Where [add_expert_mode_init] inserts: the start time, whitespace with
    two line feeds at least, and the logging call. *)
Definition init_site (p : piece) : Prop :=
  match p with
  | Kept _ => True
  | Hit m =>
      exists ws1 ws2 ws3,
        all_chars is_space ws1 = true /\ all_chars is_space ws2 = true /\
        all_chars is_space ws3 = true /\
        m_text m = "const startTime = Date.now();" ++ ws1 ++ nl ++ ws2 ++ nl
                   ++ ws3 ++ "logger.info("
  end.

(** The pattern of an early return behind a guard that opens with [head]:
    [(head[^}]*logger\.warn[^}]*\})\s*res\.status]. *)
Definition guard_pattern (head : string) : re :=
  sequence [Grp 1 (sequence [lit head; Star (but "}"); lit "logger.warn";
                             Star (but "}"); lit "}"]);
            Star space; lit "res.status"].

(** What a turn of [FixAllErrorResponses.add_debug_to_early_returns] does
    with a piece of the text: the guard block and the response call stay,
    the whitespace between them gives way to the collection of a warning. *)
Definition guard_instrumented (head message : string)
           (repl : rmatch -> string) (p : piece) : Prop :=
  match p with
  | Kept _ => True
  | Hit m =>
      exists before_warn after_warn ws,
        all_chars (isnt "}") before_warn = true /\
        all_chars (isnt "}") after_warn = true /\
        all_chars is_space ws = true /\
        let condition :=
          head ++ before_warn ++ "logger.warn" ++ after_warn ++ "}" in
        m_text m = condition ++ ws ++ "res.status" /\
        repl m = condition ++ FixAllErrorResponses.debug_collection message
  end.

(** The names [fix_template_literals] wraps when they are interpolated
    alone. *)
Definition counters : list string :=
  ["count"; "total"; "size"; "index"; "page"; "limit"; "offset"].

(** What the first turn of [fix_template_literals] does with a piece of the
    text: an interpolation that ends with [.length] is wrapped. *)
Definition length_wrapped (p : piece) : Prop :=
  match p with
  | Kept _ => True
  | Hit m =>
      exists object,
        object <> EmptyString /\ all_chars (isnt "}") object = true /\
        m_text m = "${" ++ object ++ ".length}" /\
        FixLintErrors.wrap_string m = "${String(" ++ object ++ ".length)}"
  end.

(** What the second turn does: the interpolation of a counter is wrapped. *)
Definition counter_wrapped (p : piece) : Prop :=
  match p with
  | Kept _ => True
  | Hit m =>
      exists name,
        In name counters /\
        m_text m = "${" ++ name ++ "}" /\
        FixLintErrors.wrap_string m = "${String(" ++ name ++ ")}"
  end.





(** What a turn of [fix_nullish_coalescing] does with a piece of the text:
    a name, [||] and the default [value] become the name, [ ?? ] and
    [written]. *)
Definition nullish_rewritten (value written : string)
           (repl : rmatch -> string) (p : piece) : Prop :=
  match p with
  | Kept _ => True
  | Hit m =>
      exists name ws1 ws2,
        name <> EmptyString /\ all_chars is_word name = true /\
        all_chars is_space ws1 = true /\ all_chars is_space ws2 = true /\
        m_text m = name ++ ws1 ++ "||" ++ ws2 ++ value /\
        repl m = name ++ " ?? " ++ written
  end.

(** The three replacement templates of [fix_nullish_coalescing]. *)
Definition to_zero (m : rmatch) : string := grp 1 m ++ " ?? 0".
Definition to_dquotes (m : rmatch) : string := grp 1 m ++ " ?? " ++ dq ++ dq.
Definition to_squotes (m : rmatch) : string := grp 1 m ++ " ?? \'\'".

(** ** Text lemmas *)

Lemma append_nil_r (s : string) : s ++ EmptyString = s.
Proof. induction s; simpl; congruence. Qed.

Lemma append_assoc (a b c : string) : (a ++ b) ++ c = a ++ b ++ c.
Proof. induction a; simpl; congruence. Qed.

Lemma length_append (a b : string) :
  String.length (a ++ b) = String.length a + String.length b.
Proof. induction a; simpl; congruence. Qed.

Lemma length_zero (s : string) : String.length s = 0 -> s = EmptyString.
Proof. destruct s; simpl; congruence. Qed.

Lemma append_cancel_l (a b c : string) : a ++ b = a ++ c -> b = c.
Proof. induction a; simpl; intros H; [assumption | injection H; auto]. Qed.

Lemma substring_prefix (w s : string) :
  substring 0 (String.length w) (w ++ s) = w.
Proof. induction w; simpl; [destruct s; reflexivity | congruence]. Qed.

Lemma consumed_append (w s : string) : consumed (w ++ s) s = w.
Proof.
  unfold consumed. rewrite length_append.
  replace (String.length w + String.length s - String.length s)
    with (String.length w) by lia.
  apply substring_prefix.
Qed.

Lemma shorter_append (w s : string) :
  shorter s (w ++ s) = true <-> w <> EmptyString.
Proof.
  unfold shorter. rewrite length_append, Nat.ltb_lt. split.
  - intros H ->. simpl in H. lia.
  - destruct w; [congruence | simpl; lia].
Qed.

Lemma after_append (prev : option ascii) (w1 w2 : string) :
  after prev (w1 ++ w2) = after (after prev w1) w2.
Proof.
  revert prev. induction w1 as [|a w1 IH]; intros prev.
  - reflexivity.
  - simpl. apply IH.
Qed.

(** ** The matcher finds what the pattern matches *)

Section Soundness.

Context {A : Type}.

Lemma star_loop_sound (r : re) (run : @runner A) :
  sound_at r run ->
  forall n,
    @sound_at A (Star r) (fun prev s c k => star_loop run k n prev s c).
Proof.
  intros Hrun n. induction n as [|n IH]; intros prev s c k0 v H; simpl in H.
  - exists EmptyString, s, c. repeat split; [constructor | assumption].
  - destruct (run prev s c _) as [v'|] eqn:E.
    + injection H as ->.
      apply Hrun in E. destruct E as (w1 & s1 & c1 & -> & M1 & K1).
      destruct (shorter s1 (w1 ++ s1)) eqn:Hs; [|discriminate].
      apply shorter_append in Hs.
      apply IH in K1. destruct K1 as (w2 & s2 & c2 & -> & M2 & K2).
      exists (w1 ++ w2), s2, c2. rewrite append_assoc, after_append.
      repeat split; [econstructor; eassumption | assumption].
    + exists EmptyString, s, c. repeat split; [constructor | assumption].
Qed.

Lemma lazy_loop_sound (r : re) (run : @runner A) :
  sound_at r run ->
  forall n,
    @sound_at A (Lazy r) (fun prev s c k => lazy_loop run k n prev s c).
Proof.
  intros Hrun n. induction n as [|n IH]; intros prev s c k0 v H; simpl in H.
  - destruct (k0 prev s c) eqn:E; [|discriminate].
    exists EmptyString, s, c.
    split; [reflexivity | split; [apply M_Lazy0 | simpl; congruence]].
  - destruct (k0 prev s c) eqn:E.
    + exists EmptyString, s, c.
      split; [reflexivity | split; [apply M_Lazy0 | simpl; congruence]].
    + apply Hrun in H. destruct H as (w1 & s1 & c1 & -> & M1 & K1).
      destruct (shorter s1 (w1 ++ s1)) eqn:Hs; [|discriminate].
      apply shorter_append in Hs.
      apply IH in K1. destruct K1 as (w2 & s2 & c2 & -> & M2 & K2).
      exists (w1 ++ w2), s2, c2. rewrite append_assoc, after_append.
      repeat split; [econstructor; eassumption | assumption].
Qed.

Lemma exec_sound (r : re) : @sound_at A r (exec r).
Proof.
  induction r as [|a|p|r1 IH1 r2 IH2|r1 IH1 r2 IH2|r1 IH1|r1 IH1|i r1 IH1|];
    intros prev s c k v H; simpl in H.
  - exists EmptyString, s, c. repeat split; [constructor | assumption].
  - destruct s as [|b s]; [discriminate|].
    destruct (Ascii.eqb a b) eqn:E; [|discriminate].
    apply Ascii.eqb_eq in E. subst b.
    exists (String a EmptyString), s, c.
    repeat split; [constructor | assumption].
  - destruct s as [|b s]; [discriminate|].
    destruct (p b) eqn:E; [|discriminate].
    exists (String b EmptyString), s, c.
    repeat split; [constructor; assumption | assumption].
  - apply IH1 in H. destruct H as (w1 & s1 & c1 & -> & M1 & K1).
    apply IH2 in K1. destruct K1 as (w2 & s2 & c2 & -> & M2 & K2).
    exists (w1 ++ w2), s2, c2. rewrite append_assoc, after_append.
    repeat split; [econstructor; eassumption | assumption].
  - destruct (exec r1 prev s c k) as [v'|] eqn:E.
    + injection H as ->. apply IH1 in E.
      destruct E as (w & s' & c' & -> & M & K).
      exists w, s', c'. repeat split; [apply M_AltL; assumption | assumption].
    + apply IH2 in H. destruct H as (w & s' & c' & -> & M & K).
      exists w, s', c'. repeat split; [apply M_AltR; assumption | assumption].
  - exact (star_loop_sound r1 (exec r1) IH1 _ prev s c k v H).
  - exact (lazy_loop_sound r1 (exec r1) IH1 _ prev s c k v H).
  - apply IH1 in H. destruct H as (w & s' & c' & -> & M & K).
    rewrite consumed_append in K.
    exists w, s', ((i, w) :: c').
    repeat split; [constructor; assumption | assumption].
  - destruct (xorb _ _) eqn:E; [|discriminate].
    exists EmptyString, s, c. repeat split; [constructor; assumption | assumption].
Qed.

End Soundness.

(** ** The matcher finds a match whenever the pattern has one *)

Section Completeness.

Context {A : Type}.

Lemma star_loop_complete (r : re) (run : @runner A) :
  complete_at r run ->
  forall prev w rest c c',
    matches (Star r) prev w rest c c' ->
    forall n k v,
      String.length w <= n ->
      k (after prev w) rest c' = Some v ->
      exists v', star_loop run k n prev (w ++ rest) c = Some v'.
Proof.
  intros Hrun prev w rest c c' M.
  remember (Star r) as sr eqn:Hsr.
  induction M; try discriminate; injection Hsr as ->; intros n k v Hn Hk.
  - destruct n as [|n]; simpl in *; [eauto|].
    destruct (run prev rest c _); eauto.
  - clear IHM1. specialize (IHM2 eq_refl).
    rewrite length_append in Hn.
    destruct n as [|n].
    { destruct w1; [congruence | simpl in Hn; lia]. }
    simpl. rewrite append_assoc.
    rewrite after_append in Hk.
    destruct (IHM2 n k v) as [v2 H2]; [destruct w1; simpl in *; [congruence|lia] | assumption |].
    match goal with
    | |- context [run prev ?s c ?k'] =>
        destruct (Hrun _ _ _ _ _ M1 k' v2) as [v1 H1]
    end.
    + rewrite (proj2 (shorter_append w1 (w2 ++ rest)) H). exact H2.
    + rewrite H1. eauto.
Qed.

Lemma lazy_loop_complete (r : re) (run : @runner A) :
  complete_at r run ->
  forall prev w rest c c',
    matches (Lazy r) prev w rest c c' ->
    forall n k v,
      String.length w <= n ->
      k (after prev w) rest c' = Some v ->
      exists v', lazy_loop run k n prev (w ++ rest) c = Some v'.
Proof.
  intros Hrun prev w rest c c' M.
  remember (Lazy r) as sr eqn:Hsr.
  induction M; try discriminate; injection Hsr as ->; intros n k v Hn Hk.
  - destruct n as [|n]; simpl in *; rewrite Hk; eauto.
  - clear IHM1. specialize (IHM2 eq_refl).
    rewrite length_append in Hn.
    destruct n as [|n].
    { destruct w1; [congruence | simpl in Hn; lia]. }
    simpl. rewrite append_assoc.
    rewrite after_append in Hk.
    destruct (k prev (w1 ++ w2 ++ rest) c); [eauto|].
    destruct (IHM2 n k v) as [v2 H2]; [destruct w1; simpl in *; [congruence|lia] | assumption |].
    match goal with
    | |- context [run prev ?s c ?k'] =>
        destruct (Hrun _ _ _ _ _ M1 k' v2) as [v1 H1]
    end.
    + rewrite (proj2 (shorter_append w1 (w2 ++ rest)) H). exact H2.
    + eauto.
Qed.

Lemma exec_complete (r : re) : @complete_at A r (exec r).
Proof.
  induction r as [|a|p|r1 IH1 r2 IH2|r1 IH1 r2 IH2|r1 IH1|r1 IH1|i r1 IH1|];
    intros prev w rest c c' M k v Hk.
  - inversion M; subst. simpl in *. eauto.
  - inversion M; subst. simpl in *. rewrite Ascii.eqb_refl. eauto.
  - inversion M; subst. simpl in *.
    match goal with H : p _ = true |- _ => rewrite H end. eauto.
  - inversion M; subst. simpl. rewrite append_assoc.
    rewrite after_append in Hk.
    match goal with
    | M1 : matches r1 _ _ _ _ _, M2 : matches r2 _ _ _ _ _ |- _ =>
        destruct (IH2 _ _ _ _ _ M2 k v Hk) as [v2 E2];
        exact (IH1 _ _ _ _ _ M1 (fun prev' s' c' => exec r2 prev' s' c' k)
                   v2 E2)
    end.
  - simpl. destruct (exec r1 prev (w ++ rest) c k) eqn:E; [eauto|].
    inversion M; subst.
    + match goal with
      | M1 : matches r1 _ _ _ _ _ |- _ =>
          destruct (IH1 _ _ _ _ _ M1 k v Hk); congruence
      end.
    + eapply IH2; eassumption.
  - simpl. eapply star_loop_complete; eauto.
    rewrite length_append. lia.
  - simpl. eapply lazy_loop_complete; eauto.
    rewrite length_append. lia.
  - inversion M; subst. simpl.
    eapply IH1; [eassumption|].
    rewrite consumed_append. eassumption.
  - inversion M; subst. simpl in *.
    match goal with H : xorb _ _ = true |- _ => rewrite H end. eauto.
Qed.

End Completeness.

(** ** Matches found by [match_here] and [re.search] *)

Lemma match_here_sound (r : re) (prev : option ascii) (s : string)
      (m : rmatch) :
  match_here r prev s = Some m ->
  s = m_text m ++ m_rest m /\
  matches r prev (m_text m) (m_rest m) [] (m_caps m) /\
  m_prev m = after prev (m_text m).
Proof.
  unfold match_here. intros H. apply exec_sound in H.
  destruct H as (w & s' & c' & -> & M & K).
  rewrite consumed_append in K. injection K as <-. simpl. auto.
Qed.

Lemma match_here_complete (r : re) (prev : option ascii) (w rest : string)
      (c' : caps) :
  matches r prev w rest [] c' ->
  exists m, match_here r prev (w ++ rest) = Some m.
Proof.
  intros M. unfold match_here.
  eapply exec_complete; [eassumption | reflexivity].
Qed.

Lemma search_sound (r : re) (s : string) :
  forall prev skipped m,
    search r prev s = Some (skipped, m) ->
    s = skipped ++ m_text m ++ m_rest m /\
    matches r (after prev skipped) (m_text m) (m_rest m) [] (m_caps m) /\
    m_prev m = after prev (skipped ++ m_text m).
Proof.
  induction s as [|a s IH]; intros prev skipped m H; simpl in H.
  - destruct (match_here r prev EmptyString) as [m'|] eqn:E; [|discriminate].
    injection H as <- <-. apply match_here_sound in E. simpl. exact E.
  - destruct (match_here r prev (String a s)) as [m'|] eqn:E.
    + injection H as <- <-. apply match_here_sound in E. simpl. exact E.
    + destruct (search r (Some a) s) as [[sk m']|] eqn:E'; [|discriminate].
      injection H as <- <-. apply IH in E'.
      destruct E' as (-> & M & P). simpl. auto.
Qed.

(** [re.search] finds a match whenever one starts somewhere in the text. *)
Lemma search_complete (r : re) (before w rest : string) (c' : caps) :
  forall prev,
    matches r (after prev before) w rest [] c' ->
    exists skipped m, search r prev (before ++ w ++ rest) = Some (skipped, m).
Proof.
  induction before as [|a before IH]; intros prev M; simpl in *.
  - destruct (match_here_complete _ _ _ _ _ M) as [m E].
    destruct (w ++ rest); simpl; rewrite E; eauto.
  - destruct (match_here r prev _); [eauto|].
    destruct (IH _ M) as (sk & m & ->). eauto.
Qed.

(** Without a match anywhere, [re.search] returns [None], and conversely. *)
Lemma search_none (r : re) (s : string) :
  forall prev,
    search r prev s = None ->
    forall before w rest c',
      s = before ++ w ++ rest ->
      ~ matches r (after prev before) w rest [] c'.
Proof.
  intros prev H before w rest c' -> M.
  destruct (search_complete _ _ _ _ _ _ M) as (sk & m & E). congruence.
Qed.

(** ** [re.sub] splices replacements into the text between the matches *)

Lemma sub_loop_pieces (r : re) (repl : rmatch -> string) (n : nat) :
  forall pos prev s,
    exists ps,
      source_of ps = s /\
      output_of repl ps = sub_loop n r repl prev s /\
      hits_of pos ps = find_loop n r pos prev s /\
      Forall (hit_of r) ps.
Proof.
  induction n as [|n IH]; intros pos prev s.
  - exists [Kept s]. simpl. rewrite append_nil_r.
    repeat split; repeat constructor.
  - simpl. destruct (search r prev s) as [[skipped m]|] eqn:E.
    + apply search_sound in E. destruct E as (Hs & M & _).
      destruct m as [w c p rest]. simpl in *.
      assert (Hm : hit_of r (Hit (mkMatch w c p rest))) by (simpl; eauto).
      destruct w as [|x w].
      * destruct rest as [|a rest].
        -- exists [Kept skipped; Hit (mkMatch EmptyString c p EmptyString)].
           simpl. subst s. repeat split; repeat constructor; assumption.
        -- destruct (IH (S (pos + String.length skipped)) (Some a) rest)
             as (ps & Hsrc & Hout & Hhits & Hall).
           exists (Kept skipped :: Hit (mkMatch EmptyString c p (String a rest))
                   :: Kept (String a EmptyString) :: ps).
           simpl. subst s. rewrite Hsrc, Hout.
           replace (pos + String.length skipped + 0 + 1)
             with (S (pos + String.length skipped)) by lia.
           rewrite Hhits.
           repeat split; repeat constructor; assumption.
      * destruct (IH (pos + String.length skipped + String.length (String x w))
                     p rest) as (ps & Hsrc & Hout & Hhits & Hall).
        exists (Kept skipped :: Hit (mkMatch (String x w) c p rest) :: ps).
        simpl in *. subst s. rewrite Hsrc, Hout, Hhits.
        repeat split; repeat constructor; assumption.
    + exists [Kept s]. simpl. rewrite append_nil_r.
      repeat split; repeat constructor.
Qed.

(** [re.sub] and [re.finditer] read as pieces of the text. *)
Lemma re_sub_pieces (r : re) (repl : rmatch -> string) (s : string) :
  exists ps,
    source_of ps = s /\
    output_of repl ps = re_sub r repl s /\
    hits_of 0 ps = finditer r s /\
    Forall (hit_of r) ps.
Proof. apply sub_loop_pieces. Qed.

(** A text without a match is returned as it is. *)
Lemma re_sub_no_match (r : re) (repl : rmatch -> string) (s : string) :
  search r None s = None -> re_sub r repl s = s.
Proof. unfold re_sub. simpl. intros ->. reflexivity. Qed.

Lemma finditer_no_match (r : re) (s : string) :
  search r None s = None <-> finditer r s = [].
Proof.
  unfold finditer. simpl. destruct (search r None s) as [[sk m]|].
  - split; discriminate.
  - split; reflexivity.
Qed.

(** ** Reading the matches of the scripts' patterns *)

Lemma all_chars_append (p : ascii -> bool) (w1 w2 : string) :
  all_chars p (w1 ++ w2) = (all_chars p w1 && all_chars p w2)%bool.
Proof.
  induction w1 as [|a w1 IH]; simpl; [reflexivity|].
  rewrite IH, andb_assoc. reflexivity.
Qed.

(** Two runs of characters of a class that end at a character outside the
    class are the same run. *)
Lemma run_unique (p : ascii -> bool) (x x' : string) a b r r' :
  all_chars p x = true -> all_chars p x' = true ->
  p a = false -> p b = false ->
  x ++ String a r = x' ++ String b r' ->
  x = x' /\ String a r = String b r'.
Proof.
  revert x'. induction x as [|c x IH]; intros [|c' x'] Hx Hx' Ha Hb E;
    simpl in *.
  - auto.
  - injection E as -> _. apply andb_prop in Hx'. destruct Hx'. congruence.
  - injection E as -> _. apply andb_prop in Hx. destruct Hx. congruence.
  - injection E as -> E.
    apply andb_prop in Hx. apply andb_prop in Hx'.
    destruct Hx as [_ Hx], Hx' as [_ Hx'].
    destruct (IH x' Hx Hx' Ha Hb E) as [-> ?]. auto.
Qed.

Lemma matches_lit (s : string) :
  forall prev rest c, matches (lit s) prev s rest c c.
Proof.
  induction s as [|a s IH]; intros prev rest c; simpl.
  - constructor.
  - change (String a s) with (String a EmptyString ++ s).
    econstructor; [constructor | apply IH].
Qed.

Lemma matches_lit_inv (s : string) :
  forall prev w rest c c',
    matches (lit s) prev w rest c c' -> w = s /\ c' = c.
Proof.
  induction s as [|a s IH]; intros prev w rest c c' M; simpl in M.
  - inversion M; subst; auto.
  - inversion M; subst.
    match goal with
    | M1 : matches (Chr a) _ _ _ _ _, M2 : matches (lit s) _ _ _ _ _ |- _ =>
        inversion M1; subst; apply IH in M2; destruct M2 as [-> ->]
    end.
    auto.
Qed.

Lemma matches_cat_inv (r1 r2 : re) prev w rest c c' :
  matches (Cat r1 r2) prev w rest c c' ->
  exists w1 w2 c1,
    w = w1 ++ w2 /\ matches r1 prev w1 (w2 ++ rest) c c1 /\
    matches r2 (after prev w1) w2 rest c1 c'.
Proof. intros M. inversion M; subst. eauto 7. Qed.

Lemma matches_grp_inv (i : nat) (r : re) prev w rest c c' :
  matches (Grp i r) prev w rest c c' ->
  exists c1, c' = (i, w) :: c1 /\ matches r prev w rest c c1.
Proof. intros M. inversion M; subst. eauto. Qed.

Lemma matches_alt_inv (r1 r2 : re) prev w rest c c' :
  matches (Alt r1 r2) prev w rest c c' ->
  matches r1 prev w rest c c' \/ matches r2 prev w rest c c'.
Proof. intros M. inversion M; subst; auto. Qed.

Lemma matches_cls_inv (p : ascii -> bool) prev w rest c c' :
  matches (Cls p) prev w rest c c' ->
  exists a, w = String a EmptyString /\ p a = true /\ c' = c.
Proof. intros M. inversion M; subst. eauto. Qed.

Lemma matches_star_cls (p : ascii -> bool) (w : string) :
  all_chars p w = true ->
  forall prev rest c, matches (Star (Cls p)) prev w rest c c.
Proof.
  induction w as [|a w IH]; simpl; intros H prev rest c.
  - constructor.
  - apply andb_prop in H. destruct H as [Ha Hw].
    change (String a w) with (String a EmptyString ++ w).
    econstructor; [discriminate | constructor; assumption | apply IH; assumption].
Qed.

Lemma matches_star_cls_inv (p : ascii -> bool) prev w rest c c' :
  matches (Star (Cls p)) prev w rest c c' ->
  all_chars p w = true /\ c' = c.
Proof.
  intros M. remember (Star (Cls p)) as sr eqn:Hsr.
  induction M; try discriminate; injection Hsr as ->.
  - auto.
  - destruct (IHM2 eq_refl) as [H2 ->].
    apply matches_cls_inv in M1. destruct M1 as (a & -> & Ha & ->).
    simpl. rewrite Ha, H2. auto.
Qed.

Lemma matches_plus_cls (p : ascii -> bool) (w : string) :
  w <> EmptyString -> all_chars p w = true ->
  forall prev rest c, matches (plus (Cls p)) prev w rest c c.
Proof.
  intros Hne H prev rest c. destruct w as [|a w]; [congruence|].
  simpl in H. apply andb_prop in H. destruct H as [Ha Hw].
  change (String a w) with (String a EmptyString ++ w).
  unfold plus. econstructor; [constructor; assumption|].
  apply matches_star_cls. assumption.
Qed.

Lemma matches_plus_cls_inv (p : ascii -> bool) prev w rest c c' :
  matches (plus (Cls p)) prev w rest c c' ->
  w <> EmptyString /\ all_chars p w = true /\ c' = c.
Proof.
  unfold plus. intros M. apply matches_cat_inv in M.
  destruct M as (w1 & w2 & c1 & -> & M1 & M2).
  apply matches_cls_inv in M1. destruct M1 as (a & -> & Ha & ->).
  apply matches_star_cls_inv in M2. destruct M2 as [H2 ->].
  simpl. rewrite Ha, H2. repeat split; auto. discriminate.
Qed.

(** Take apart a hypothesis that a sequence of literals, classes and groups
    matches. *)
Ltac invert_matches :=
  repeat match goal with
    | H : matches (Cat _ _) _ _ _ _ _ |- _ =>
        let w1 := fresh "w" in
        let w2 := fresh "w" in
        let c1 := fresh "c" in
        let E := fresh "E" in
        let M := fresh "M" in
        apply matches_cat_inv in H;
        destruct H as (w1 & w2 & c1 & E & M & H)
    | H : matches (Grp _ _) _ _ _ _ _ |- _ =>
        let c1 := fresh "c" in
        let E := fresh "E" in
        apply matches_grp_inv in H; destruct H as (c1 & E & H)
    | H : matches (lit _) _ _ _ _ _ |- _ =>
        let E1 := fresh "E" in
        let E2 := fresh "E" in
        apply matches_lit_inv in H; destruct H as [E1 E2]
    | H : matches (Star space) _ _ _ _ _ |- _ =>
        let E1 := fresh "S" in
        let E2 := fresh "E" in
        apply matches_star_cls_inv in H; destruct H as [E1 E2]
    | H : matches (Star (but _)) _ _ _ _ _ |- _ =>
        let E1 := fresh "S" in
        let E2 := fresh "E" in
        apply matches_star_cls_inv in H; destruct H as [E1 E2]
    | H : matches (plus digit) _ _ _ _ _ |- _ =>
        let N := fresh "N" in
        let E1 := fresh "S" in
        let E2 := fresh "E" in
        apply matches_plus_cls_inv in H; destruct H as (N & E1 & E2)
    | H : matches (plus (but _)) _ _ _ _ _ |- _ =>
        let N := fresh "N" in
        let E1 := fresh "S" in
        let E2 := fresh "E" in
        apply matches_plus_cls_inv in H; destruct H as (N & E1 & E2)
    end.

(** The matches [re.finditer] yields are matches of the pattern. *)
Lemma hits_of_in (r : re) (ps : list piece) :
  Forall (hit_of r) ps ->
  forall pos hit, In hit (hits_of pos ps) -> hit_of r (Hit (snd hit)).
Proof.
  induction 1 as [|p ps Hp Hps IH]; intros pos hit Hin; simpl in Hin.
  - contradiction.
  - destruct p as [u|m].
    + eapply IH; eassumption.
    + destruct Hin as [<- | Hin]; [exact Hp | eapply IH; eassumption].
Qed.

Lemma finditer_matches (r : re) (s : string) (pos : nat) (m : rmatch) :
  In (pos, m) (finditer r s) ->
  exists prev, matches r prev (m_text m) (m_rest m) [] (m_caps m).
Proof.
  destruct (re_sub_pieces r (fun _ => EmptyString) s)
    as (ps & _ & _ & Hhits & Hall).
  rewrite <- Hhits. intros Hin.
  exact (hits_of_in r ps Hall 0 (pos, m) Hin).
Qed.

(** ** Region preservation *)

(** C4. For any input text, each pass built on [re.sub] cuts the text into
    the matches [re.finditer] reports for its pattern and the stretches
    between them; its output is the same sequence with every match replaced
    by the replacement text and every stretch outside the matches copied
    unchanged, in the same order.  Stated for the two error-response
    passes. *)
Theorem region_preservation (content : string) :
  (exists ps,
     source_of ps = content /\
     output_of AddErrorDebugInfo.error_replacement ps
     = AddErrorDebugInfo.add_debug_to_error_responses content /\
     hits_of 0 ps = finditer AddErrorDebugInfo.error_pattern content) /\
  (exists ps,
     source_of ps = content /\
     output_of FixAllErrorResponses.error_replacement ps
     = FixAllErrorResponses.fix_error_responses content /\
     hits_of 0 ps = finditer FixAllErrorResponses.error_pattern content).
Proof.
  split.
  - destruct (re_sub_pieces AddErrorDebugInfo.error_pattern
                AddErrorDebugInfo.error_replacement content)
      as (ps & Hsrc & Hout & Hhits & _).
    exists ps. auto.
  - destruct (re_sub_pieces FixAllErrorResponses.error_pattern
                FixAllErrorResponses.error_replacement content)
      as (ps & Hsrc & Hout & Hhits & _).
    exists ps. auto.
Qed.

(** ** Membership and counting in texts *)

Lemma strip_prefix_append (p s : string) : strip_prefix p (p ++ s) = Some s.
Proof.
  induction p as [|a p IH]; simpl; [reflexivity|].
  rewrite Ascii.eqb_refl. exact IH.
Qed.

Lemma strip_prefix_some (p s rest : string) :
  strip_prefix p s = Some rest -> s = p ++ rest.
Proof.
  revert s. induction p as [|a p IH]; intros s H; simpl in *.
  - congruence.
  - destruct s as [|b s]; [discriminate|].
    destruct (Ascii.eqb a b) eqn:E; [|discriminate].
    apply Ascii.eqb_eq in E. subst b. f_equal. apply IH. assumption.
Qed.

Lemma strip_prefix_extend (p s rest t : string) :
  strip_prefix p s = Some rest -> strip_prefix p (s ++ t) = Some (rest ++ t).
Proof.
  intros H. apply strip_prefix_some in H. subst s.
  rewrite append_assoc. apply strip_prefix_append.
Qed.

Lemma contains_append_l (p a b : string) :
  contains p a = true -> contains p (a ++ b) = true.
Proof.
  induction a as [|x a IH]; simpl.
  - destruct (strip_prefix p EmptyString) as [rest|] eqn:E; [|discriminate].
    intros _. destruct p; [|discriminate].
    destruct b; reflexivity.
  - destruct (strip_prefix p (String x a)) as [rest|] eqn:E.
    + intros _.
      change (String x (a ++ b)) with (String x a ++ b).
      rewrite (strip_prefix_extend _ _ _ b E). reflexivity.
    + intros H. destruct (strip_prefix p (String x (a ++ b))); auto.
Qed.

Lemma contains_append_r (p a b : string) :
  contains p b = true -> contains p (a ++ b) = true.
Proof.
  intros H. induction a as [|x a IH]; simpl; [assumption|].
  destruct (strip_prefix p (String x (a ++ b))); auto.
Qed.

Lemma contains_intro (p a b : string) : contains p (a ++ p ++ b) = true.
Proof.
  apply contains_append_r.
  destruct (p ++ b) eqn:E; simpl; rewrite <- E, strip_prefix_append;
    reflexivity.
Qed.


Lemma split_length (a : ascii) (s : string) :
  List.length (split a s) = S (occurrences a s).
Proof.
  induction s as [|b s IH]; simpl; [reflexivity|].
  destruct (Ascii.eqb b a); simpl.
  - rewrite IH. reflexivity.
  - destruct (split a s) as [|w ws]; simpl in *; [discriminate | assumption].
Qed.

Lemma occurrences_lstrip (a : ascii) (s : string) :
  is_space a = false -> occurrences a (lstrip s) = occurrences a s.
Proof.
  intros Ha. induction s as [|b s IH]; simpl; [reflexivity|].
  destruct (is_space b) eqn:Hb; [|reflexivity].
  destruct (Ascii.eqb b a) eqn:E; [|assumption].
  apply Ascii.eqb_eq in E. congruence.
Qed.

Lemma occurrences_rstrip (a : ascii) (s : string) :
  is_space a = false -> occurrences a (rstrip s) = occurrences a s.
Proof.
  intros Ha. induction s as [|b s IH]; simpl; [reflexivity|].
  destruct (rstrip s) as [|x t] eqn:E.
  - simpl in IH. destruct (is_space b) eqn:Hb; simpl.
    + destruct (Ascii.eqb b a) eqn:E'; [|assumption].
      apply Ascii.eqb_eq in E'. congruence.
    + rewrite <- IH. lia.
  - simpl in *. rewrite IH. reflexivity.
Qed.

Lemma occurrences_strip (a : ascii) (s : string) :
  is_space a = false -> occurrences a (strip s) = occurrences a s.
Proof.
  intros Ha. unfold strip.
  rewrite occurrences_rstrip, occurrences_lstrip; auto.
Qed.

Lemma replace_loop_absent (old new : string) (n : nat) :
  forall s, contains old s = false -> replace_loop n old new s = s.
Proof.
  induction n as [|n IH]; intros s H; simpl; [reflexivity|].
  destruct s as [|a s]; simpl in H.
  - destruct (strip_prefix old EmptyString); [discriminate | reflexivity].
  - destruct (strip_prefix old (String a s)); [discriminate|].
    rewrite IH by assumption. reflexivity.
Qed.

(** ** Zero matches *)

Lemma re_sub_zero (r : re) (repl : rmatch -> string) (s : string) :
  finditer r s = [] -> re_sub r repl s = s.
Proof. intros H. apply re_sub_no_match, finditer_no_match, H. Qed.

Lemma fix_routes_zero (content : string) (rs : list (string * string)) :
  (forall route, In route rs ->
     finditer (AddExpertModeInit.route_regex (fst route)) content = []) ->
  fold_left AddExpertModeInit.fix_route rs content = content.
Proof.
  induction rs as [|[route_pattern operation_name] rs IH]; intros H; simpl.
  - reflexivity.
  - rewrite re_sub_zero.
    + apply IH. intros route Hin. apply H. right. assumption.
    + apply (H (route_pattern, operation_name)). left. reflexivity.
Qed.




Lemma readable_read (n : node) :
  readable n = true -> read_error n = None.
Proof. unfold readable. destruct (read_error n); [discriminate | auto]. Qed.

Lemma writable_write (n : node) :
  writable n = true -> write_error n = None.
Proof. unfold writable. destruct (write_error n); [discriminate | auto]. Qed.



(** A file with Windows line ends has no match either; the run writes it
    back with line feeds. *)
Example crlf_file_is_written_with_line_feeds :
  let w :=
    mkWorld [ (AddExpertModeInit.file_path,
               mkNode ("const x = 1;" ++ cr ++ nl) None None) ]
      [] [] in
  AddExpertModeInit.main w
  = (Ok tt,
     mkWorld [ (AddExpertModeInit.file_path,
                mkNode ("const x = 1;" ++ nl) None None) ]
       []
       ["✓ Added expert mode initialization to routes"]).
Proof. vm_compute. reflexivity. Qed.

(** Line ends count as read: two lone carriage returns make the empty line
    the initialisation pattern asks for. *)
Example carriage_returns_are_read_as_line_feeds :
  let stored :=
    "const startTime = Date.now();" ++ cr ++ cr ++ "logger.info(x);" in
  finditer AddExpertModeInit.init_pattern stored = [] /\
  List.length
    (finditer AddExpertModeInit.init_pattern (universal_newlines stored)) = 1.
Proof. vm_compute. auto. Qed.

(** A directory in the place of the file, and a file that cannot be
    decoded, end the run with the exception of the read. *)
Example unreadable_targets_raise :
  let at_dir := mkWorld [] [AddExpertModeInit.file_path] [] in
  let undecodable :=
    mkWorld [ (AddExpertModeInit.file_path,
               mkNode EmptyString (Some (UnicodeDecodeError "invalid start byte"))
                 None) ]
      [] [] in
  AddExpertModeInit.main at_dir = (Raised IsADirectoryError, at_dir) /\
  AddExpertModeInit.main undecodable
  = (Raised (UnicodeDecodeError "invalid start byte"), undecodable).
Proof. vm_compute. auto. Qed.

(** ** Scripts that only report *)

Lemma keeps_ret {A : Type} (a : A) : keeps_files (ret a).
Proof. intros w. auto. Qed.

Lemma keeps_print (line : string) : keeps_files (print line).
Proof. intros w. auto. Qed.

Lemma keeps_exit {A : Type} (status : nat) :
  keeps_files (@sys_exit A status).
Proof. intros w. auto. Qed.

Lemma keeps_read (path : string) : keeps_files (read_file path).
Proof.
  intros w. unfold read_file.
  destruct (lookup path (files w)) as [n|];
    [destruct (read_error n) | destruct (is_dir path w)]; auto.
Qed.

Lemma keeps_bind {A B : Type} (m : IO A) (f : A -> IO B) :
  keeps_files m -> (forall a, keeps_files (f a)) -> keeps_files (bind m f).
Proof.
  intros Hm Hf w. unfold bind. destruct (Hm w) as [H1 H2].
  destruct (m w) as [[a|e|status] w']; simpl in *; auto.
  destruct (Hf a w') as [H3 H4]. split; congruence.
Qed.

Lemma keeps_try {A : Type} (body : IO A) (catches : exn -> bool)
      (handler : exn -> IO A) :
  keeps_files body -> (forall e, keeps_files (handler e)) ->
  keeps_files (try_except body catches handler).
Proof.
  intros Hb Hh w. unfold try_except. destruct (Hb w) as [H1 H2].
  destruct (body w) as [[a|e|status] w']; simpl in *; auto.
  destruct (catches e); simpl; auto.
  destruct (Hh e w') as [H3 H4]. split; congruence.
Qed.

Lemma keeps_for_each {A : Type} (xs : list A) (body : A -> IO unit) :
  (forall x, keeps_files (body x)) -> keeps_files (for_each xs body).
Proof.
  intros Hb. induction xs as [|x xs IH]; simpl.
  - apply keeps_ret.
  - apply keeps_bind; auto.
Qed.

Lemma keeps_process (ts_file : string) :
  keeps_files (FixLintErrors.process ts_file).
Proof.
  unfold FixLintErrors.process. apply keeps_try.
  - apply keeps_bind; [apply keeps_read|].
    intros text. destruct (negb _); [apply keeps_print | apply keeps_ret].
  - intros e. apply keeps_print.
Qed.

(** C10. Whatever the files are, running the lint-fix script or the
    route-logging script leaves every file and directory as it was: the
    lint-fix script computes the fixed text of each file and only prints its
    name, the route-logging script only lists the routes it finds. *)
Theorem report_only_scripts_keep_files (w : world) :
  files (snd (FixLintErrors.main w)) = files w /\
  dirs (snd (FixLintErrors.main w)) = dirs w /\
  files (snd (AddLoggingToRoutes.main w)) = files w /\
  dirs (snd (AddLoggingToRoutes.main w)) = dirs w.
Proof.
  assert (Hlint : keeps_files FixLintErrors.main).
  { unfold FixLintErrors.main.
    apply keeps_bind; [intros w0; split; reflexivity|].
    intros present. apply keeps_bind.
    { destruct (negb present); [|apply keeps_ret].
      apply keeps_bind; [apply keeps_print | intros _; apply keeps_exit]. }
    intros _. apply keeps_bind; [intros w0; split; reflexivity|].
    intros ts_files.
    repeat (apply keeps_bind; [apply keeps_print | intros _]).
    apply keeps_for_each. intros x. apply keeps_process. }
  assert (Hlog : keeps_files AddLoggingToRoutes.main).
  { unfold AddLoggingToRoutes.main.
    apply keeps_bind.
    { apply keeps_try; [apply keeps_read|].
      intros e. apply keeps_bind; [apply keeps_print | intros _; apply keeps_exit]. }
    intros text. apply keeps_bind.
    { apply keeps_for_each. intros hit. apply keeps_print. }
    intros _.
    repeat (apply keeps_bind; [apply keeps_print | intros _]).
    apply keeps_print. }
  destruct (Hlint w), (Hlog w). auto.
Qed.

(** The lint-fix script does compute a different text for a file it reports
    as fixed, and still leaves it alone. *)
Example lint_fix_reports_without_writing :
  let w := mkWorld [("backend/src/a.ts", mkNode "n = x || 0;" None None)]
             ["backend/src"] [] in
  FixLintErrors.fix_nullish_coalescing "n = x || 0;" = "n = x ?? 0;" /\
  In "Fixed: src/a.ts" (stdout (snd (FixLintErrors.main w))) /\
  files (snd (FixLintErrors.main w)) = files w.
Proof. vm_compute. auto. Qed.

(** ** The metadata of a rewritten [handleExpertModeResponse] call *)

(** C9. For every match of the call pattern, the replacement contains an
    [expertModeService.addMetadata] call exactly when the captured metadata,
    stripped, is not empty and splits on the colon into exactly two parts;
    when the captured metadata has no colon or more than one, the
    replacement is the fixed text without any metadata. *)
Theorem metadata_only_for_one_colon (m : rmatch) :
  let metadata := strip (grp 3 m) in
  (contains "expertModeService.addMetadata" (TransformExpertMode.replacement m)
   = true
   <-> metadata <> EmptyString /\ List.length (split ":" metadata) = 2) /\
  (occurrences ":" (grp 3 m) <> 1 ->
   TransformExpertMode.replacement m
   = TransformExpertMode.result_head ++ TransformExpertMode.result_tail).
Proof.
  intros metadata.
  assert (Hplain :
    contains "expertModeService.addMetadata"
      (TransformExpertMode.result_head ++ TransformExpertMode.result_tail)
    = false) by (vm_compute; reflexivity).
  assert (Hlen : List.length (split ":" metadata)
                 = S (occurrences ":" (grp 3 m))).
  { unfold metadata. rewrite split_length, occurrences_strip; reflexivity. }
  unfold TransformExpertMode.replacement. fold metadata.
  destruct metadata as [|x metadata'] eqn:Hm.
  - split.
    + rewrite Hplain. split; [discriminate | intros [H _]; congruence].
    + reflexivity.
  - destruct (split ":" (String x metadata')) as [|p0 [|p1 [|p2 ps]]] eqn:Hs.
    + split; [|reflexivity].
      rewrite Hplain. split; [discriminate | intros [_ H]; discriminate].
    + split; [|reflexivity].
      rewrite Hplain. split; [discriminate | intros [_ H]; discriminate].
    + split.
      * split; [intros _; split; [discriminate | reflexivity]|].
        intros _. apply contains_append_l, contains_append_r.
        unfold TransformExpertMode.add_metadata.
        apply contains_append_l. vm_compute. reflexivity.
      * simpl in Hlen. intros H. exfalso. apply H. lia.
    + split; [|reflexivity].
      rewrite Hplain. split; [discriminate | intros [_ H]; discriminate].
Qed.

Lemma metadata_only_for_one_colon_witness :
  let m := mkMatch "handleExpertModeResponse(..., { url: 'http://x' });"
             [(3, " url: 'http://x' "); (2, "puppetserver"); (1, "op")]
             None EmptyString in
  TransformExpertMode.replacement m
  = TransformExpertMode.result_head ++ TransformExpertMode.result_tail.
Proof.
  intros m. apply (metadata_only_for_one_colon m). vm_compute. discriminate.
Defined.

(** A URL value has a second colon, so its metadata is dropped. *)
Example url_metadata_is_dropped :
  TransformExpertMode.transform_handle_expert_mode_response
    "handleExpertModeResponse(req, res, responseData, 'op', duration, 'puppetserver', { url: 'http://x' });"
  = TransformExpertMode.result_head ++ TransformExpertMode.result_tail.
Proof. vm_compute. reflexivity. Qed.

(** ** The canonical error response *)

Lemma groupless_keeps_caps (r : re) prev w rest c c' :
  matches r prev w rest c c' -> groupless r = true -> c' = c.
Proof.
  induction 1; simpl; intros G;
    try (apply andb_prop in G; destruct G as [G1 G2]);
    try reflexivity; try discriminate; auto.
  - rewrite IHmatches2, IHmatches1; auto.
  - rewrite IHmatches2, IHmatches1; auto.
  - rewrite IHmatches2, IHmatches1; auto.
Qed.

Lemma flat_hit_wrapped (p : piece) :
  hit_of AddErrorDebugInfo.error_pattern p -> wrapped_flat p.
Proof.
  destruct p as [u|m]; simpl; [trivial|].
  intros [prev M]. destruct m as [w c p rest]. simpl in *.
  unfold AddErrorDebugInfo.error_pattern in M. cbn [sequence] in M.
  invert_matches. subst.
  eexists _, _, _, _. repeat split; try eassumption.
  unfold AddErrorDebugInfo.error_replacement, canonical_response, grp.
  simpl. rewrite !append_assoc. reflexivity.
Qed.

Lemma nested_hit_wrapped (p : piece) :
  hit_of FixAllErrorResponses.error_pattern p -> wrapped_nested p.
Proof.
  destruct p as [u|m]; simpl; [trivial|].
  intros [prev M]. destruct m as [w c p rest]. simpl in *.
  unfold FixAllErrorResponses.error_pattern in M. cbn [sequence] in M.
  invert_matches.
  match goal with
  | H : matches FixAllErrorResponses.error_body _ _ _ _ _ |- _ =>
      apply groupless_keeps_caps in H; [|reflexivity]
  end.
  subst.
  eexists _, _, _, _, _. repeat split; try eassumption.
  unfold FixAllErrorResponses.error_replacement, canonical_response,
    normalized, grp.
  simpl. rewrite !append_assoc. reflexivity.
Qed.

(** *** Texts in which a pattern finds nothing *)

Lemma matches_context (r : re) prev w rest c c' :
  matches r prev w rest c c' ->
  boundary_free r = true ->
  forall prev' rest', matches r prev' w rest' c c'.
Proof.
  induction 1; simpl; intros B prev' rest';
    try (apply andb_prop in B; destruct B as [B1 B2]);
    try discriminate; try (econstructor; eauto; fail).
Qed.

Lemma match_here_none (r : re) (prev : option ascii) (x : string) :
  boundary_free r = true ->
  (match_here r prev x = None <-> ~ starts_match r x).
Proof.
  intros B. split.
  - intros H (w & t & c' & -> & M).
    destruct (match_here_complete r prev w t c') as [m Hm]; [|congruence].
    eapply matches_context; eassumption.
  - intros H. destruct (match_here r prev x) as [m|] eqn:E; [|reflexivity].
    exfalso. apply H. apply match_here_sound in E.
    destruct E as (Hx & M & _).
    exists (m_text m), (m_rest m), (m_caps m). split; [assumption|].
    eapply matches_context; eassumption.
Qed.

Lemma search_prev (r : re) (x : string) :
  boundary_free r = true ->
  forall prev prev', search r prev x = None -> search r prev' x = None.
Proof.
  intros B. induction x as [|c x IH]; intros prev prev' H; simpl in *.
  - destruct (match_here r prev EmptyString) eqn:E; [discriminate|].
    apply (match_here_none r prev _ B) in E.
    apply (match_here_none r prev' _ B) in E. rewrite E. reflexivity.
  - destruct (match_here r prev (String c x)) eqn:E; [discriminate|].
    apply (match_here_none r prev _ B) in E.
    apply (match_here_none r prev' _ B) in E. rewrite E.
    destruct (search r (Some c) x) as [[sk m]|]; [discriminate | reflexivity].
Qed.

Lemma quiet_of_search (r : re) (prev : option ascii) (x : string) :
  boundary_free r = true -> search r prev x = None -> quiet r x.
Proof. intros B H prev'. eapply search_prev; eassumption. Qed.

Lemma quiet_cons (r : re) (c : ascii) (x : string) :
  boundary_free r = true ->
  ~ starts_match r (String c x) -> quiet r x -> quiet r (String c x).
Proof.
  intros B H Q prev. simpl.
  rewrite (proj2 (match_here_none r prev _ B) H), (Q (Some c)). reflexivity.
Qed.

(** Going through [x] when no match starts inside it. *)
Lemma quiet_app (r : re) (x z : string) :
  boundary_free r = true ->
  (forall a b, x = a ++ b -> b <> EmptyString -> ~ starts_match r (b ++ z)) ->
  quiet r z -> quiet r (x ++ z).
Proof.
  intros B. induction x as [|c x IH]; intros H Q; simpl; [assumption|].
  apply quiet_cons; [assumption | |].
  - apply (H EmptyString (String c x)); [reflexivity | discriminate].
  - apply IH; [|assumption].
    intros a b -> Hb. apply (H (String c a) b); [reflexivity | assumption].
Qed.

(** [re.search] returns the leftmost match: none starts in the text it
    skips. *)
Lemma search_leftmost (r : re) (x : string) :
  boundary_free r = true ->
  forall prev skipped m,
    search r prev x = Some (skipped, m) ->
    forall a b,
      skipped = a ++ b -> b <> EmptyString ->
      ~ starts_match r (b ++ m_text m ++ m_rest m).
Proof.
  intros B. induction x as [|c x IH]; intros prev skipped m H a b E Hb;
    simpl in H.
  - destruct (match_here r prev EmptyString); [|discriminate].
    injection H as <- <-. destruct a, b; simpl in E; congruence.
  - destruct (match_here r prev (String c x)) as [m'|] eqn:Hm.
    + injection H as <- <-. destruct a, b; simpl in E; congruence.
    + destruct (search r (Some c) x) as [[sk m']|] eqn:Hs; [|discriminate].
      injection H as <- <-.
      destruct a as [|c' a]; simpl in E.
      * subst b. apply (match_here_none r prev _ B) in Hm.
        apply search_sound in Hs. destruct Hs as (-> & _ & _). exact Hm.
      * injection E as _ ->. eapply IH; eauto.
Qed.

(** Two ways to cut one text. *)
Lemma append_eq_append (a b c d : string) :
  a ++ b = c ++ d ->
  (exists e, c = a ++ e /\ b = e ++ d) \/
  (exists e, e <> EmptyString /\ a = c ++ e /\ d = e ++ b).
Proof.
  revert c. induction a as [|x a IH]; intros c H; simpl in H.
  - left. exists c. auto.
  - destruct c as [|y c]; simpl in H.
    + right. exists (String x a). repeat split; [discriminate | auto].
    + injection H as -> H. destruct (IH _ H) as [(e & -> & ->)|(e & He & -> & ->)].
      * left. exists e. auto.
      * right. exists e. auto.
Qed.

Lemma compatible_prefix (p b y t : string) :
  b ++ y = p ++ t -> compatible p b = true.
Proof.
  revert b. induction p as [|a p IH]; intros [|c b] H; simpl in *; auto.
  injection H as -> H. rewrite Ascii.eqb_refl. simpl. eauto.
Qed.

Lemma quiet_literal (r : re) (lead l z : string) :
  boundary_free r = true ->
  (forall y, starts_match r y -> exists t, y = lead ++ t) ->
  clash lead l = true -> quiet r z -> quiet r (l ++ z).
Proof.
  intros B Hlead. induction l as [|c l IH]; simpl; intros C Q; [assumption|].
  apply andb_prop in C. destruct C as [C1 C2].
  apply quiet_cons; [assumption | | auto].
  intros S. destruct (Hlead _ S) as [t E].
  change (String c (l ++ z)) with (String c l ++ z) in E.
  apply compatible_prefix in E. simpl in C1. rewrite E in C1. discriminate.
Qed.

Lemma quiet_run (r : re) (p : ascii -> bool) (lead0 : ascii) (x z : string) :
  boundary_free r = true ->
  (forall c y, starts_match r (String c y) -> c = lead0) ->
  p lead0 = false ->
  all_chars p x = true -> quiet r z -> quiet r (x ++ z).
Proof.
  intros B Hlead Hp. induction x as [|c x IH]; simpl; intros A Q; [assumption|].
  apply andb_prop in A. destruct A as [A1 A2].
  apply quiet_cons; [assumption | | auto].
  intros S. apply Hlead in S. congruence.
Qed.

(** *** Classes of characters *)

Ltac by_char :=
  let a := fresh "a" in
  intros a; destruct a as [[] [] [] [] [] [] [] []]; vm_compute;
  solve [auto | discriminate].

Lemma digit_isnt_brace : forall a, is_digit a = true -> isnt "}" a = true.
Proof. by_char. Qed.

Lemma space_isnt_brace : forall a, is_space a = true -> isnt "}" a = true.
Proof. by_char. Qed.

Lemma digit_isnt_r : forall a, is_digit a = true -> isnt "r" a = true.
Proof. by_char. Qed.

Lemma all_chars_impl (p q : ascii -> bool) (w : string) :
  (forall a, p a = true -> q a = true) ->
  all_chars p w = true -> all_chars q w = true.
Proof.
  intros H. induction w as [|a w IH]; simpl; [auto|].
  intros A. apply andb_prop in A. destruct A as [A1 A2].
  rewrite (H _ A1), IH; auto.
Qed.

Lemma all_chars_suffix (p : ascii -> bool) (a b : string) :
  all_chars p (a ++ b) = true -> all_chars p b = true.
Proof.
  rewrite all_chars_append. intros H. apply andb_prop in H. tauto.
Qed.

(** *** [add_debug_to_error_responses] leaves no response it recognizes *)

Section FlatPass.

Import AddErrorDebugInfo.

Lemma flat_boundary_free : boundary_free error_pattern = true.
Proof. reflexivity. Qed.

Lemma flat_head_no_brace (status_code ws1 body : string) :
  all_chars is_digit status_code = true ->
  all_chars is_space ws1 = true ->
  all_chars (isnt "}") body = true ->
  all_chars (isnt "}") (flat_head status_code ws1 body) = true.
Proof.
  intros D S N. unfold flat_head.
  rewrite !all_chars_append.
  rewrite (all_chars_impl _ _ _ digit_isnt_brace D).
  rewrite (all_chars_impl _ _ _ space_isnt_brace S), N.
  reflexivity.
Qed.

Lemma flat_starts (y : string) :
  starts_match error_pattern y ->
  exists status_code ws1 body ws2 t,
    status_code <> EmptyString /\ all_chars is_digit status_code = true /\
    all_chars is_space ws1 = true /\
    body <> EmptyString /\ all_chars (isnt "}") body = true /\
    all_chars is_space ws2 = true /\
    y = flat_head status_code ws1 body ++ "}" ++ ws2 ++ "});" ++ t.
Proof.
  intros (w & t & c' & -> & M).
  unfold error_pattern in M. cbn [sequence] in M. invert_matches. subst.
  match goal with
  | |- context [ "res.status(" ++ ?n ++ ").json({" ++ ?a ++ "error: {" ++ ?b
                 ++ "}" ++ ?c ++ "});" ] => exists n, a, b, c, t
  end.
  repeat split; try assumption.
  unfold flat_head. rewrite ?append_assoc. simpl. rewrite ?append_assoc.
  reflexivity.
Qed.

Lemma flat_starts_intro (status_code ws1 body ws2 t : string) :
  status_code <> EmptyString -> all_chars is_digit status_code = true ->
  all_chars is_space ws1 = true ->
  body <> EmptyString -> all_chars (isnt "}") body = true ->
  all_chars is_space ws2 = true ->
  starts_match error_pattern
    (flat_head status_code ws1 body ++ "}" ++ ws2 ++ "});" ++ t).
Proof.
  intros N1 D S1 N2 B S2.
  exists ("res.status(" ++ status_code ++ ").json({" ++ ws1 ++ "error: {"
          ++ body ++ "}" ++ ws2 ++ "});"), t,
         [(2, body); (1, status_code)].
  split.
  - unfold flat_head. rewrite ?append_assoc. simpl. rewrite ?append_assoc.
    reflexivity.
  - unfold error_pattern. cbn [sequence].
    repeat first
      [ apply matches_lit
      | apply M_Grp
      | apply matches_plus_cls; assumption
      | apply matches_star_cls; assumption
      | eapply M_Cat ].
Qed.

Lemma flat_lead (y : string) :
  starts_match error_pattern y -> exists t, y = "res.status(" ++ t.
Proof.
  intros S. apply flat_starts in S.
  destruct S as (N & ws1 & body & ws2 & t & _ & _ & _ & _ & _ & _ & ->).
  unfold flat_head. rewrite !append_assoc. simpl. eauto.
Qed.

Lemma flat_lead_char (c : ascii) (y : string) :
  starts_match error_pattern (String c y) -> c = "r"%char.
Proof.
  intros S. apply flat_lead in S. destruct S as [t E]. simpl in E. congruence.
Qed.

Lemma split_at_first (c : ascii) (b : string) :
  all_chars (isnt c) b = false ->
  exists b1 b2, b = b1 ++ String c b2 /\ all_chars (isnt c) b1 = true.
Proof.
  induction b as [|a b IH]; simpl; [discriminate|].
  destruct (isnt c a) eqn:E; simpl.
  - intros H. destruct (IH H) as (b1 & b2 & -> & Hb1).
    exists (String a b1), b2. simpl. rewrite E, Hb1. auto.
  - intros _. exists EmptyString, b. split; [|reflexivity].
    unfold isnt in E. apply negb_false_iff, Ascii.eqb_eq in E. subst a.
    reflexivity.
Qed.

(** No match runs into the closing of a rewritten response object: after
    the object's brace comes a semicolon, not a parenthesis. *)
Lemma flat_not_into_object (x ws z : string) :
  all_chars (isnt "}") x = true -> all_chars is_space ws = true ->
  ~ starts_match error_pattern (x ++ "}" ++ ws ++ "};" ++ z).
Proof.
  intros Nx Sws S. apply flat_starts in S.
  destruct S as (N & ws1 & body & ws2 & t & _ & D & S1 & _ & B & S2 & E).
  simpl in E.
  destruct (run_unique (isnt "}") _ _ "}" "}" _ _ Nx
              (flat_head_no_brace _ _ _ D S1 B) eq_refl eq_refl E)
    as [_ E'].
  injection E' as E'.
  destruct (run_unique is_space _ _ "}" "}" _ _ Sws S2 eq_refl eq_refl E')
    as [_ E''].
  discriminate.
Qed.

(** The rewritten send statement is no match: its argument does not open
    with a brace. *)
Lemma flat_not_at_send (status_code z : string) :
  all_chars is_digit status_code = true ->
  ~ starts_match error_pattern
      ("res.status(" ++ status_code ++ ").json(" ++ nl ++ z).
Proof.
  intros D S. apply flat_starts in S.
  destruct S as (N & ws1 & body & ws2 & t & _ & D' & _ & _ & _ & _ & E).
  unfold flat_head in E. rewrite ?append_assoc in E. simpl in E.
  repeat match type of E with
         | String _ _ = String _ _ => injection E as E
         end.
  destruct (run_unique is_digit _ _ ")" ")" _ _ D D' eq_refl eq_refl E)
    as [_ E'].
  discriminate.
Qed.

Lemma flat_replacement_cut (status_code body rest : string) :
  canonical_response status_code ("{" ++ body ++ "}") ++ rest
  = (object_open ++ body) ++ "}" ++ "
        " ++ "};" ++ "
        " ++ "res.status(" ++ status_code ++ send_tail ++ rest.
Proof.
  unfold canonical_response, object_open, send_tail.
  rewrite ?append_assoc. simpl. rewrite ?append_assoc. simpl.
  rewrite ?append_assoc. reflexivity.
Qed.

(** A match cannot start in the text before a rewritten response and run
    into it, when none started there before the rewriting. *)
Lemma flat_not_before (b old body z : string) :
  ~ starts_match error_pattern (b ++ old) ->
  all_chars (isnt "}") body = true ->
  ~ starts_match error_pattern
      (b ++ (object_open ++ body) ++ "}" ++ "
        " ++ "};" ++ z).
Proof.
  intros Hold NB S.
  destruct (all_chars (isnt "}") b) eqn:Hb.
  - rewrite <- append_assoc in S. revert S. apply flat_not_into_object.
    + rewrite !all_chars_append, Hb, NB. reflexivity.
    + reflexivity.
  - destruct (split_at_first _ _ Hb) as (b1 & b2 & -> & Hb1).
    remember ((object_open ++ body) ++ "}" ++ "
        " ++ "};" ++ z) as Z eqn:HZ.
    apply flat_starts in S.
    destruct S as (N & ws1 & body' & ws2 & t & N1 & D & S1 & N2 & B & S2 & E).
    rewrite append_assoc in E. simpl in E.
    destruct (run_unique (isnt "}") _ _ "}" "}" _ _ Hb1
                (flat_head_no_brace _ _ _ D S1 B) eq_refl eq_refl E)
      as [Ehead E'].
    injection E' as E'.
    change (ws2 ++ String "}" (String ")" (String ";" t)))
      with (ws2 ++ "});" ++ t) in E'.
    rewrite <- append_assoc in E'.
    assert (Hin : forall e, b2 = (ws2 ++ "});") ++ e -> False).
    { intros e ->. apply Hold. rewrite Ehead.
      replace ((flat_head N ws1 body' ++ String "}" ((ws2 ++ "});") ++ e))
               ++ old)
        with (flat_head N ws1 body' ++ "}" ++ ws2 ++ "});" ++ (e ++ old))
        by (rewrite !append_assoc; simpl; rewrite ?append_assoc; reflexivity).
      apply flat_starts_intro; assumption. }
    destruct (append_eq_append _ _ _ _ E') as [(e & Eu & EZ)|(e & He & Eb & _)].
    + destruct e as [|c e].
      * rewrite append_nil_r in Eu. apply (Hin EmptyString).
        rewrite append_nil_r. congruence.
      * rewrite HZ in EZ. simpl in EZ. injection EZ as <- _.
        assert (Hq : all_chars (fun a => is_space a || negb (isnt "}" a)
                                         || negb (isnt ")" a)
                                         || negb (isnt ";" a))%bool
                       (ws2 ++ "});") = true).
        { rewrite all_chars_append.
          rewrite (all_chars_impl is_space _ ws2); [reflexivity | | assumption].
          intros a ->. reflexivity. }
        rewrite Eu in Hq. apply all_chars_suffix in Hq. discriminate.
    + exact (Hin e Eb).
Qed.

Lemma flat_replacement_quiet (skipped old status_code body rest : string) :
  all_chars is_digit status_code = true ->
  all_chars (isnt "}") body = true ->
  (forall a b, skipped = a ++ b -> b <> EmptyString ->
               ~ starts_match error_pattern (b ++ old)) ->
  quiet error_pattern rest ->
  quiet error_pattern
    (skipped ++ canonical_response status_code ("{" ++ body ++ "}") ++ rest).
Proof.
  intros D NB Hleft Q. rewrite flat_replacement_cut.
  apply quiet_app; [reflexivity | |].
  { intros a b E Hb. apply flat_not_before with (old := old); eauto. }
  apply quiet_app; [reflexivity | |].
  { intros a b E Hb. apply flat_not_into_object; [|reflexivity].
    apply (all_chars_suffix _ a). rewrite <- E, all_chars_append, NB.
    reflexivity. }
  change (quiet error_pattern
            ("}
        };
        " ++ String "r" ("es.status(" ++ status_code ++ send_tail ++ rest))).
  apply (quiet_literal _ "res.status("); [reflexivity | apply flat_lead
                                         | reflexivity |].
  apply quiet_cons; [reflexivity | |].
  { apply flat_not_at_send. assumption. }
  apply (quiet_literal _ "res.status("); [reflexivity | apply flat_lead
                                         | reflexivity |].
  apply (quiet_run _ is_digit "r"); [reflexivity | apply flat_lead_char
                                    | reflexivity | assumption |].
  apply (quiet_literal _ "res.status("); [reflexivity | apply flat_lead
                                         | reflexivity | assumption].
Qed.

Lemma flat_sub_quiet (n : nat) :
  forall prev s,
    String.length s < n ->
    quiet error_pattern (sub_loop n error_pattern error_replacement prev s).
Proof.
  induction n as [|n IH]; intros prev s Hn; [lia|].
  cbn [sub_loop].
  destruct (search error_pattern prev s) as [[skipped m]|] eqn:E.
  - pose proof (search_leftmost _ _ flat_boundary_free _ _ _ E) as Hleft.
    apply search_sound in E. destruct E as (Hs & M & _).
    assert (W : wrapped_flat (Hit m))
      by (apply flat_hit_wrapped; simpl; eauto).
    destruct W as (N & ws1 & body & ws2 & _ & D & _ & _ & NB & _ & Ht & Hr).
    rewrite Hr, Ht. cbn [append].
    apply flat_replacement_quiet with (old := m_text m ++ m_rest m);
      try assumption.
    apply IH. rewrite Hs, Ht, !length_append in Hn. simpl in Hn. lia.
  - eapply quiet_of_search; [reflexivity | eassumption].
Qed.

End FlatPass.

(** *** Pairs of closing braces *)

Lemma scan_app (st : bool) (a b : string) :
  scan st (a ++ b)
  = match scan st a with None => None | Some st' => scan st' b end.
Proof.
  revert st. induction a as [|c a IH]; intros st; simpl; [reflexivity|].
  destruct (Ascii.eqb c "}"); [destruct st; auto|].
  destruct (is_space c); auto.
Qed.

Lemma scan_spaces (st : bool) (ws : string) :
  all_chars is_space ws = true -> scan st ws = Some st.
Proof.
  induction ws as [|c ws IH]; simpl; [reflexivity|].
  intros H. apply andb_prop in H. destruct H as [Hc Hws].
  destruct (Ascii.eqb c "}") eqn:E.
  - apply Ascii.eqb_eq in E. subst c. discriminate.
  - rewrite Hc. auto.
Qed.

Lemma scan_no_brace (st : bool) (g : string) :
  all_chars (isnt "}") g = true ->
  exists st', scan st g = Some st' /\ (st = false -> st' = false).
Proof.
  revert st. induction g as [|c g IH]; simpl; intros st H; [eauto|].
  apply andb_prop in H. destruct H as [Hc Hg].
  unfold isnt in Hc. apply negb_true_iff in Hc. rewrite Hc.
  destruct (is_space c); [apply IH; assumption|].
  destruct (IH false Hg) as (st' & -> & Hst'). eauto.
Qed.

Lemma scan_pair (st : bool) (a ws c : string) :
  all_chars is_space ws = true ->
  scan st (a ++ "}" ++ ws ++ "}" ++ c) = None.
Proof.
  intros Hws. rewrite scan_app. destruct (scan st a) as [st'|]; [|reflexivity].
  simpl. destruct st'; [reflexivity|].
  rewrite scan_app, (scan_spaces _ _ Hws). reflexivity.
Qed.

(** The place where the first pair is completed is determined by the
    text. *)
Lemma scan_cut_unique (p1 : string) :
  forall st p2 q1 q2,
    scan st p1 = Some true -> scan st p2 = Some true ->
    p1 ++ String "}" q1 = p2 ++ String "}" q2 ->
    p1 = p2 /\ q1 = q2.
Proof.
  induction p1 as [|c p1 IH]; intros st [|c' p2] q1 q2 H1 H2 E; simpl in *.
  - injection E as ->. auto.
  - injection E as <- _. injection H1 as ->. discriminate.
  - injection E as -> _. injection H2 as ->. discriminate.
  - injection E as -> E.
    destruct (Ascii.eqb c' "}").
    + destruct st; [discriminate|].
      destruct (IH _ _ _ _ H1 H2 E) as [-> ->]. auto.
    + destruct (is_space c');
        destruct (IH _ _ _ _ H1 H2 E) as [-> ->]; auto.
Qed.

Lemma space_not_brace (a : ascii) :
  is_space a = true -> Ascii.eqb a "}" = false.
Proof.
  intros H. apply space_isnt_brace in H. unfold isnt in H.
  apply negb_true_iff in H. exact H.
Qed.

Lemma scan_space (st : bool) (a : ascii) (s : string) :
  is_space a = true -> scan st (String a s) = scan st s.
Proof. intros H. simpl. rewrite (space_not_brace _ H), H. reflexivity. Qed.

Lemma scan_cons (st : bool) (a : ascii) (s : string) :
  scan st (String a s)
  = if Ascii.eqb a "}" then (if st then None else scan true s)
    else if is_space a then scan st s else scan false s.
Proof. reflexivity. Qed.

Lemma scan_lstrip (s : string) : scan false (lstrip s) = scan false s.
Proof.
  induction s as [|a s IH]; [reflexivity|].
  cbn [lstrip]. destruct (is_space a) eqn:E; [|reflexivity].
  rewrite (scan_space _ _ _ E). exact IH.
Qed.

Lemma scan_rstrip (s : string) : forall st, scan st (rstrip s) = scan st s.
Proof.
  induction s as [|a s IH]; intros st; [reflexivity|].
  cbn [rstrip]. destruct (rstrip s) as [|b t] eqn:E.
  - destruct (is_space a) eqn:Ha.
    + rewrite (scan_space _ _ _ Ha), <- IH. reflexivity.
    + simpl. rewrite Ha. destruct (Ascii.eqb a "}").
      * destruct st; [reflexivity|]. rewrite <- IH. reflexivity.
      * rewrite <- IH. reflexivity.
  - rewrite !(scan_cons st a).
    destruct (Ascii.eqb a "}"); [destruct st; auto|].
    destruct (is_space a); auto.
Qed.

Lemma scan_strip (s : string) : scan false (strip s) = scan false s.
Proof. unfold strip. rewrite scan_rstrip. apply scan_lstrip. Qed.

Lemma scan_squeeze (s : string) (st : bool) :
  scan st (re_sub (plus space) (fun _ => " ") s) = scan st s.
Proof.
  destruct (re_sub_pieces (plus space) (fun _ => " ") s)
    as (ps & <- & <- & _ & Hall).
  revert st. induction Hall as [|p ps Hp Hps IH]; intros st; [reflexivity|].
  destruct p as [u|m]; simpl.
  - rewrite !scan_app. destruct (scan st u); auto.
  - destruct Hp as [prev M]. apply matches_plus_cls_inv in M.
    destruct M as (_ & Hsp & _).
    rewrite scan_app, (scan_spaces _ _ Hsp). apply IH.
Qed.

Lemma scan_replace_loop (n : nat) :
  forall st s, scan st (replace_loop n " ," "," s) = scan st s.
Proof.
  induction n as [|n IH]; intros st s; [reflexivity|].
  cbn [replace_loop]. destruct (strip_prefix " ," s) as [rest|] eqn:E.
  - apply strip_prefix_some in E. subst s. simpl. apply IH.
  - destruct s as [|a s]; [reflexivity|]. simpl.
    destruct (Ascii.eqb a "}"); [destruct st; auto|].
    destruct (is_space a); auto.
Qed.

Lemma scan_normalized (body : string) :
  scan false (normalized body) = scan false body.
Proof.
  unfold normalized, replace.
  rewrite scan_replace_loop, scan_squeeze. apply scan_strip.
Qed.

(** *** [fix_error_responses] leaves no response it recognizes *)

Lemma matches_recaps (r : re) prev w rest c c' :
  matches r prev w rest c c' -> groupless r = true ->
  forall c0, matches r prev w rest c0 c0.
Proof.
  induction 1; simpl; intros G c0;
    try (apply andb_prop in G; destruct G as [G1 G2]);
    try discriminate; try (econstructor; eauto; fail).
Qed.

Section NestedPass.

Import FixAllErrorResponses.

Lemma nested_boundary_free : boundary_free error_pattern = true.
Proof. reflexivity. Qed.

Lemma scan_false_no_brace (g : string) :
  all_chars (isnt "}") g = true -> scan false g = Some false.
Proof.
  intros H. destruct (scan_no_brace false g H) as (st' & E & Hst').
  rewrite E, Hst'; reflexivity.
Qed.

Lemma scan_items prev w rest c c' :
  matches (Star body_item) prev w rest c c' ->
  forall st, exists st', scan st w = Some st'.
Proof.
  intros M. remember (Star body_item) as r eqn:Hr.
  induction M; try discriminate; injection Hr as ->; intros st.
  - simpl. eauto.
  - clear IHM1. specialize (IHM2 eq_refl).
    unfold body_item in M1. cbn [sequence] in M1. invert_matches. subst.
    rewrite scan_app. simpl. rewrite scan_app.
    match goal with
    | H : all_chars (isnt "}") ?g = true |- context [scan false ?g] =>
        rewrite (scan_false_no_brace g H)
    end.
    simpl.
    match goal with
    | H : all_chars (isnt "}") ?g = true |- context [scan true ?g] =>
        destruct (scan_no_brace true g H) as (st2 & -> & _)
    end.
    apply IHM2.
Qed.

(** An error body the pattern accepts has no two closing braces with only
    whitespace between them. *)
Lemma scan_error_body prev w rest c c' :
  matches error_body prev w rest c c' ->
  exists st, scan false w = Some st.
Proof.
  intros M. unfold error_body in M. apply matches_cat_inv in M.
  destruct M as (w1 & w2 & c1 & -> & M1 & M2).
  apply matches_plus_cls_inv in M1. destruct M1 as (_ & H1 & _).
  rewrite scan_app, (scan_false_no_brace _ H1).
  eapply scan_items. exact M2.
Qed.

Lemma nested_head_no_brace (status_code ws1 ws2 : string) :
  all_chars is_digit status_code = true ->
  all_chars is_space ws1 = true ->
  all_chars is_space ws2 = true ->
  all_chars (isnt "}") (nested_head status_code ws1 ws2) = true.
Proof.
  intros D S1 S2. unfold nested_head.
  rewrite !all_chars_append.
  rewrite (all_chars_impl _ _ _ digit_isnt_brace D).
  rewrite (all_chars_impl _ _ _ space_isnt_brace S1).
  rewrite (all_chars_impl _ _ _ space_isnt_brace S2).
  reflexivity.
Qed.

Lemma nested_inv prev w rest c' :
  matches error_pattern prev w rest [] c' ->
  exists status_code ws1 ws2 body ws3,
    status_code <> EmptyString /\ all_chars is_digit status_code = true /\
    all_chars is_space ws1 = true /\ all_chars is_space ws2 = true /\
    all_chars is_space ws3 = true /\
    (exists p f, matches error_body p body f [] []) /\
    w = nested_head status_code ws1 ws2 ++ body ++ "}" ++ ws3 ++ "});" /\
    c' = [(2, body); (1, status_code)].
Proof.
  intros M. unfold error_pattern in M. cbn [sequence] in M. invert_matches.
  match goal with
  | H : matches error_body _ _ _ _ _ |- _ =>
      pose proof (groupless_keeps_caps _ _ _ _ _ _ H eq_refl) as Hc;
      pose proof (matches_recaps _ _ _ _ _ _ H eq_refl []) as Hb
  end.
  subst.
  match goal with
  | |- context [ (2, ?b) :: (1, ?n) :: _ ] =>
      match goal with
      | H1 : all_chars is_space ?a = true,
        H2 : all_chars is_space ?a' = true,
        H3 : all_chars is_space ?a'' = true
        |- context [ "res.status(" ++ n ++ ").json({" ++ ?a ++ "error:"
                     ++ ?a' ++ "{" ++ b ++ "}" ++ ?a'' ++ "});" ] =>
          exists n, a, a', b, a''
      end
  end.
  split; [assumption|]. split; [assumption|]. split; [assumption|].
  split; [assumption|]. split; [assumption|].
  split; [eauto|]. split; [|reflexivity].
  unfold nested_head. rewrite ?append_assoc. simpl. rewrite ?append_assoc.
  reflexivity.
Qed.

Lemma nested_starts (y : string) :
  starts_match error_pattern y ->
  exists status_code ws1 ws2 body ws3 t,
    status_code <> EmptyString /\ all_chars is_digit status_code = true /\
    all_chars is_space ws1 = true /\ all_chars is_space ws2 = true /\
    all_chars is_space ws3 = true /\
    (exists p f, matches error_body p body f [] []) /\
    y = nested_head status_code ws1 ws2 ++ body ++ "}" ++ ws3 ++ "});" ++ t.
Proof.
  intros (w & t & c' & -> & M). apply nested_inv in M.
  destruct M as (N & ws1 & ws2 & body & ws3 & H1 & H2 & H3 & H4 & H5 & H6
                 & -> & _).
  exists N, ws1, ws2, body, ws3, t.
  repeat (split; [assumption|]).
  rewrite ?append_assoc. simpl. rewrite ?append_assoc. reflexivity.
Qed.

Lemma nested_starts_intro (status_code ws1 ws2 body ws3 t : string) :
  status_code <> EmptyString -> all_chars is_digit status_code = true ->
  all_chars is_space ws1 = true -> all_chars is_space ws2 = true ->
  all_chars is_space ws3 = true ->
  (exists p f, matches error_body p body f [] []) ->
  starts_match error_pattern
    (nested_head status_code ws1 ws2 ++ body ++ "}" ++ ws3 ++ "});" ++ t).
Proof.
  intros N1 D S1 S2 S3 (p & f & Mb).
  exists ("res.status(" ++ status_code ++ ").json({" ++ ws1 ++ "error:"
          ++ ws2 ++ "{" ++ body ++ "}" ++ ws3 ++ "});"), t,
         [(2, body); (1, status_code)].
  split.
  - unfold nested_head. rewrite ?append_assoc. simpl. rewrite ?append_assoc.
    reflexivity.
  - unfold error_pattern. cbn [sequence].
    repeat first
      [ apply matches_lit
      | apply M_Grp
      | apply matches_plus_cls; assumption
      | apply matches_star_cls; assumption
      | eapply matches_context;
        [eapply matches_recaps; [exact Mb | reflexivity] | reflexivity]
      | eapply M_Cat ].
Qed.

Lemma nested_cut (y : string) :
  starts_match error_pattern y ->
  exists pre post t,
    y = pre ++ String "}" (post ++ t) /\
    scan false pre = Some true /\
    after_pair post /\
    response_text (pre ++ String "}" post).
Proof.
  intros S. apply nested_starts in S.
  destruct S as (N & ws1 & ws2 & body & ws3 & t & N1 & D & S1 & S2 & S3 & Mb
                 & ->).
  assert (R : response_text
                (nested_head N ws1 ws2 ++ body ++ "}" ++ ws3 ++ "});")).
  { split.
    - intros t'.
      replace ((nested_head N ws1 ws2 ++ body ++ "}" ++ ws3 ++ "});") ++ t')
        with (nested_head N ws1 ws2 ++ body ++ "}" ++ ws3 ++ "});" ++ t')
        by (rewrite ?append_assoc; simpl; rewrite ?append_assoc; reflexivity).
      apply nested_starts_intro; assumption.
    - exists (nested_head N ws1 ws2 ++ body), ws3. split; [assumption|].
      rewrite ?append_assoc. reflexivity. }
  destruct Mb as (p & f & Mb).
  destruct (scan_error_body _ _ _ _ _ Mb) as [st Hst].
  assert (Hhead : scan false (nested_head N ws1 ws2 ++ body) = Some st).
  { rewrite scan_app.
    rewrite (scan_false_no_brace _ (nested_head_no_brace _ _ _ D S1 S2)).
    exact Hst. }
  destruct st.
  - exists (nested_head N ws1 ws2 ++ body), (ws3 ++ "});"), t.
    split; [|split; [exact Hhead|split]].
    + rewrite ?append_assoc. simpl. rewrite ?append_assoc. reflexivity.
    + right. eauto.
    + replace ((nested_head N ws1 ws2 ++ body) ++ String "}" (ws3 ++ "});"))
        with (nested_head N ws1 ws2 ++ body ++ "}" ++ ws3 ++ "});")
        by (rewrite ?append_assoc; reflexivity).
      exact R.
  - exists ((nested_head N ws1 ws2 ++ body) ++ "}" ++ ws3), ");", t.
    split; [|split; [|split]].
    + rewrite ?append_assoc. simpl. rewrite ?append_assoc. reflexivity.
    + rewrite scan_app, Hhead. simpl. apply scan_spaces. assumption.
    + left. reflexivity.
    + replace (((nested_head N ws1 ws2 ++ body) ++ "}" ++ ws3)
               ++ String "}" ");")
        with (nested_head N ws1 ws2 ++ body ++ "}" ++ ws3 ++ "});")
        by (rewrite ?append_assoc; simpl; rewrite ?append_assoc; reflexivity).
      exact R.
Qed.

Lemma scan_none_cut (x : string) :
  forall st,
    scan st x = None ->
    exists px qx, x = px ++ String "}" qx /\ scan st px = Some true.
Proof.
  induction x as [|a x IH]; intros st H; [discriminate|].
  rewrite scan_cons in H.
  destruct (Ascii.eqb a "}") eqn:Ea.
  - apply Ascii.eqb_eq in Ea. subst a. destruct st.
    + exists EmptyString, x. auto.
    + destruct (IH _ H) as (px & qx & -> & Hpx).
      exists (String "}" px), qx. auto.
  - destruct (is_space a) eqn:Hs.
    + destruct (IH _ H) as (px & qx & -> & Hpx).
      exists (String a px), qx. split; [reflexivity|].
      rewrite scan_cons, Ea, Hs. exact Hpx.
    + destruct (IH _ H) as (px & qx & -> & Hpx).
      exists (String a px), qx. split; [reflexivity|].
      rewrite scan_cons, Ea, Hs. exact Hpx.
Qed.

Lemma no_brace_in (g a b : string) :
  all_chars (isnt "}") g = true -> g = a ++ String "}" b -> False.
Proof.
  intros H ->. rewrite all_chars_append in H. simpl in H.
  rewrite andb_false_r in H. discriminate.
Qed.

(** Two ways to read a text up to a closing brace, one of them through
    characters that are no closing brace. *)
Lemma first_brace (g : string) :
  forall x r r',
    all_chars (isnt "}") g = true ->
    g ++ String "}" r = x ++ String "}" r' ->
    (x = g /\ r = r') \/
    (exists x2, x = g ++ String "}" x2 /\ r = x2 ++ String "}" r').
Proof.
  induction g as [|a g IH]; intros x r r' H E; simpl in *.
  - destruct x as [|b x]; simpl in E.
    + left. injection E as ->. auto.
    + right. injection E as <- ->. eauto.
  - apply andb_prop in H. destruct H as [Ha Hg].
    destruct x as [|b x]; simpl in E.
    + injection E as -> _. discriminate.
    + injection E as <- E.
      destruct (IH _ _ _ Hg E) as [[-> ->]|(x2 & -> & ->)]; eauto.
Qed.

Lemma not_space_start (ws : string) (a : ascii) (u v : string) :
  all_chars is_space ws = true -> is_space a = false ->
  Ascii.eqb a "}" = false ->
  String a u = ws ++ String "}" v -> False.
Proof.
  intros S Ha Hb E. destruct ws as [|c ws]; simpl in *.
  - injection E as -> _. discriminate.
  - injection E as <- _. apply andb_prop in S. destruct S. congruence.
Qed.

(** A match that starts before the closing of a rewritten response object
    ends before it. *)
Lemma nested_within (x ws z : string) :
  all_chars is_space ws = true ->
  starts_match error_pattern (x ++ "}" ++ ws ++ "};" ++ z) ->
  exists w e, x = w ++ e /\ response_text w.
Proof.
  intros Sws S. apply nested_cut in S.
  destruct S as (pre & post & t & E & Hpre & Hpost & R).
  destruct (scan false x) as [[|]|] eqn:Hx.
  - (* [x] ends with a closing brace and whitespace *)
    exfalso. simpl in E.
    destruct (scan_cut_unique _ _ _ _ _ Hx Hpre E) as [_ E'].
    destruct Hpost as [->|(ws3 & S3 & ->)].
    + symmetry in E'. simpl in E'.
      eapply (not_space_start ws ")"); [exact Sws | reflexivity
                                         | reflexivity | exact E'].
    + rewrite append_assoc in E'. simpl in E'.
      destruct (run_unique is_space _ _ "}" "}" _ _ Sws S3 eq_refl eq_refl E')
        as [_ E''].
      discriminate.
  - (* the first pair of [x] and what follows is the one that follows [x] *)
    exfalso.
    assert (Hx' : scan false (x ++ "}" ++ ws) = Some true).
    { rewrite scan_app, Hx. simpl. apply scan_spaces. assumption. }
    replace (x ++ "}" ++ ws ++ "};" ++ z)
      with ((x ++ "}" ++ ws) ++ String "}" (";" ++ z)) in E
      by (rewrite ?append_assoc; simpl; rewrite ?append_assoc; reflexivity).
    destruct (scan_cut_unique _ _ _ _ _ Hx' Hpre E) as [_ E'].
    destruct Hpost as [->|(ws3 & S3 & ->)].
    + discriminate.
    + rewrite append_assoc in E'. simpl in E'. symmetry in E'.
      destruct ws3 as [|c ws3]; simpl in E'; [discriminate|].
      injection E' as -> _. simpl in S3. discriminate.
  - destruct (scan_none_cut _ _ Hx) as (px & qx & -> & Hpx).
    rewrite append_assoc in E. simpl in E.
    destruct (scan_cut_unique _ _ _ _ _ Hpx Hpre E) as [<- E'].
    symmetry in E'.
    destruct (append_eq_append _ _ _ _ E') as [(e & -> & _)|(e & He & Ep & ET)].
    + exists (px ++ String "}" post), e. split; [|exact R].
      rewrite ?append_assoc. simpl. rewrite ?append_assoc. reflexivity.
    + exfalso. destruct e as [|c e']; [congruence|].
      simpl in ET. injection ET as <- ET.
      destruct Hpost as [->|(ws3 & S3 & ->)].
      * eapply (no_brace_in ");"); [reflexivity | exact Ep].
      * simpl in Ep.
        destruct (first_brace _ _ _ _
                    (all_chars_impl _ _ _ space_isnt_brace S3) Ep)
          as [[-> <-]|(x2 & _ & Ex)].
        -- simpl in ET. symmetry in ET.
           eapply (not_space_start ws ")"); [exact Sws | reflexivity
                                              | reflexivity | exact ET].
        -- eapply (no_brace_in ");"); [reflexivity | exact Ex].
Qed.

(** A match that starts in [b] does not end inside a following text [x]
    that has no pair of closing braces and starts with none of the
    characters a match ends with. *)
Lemma response_not_across (w e b x : string) (a : ascii) (x' : string) :
  response_text w ->
  w ++ e = b ++ x ->
  x = String a x' -> closing_char a = false ->
  scan false x <> None ->
  exists e', b = w ++ e'.
Proof.
  intros [_ (w0 & ws3 & S3 & Hw)] E Hx Ha Hscan.
  destruct (append_eq_append _ _ _ _ E) as [(e0 & -> & _)|(f & Hf & Ew & Ex)];
    [eauto|].
  exfalso. rewrite Hw in Ew.
  destruct (append_eq_append _ _ _ _ Ew) as [(e1 & _ & Ef)|(e1 & _ & _ & Ef)].
  - assert (Hq : all_chars closing_char ("}" ++ ws3 ++ "});") = true).
    { simpl. rewrite all_chars_append.
      rewrite (all_chars_impl is_space _ ws3); [reflexivity | | assumption].
      intros c Hc. unfold closing_char. rewrite Hc. reflexivity. }
    rewrite Ef in Hq. apply all_chars_suffix in Hq.
    destruct f as [|c f]; [congruence|].
    rewrite Hx in Ex. simpl in Ex. injection Ex as -> _.
    simpl in Hq. rewrite Ha in Hq. discriminate.
  - apply Hscan. rewrite Ex, Ef.
    replace ((e1 ++ "}" ++ ws3 ++ "});") ++ e)
      with (e1 ++ "}" ++ ws3 ++ "}" ++ (");" ++ e))
      by (rewrite ?append_assoc; simpl; rewrite ?append_assoc; reflexivity).
    apply scan_pair. assumption.
Qed.

Lemma nested_lead (y : string) :
  starts_match error_pattern y -> exists t, y = "res.status(" ++ t.
Proof.
  intros S. apply nested_starts in S.
  destruct S as (N & ws1 & ws2 & body & ws3 & t & _ & _ & _ & _ & _ & _ & ->).
  unfold nested_head. rewrite !append_assoc. simpl. eauto.
Qed.

Lemma nested_lead_char (c : ascii) (y : string) :
  starts_match error_pattern (String c y) -> c = "r"%char.
Proof.
  intros S. apply nested_lead in S. destruct S as [t E]. simpl in E.
  congruence.
Qed.

Lemma nested_not_at_send (status_code z : string) :
  all_chars is_digit status_code = true ->
  ~ starts_match error_pattern
      ("res.status(" ++ status_code ++ ").json(" ++ nl ++ z).
Proof.
  intros D S. apply nested_starts in S.
  destruct S as (N & ws1 & ws2 & body & ws3 & t & _ & D' & _ & _ & _ & _ & E).
  unfold nested_head in E. rewrite ?append_assoc in E. simpl in E.
  repeat match type of E with
         | String _ _ = String _ _ => injection E as E
         end.
  destruct (run_unique is_digit _ _ ")" ")" _ _ D D' eq_refl eq_refl E)
    as [_ E'].
  discriminate.
Qed.

Lemma nested_replacement_cut (status_code body rest : string) :
  canonical_response status_code ("{ " ++ body ++ " }") ++ rest
  = (object_open ++ " " ++ body ++ " ") ++ "}" ++ "
        " ++ "};" ++ "
        " ++ "res.status(" ++ status_code ++ send_tail ++ rest.
Proof.
  unfold canonical_response, object_open, send_tail.
  rewrite ?append_assoc. simpl. rewrite ?append_assoc. simpl.
  rewrite ?append_assoc. reflexivity.
Qed.

Lemma scan_object (body : string) (st : bool) :
  scan false body = Some st ->
  scan false (object_open ++ " " ++ body ++ " ") = Some st.
Proof.
  intros H. rewrite scan_app.
  change (scan false object_open) with (Some false). cbv iota.
  change (" " ++ body ++ " ") with (String " " (body ++ " ")).
  rewrite scan_space by reflexivity.
  rewrite scan_app, H. reflexivity.
Qed.

(** A match cannot start in the text before a rewritten response and run
    into it, when none started there before the rewriting. *)
Lemma nested_not_before (b old body z : string) (st : bool) :
  ~ starts_match error_pattern (b ++ old) ->
  scan false body = Some st ->
  ~ starts_match error_pattern
      (b ++ (object_open ++ " " ++ body ++ " ") ++ "}" ++ "
        " ++ "};" ++ z).
Proof.
  intros Hold Hb S. rewrite <- append_assoc in S.
  apply nested_within in S; [|reflexivity].
  destruct S as (w & e & E & R). symmetry in E.
  destruct (response_not_across w e b _ "c"
              ("onst errorResponse = {
          error: {" ++ " " ++ body ++ " ") R E)
    as [e' ->]; [reflexivity | reflexivity | |].
  - rewrite (scan_object _ _ Hb). discriminate.
  - apply Hold. rewrite append_assoc. apply R.
Qed.

Lemma nested_not_inside (a b body z : string) (st : bool) :
  object_open ++ " " ++ body ++ " " = a ++ b ->
  scan false body = Some st ->
  ~ starts_match error_pattern (b ++ "}" ++ "
        " ++ "};" ++ z).
Proof.
  intros E Hb S. apply nested_within in S; [|reflexivity].
  destruct S as (w & e & -> & [_ (w0 & ws3 & S3 & ->)]).
  apply scan_object in Hb. rewrite E in Hb.
  replace (a ++ (w0 ++ "}" ++ ws3 ++ "});") ++ e)
    with ((a ++ w0) ++ "}" ++ ws3 ++ "}" ++ (");" ++ e)) in Hb
    by (rewrite ?append_assoc; simpl; rewrite ?append_assoc; reflexivity).
  rewrite scan_pair in Hb by assumption. discriminate.
Qed.

Lemma nested_replacement_quiet (skipped old status_code body rest : string)
      (st : bool) :
  all_chars is_digit status_code = true ->
  scan false body = Some st ->
  (forall a b, skipped = a ++ b -> b <> EmptyString ->
               ~ starts_match error_pattern (b ++ old)) ->
  quiet error_pattern rest ->
  quiet error_pattern
    (skipped ++ canonical_response status_code ("{ " ++ body ++ " }")
     ++ rest).
Proof.
  intros D Hb Hleft Q. rewrite nested_replacement_cut.
  apply quiet_app; [reflexivity | |].
  { intros a b E Hne. apply nested_not_before with (old := old) (st := st);
      eauto. }
  apply quiet_app; [reflexivity | |].
  { intros a b E Hne. eapply nested_not_inside; eassumption. }
  change (quiet error_pattern
            ("}
        };
        " ++ String "r" ("es.status(" ++ status_code ++ send_tail ++ rest))).
  apply (quiet_literal _ "res.status("); [reflexivity | apply nested_lead
                                         | reflexivity |].
  apply quiet_cons; [reflexivity | |].
  { apply nested_not_at_send. assumption. }
  apply (quiet_literal _ "res.status("); [reflexivity | apply nested_lead
                                         | reflexivity |].
  apply (quiet_run _ is_digit "r"); [reflexivity | apply nested_lead_char
                                    | reflexivity | assumption |].
  apply (quiet_literal _ "res.status("); [reflexivity | apply nested_lead
                                         | reflexivity | assumption].
Qed.

Lemma nested_sub_quiet (n : nat) :
  forall prev s,
    String.length s < n ->
    quiet error_pattern (sub_loop n error_pattern error_replacement prev s).
Proof.
  induction n as [|n IH]; intros prev s Hn; [lia|].
  cbn [sub_loop].
  destruct (search error_pattern prev s) as [[skipped m]|] eqn:E.
  - pose proof (search_leftmost _ _ nested_boundary_free _ _ _ E) as Hleft.
    apply search_sound in E. destruct E as (Hs & M & _).
    apply nested_inv in M.
    destruct M as (N & ws1 & ws2 & body & ws3 & _ & D & _ & _ & _ & Mb & Ht
                   & Hc).
    destruct Mb as (p & f & Mb).
    destruct (scan_error_body _ _ _ _ _ Mb) as [st Hst].
    rewrite <- scan_normalized in Hst.
    assert (Hr : error_replacement m
                 = canonical_response N ("{ " ++ normalized body ++ " }")).
    { unfold error_replacement, canonical_response, normalized, grp.
      rewrite Hc. simpl. rewrite !append_assoc. reflexivity. }
    rewrite Hr, Ht. unfold nested_head. cbn [append].
    apply nested_replacement_quiet
      with (old := m_text m ++ m_rest m) (st := st); try assumption.
    apply IH. rewrite Hs, Ht, !length_append in Hn. simpl in Hn. lia.
  - eapply quiet_of_search; [reflexivity | eassumption].
Qed.

End NestedPass.

Lemma flat_pass_settles (content : string) :
  finditer AddErrorDebugInfo.error_pattern
    (AddErrorDebugInfo.add_debug_to_error_responses content) = [].
Proof.
  apply finditer_no_match.
  unfold AddErrorDebugInfo.add_debug_to_error_responses, re_sub.
  apply flat_sub_quiet. lia.
Qed.

Lemma nested_pass_settles (content : string) :
  finditer FixAllErrorResponses.error_pattern
    (FixAllErrorResponses.fix_error_responses content) = [].
Proof.
  apply finditer_no_match.
  unfold FixAllErrorResponses.fix_error_responses, re_sub.
  apply nested_sub_quiet. lia.
Qed.

(** C5. Each error-response pass replaces every response statement its
    pattern matches, [res.status(N).json({ error: {...} });], by the
    canonical shape: the response object is built first, then sent with the
    same status code [N], merged with the debug info exactly when
    [debugInfo] is set.  The output consists of these canonical responses
    and of the text outside the matches, and the pattern of the pass
    matches nowhere in it: after a run no statement the pass recognizes is
    left in another shape. *)
Theorem error_responses_get_canonical_shape (content : string) :
  ((exists ps,
      source_of ps = content /\
      output_of AddErrorDebugInfo.error_replacement ps
      = AddErrorDebugInfo.add_debug_to_error_responses content /\
      hits_of 0 ps = finditer AddErrorDebugInfo.error_pattern content /\
      Forall wrapped_flat ps) /\
   finditer AddErrorDebugInfo.error_pattern
     (AddErrorDebugInfo.add_debug_to_error_responses content) = []) /\
  ((exists ps,
      source_of ps = content /\
      output_of FixAllErrorResponses.error_replacement ps
      = FixAllErrorResponses.fix_error_responses content /\
      hits_of 0 ps = finditer FixAllErrorResponses.error_pattern content /\
      Forall wrapped_nested ps) /\
   finditer FixAllErrorResponses.error_pattern
     (FixAllErrorResponses.fix_error_responses content) = []).
Proof.
  split; split.
  - destruct (re_sub_pieces AddErrorDebugInfo.error_pattern
                AddErrorDebugInfo.error_replacement content)
      as (ps & Hsrc & Hout & Hhits & Hall).
    exists ps. repeat split; try assumption.
    eapply Forall_impl; [apply flat_hit_wrapped | exact Hall].
  - apply flat_pass_settles.
  - destruct (re_sub_pieces FixAllErrorResponses.error_pattern
                FixAllErrorResponses.error_replacement content)
      as (ps & Hsrc & Hout & Hhits & Hall).
    exists ps. repeat split; try assumption.
    eapply Forall_impl; [apply nested_hit_wrapped | exact Hall].
  - apply nested_pass_settles.
Qed.

(** The scenario of the specification: a bare 404 response. *)
Example bare_404_is_wrapped :
  AddErrorDebugInfo.add_debug_to_error_responses
    "res.status(404).json({ error: { code: 'X' } });"
  = canonical_response "404" "{ code: 'X' }".
Proof. vm_compute. reflexivity. Qed.

(** ** The early-return pass always instruments what it matches *)

Lemma search_here (r : re) (prev : option ascii) (s : string) (m : rmatch) :
  match_here r prev s = Some m -> search r prev s = Some (EmptyString, m).
Proof. intros H. destruct s; simpl; rewrite H; reflexivity. Qed.

Lemma lstrip_spaces (ws s : string) :
  all_chars is_space ws = true -> lstrip (ws ++ s) = lstrip s.
Proof.
  induction ws as [|a ws IH]; simpl; intros H; [reflexivity|].
  apply andb_prop in H. destruct H as [-> H]. auto.
Qed.

(** What the outer pattern of [add_debug_to_early_returns] matches. *)
Lemma early_pattern_inv prev w rest c' :
  matches AddErrorDebugInfo.early_pattern prev w rest [] c' ->
  exists condition ws status_code error_content,
    all_chars is_space ws = true /\
    status_code <> EmptyString /\ all_chars is_digit status_code = true /\
    error_content <> EmptyString /\
    all_chars (isnt "}") error_content = true /\
    w = condition ++ ws ++ "res.status(" ++ status_code ++ ").json({"
        ++ error_content ++ "});" /\
    c' = [ (2, "res.status(" ++ status_code ++ ").json({" ++ error_content
               ++ "});");
           (1, condition) ].
Proof.
  unfold AddErrorDebugInfo.early_pattern, AddErrorDebugInfo.early_response.
  cbn [sequence]. intros M. invert_matches. subst.
  eexists _, _, _, _. repeat split; try eassumption.
Qed.

(** The inner search on such a response finds the status code and the
    error content. *)
Lemma status_search (status_code error_content : string) :
  status_code <> EmptyString -> all_chars is_digit status_code = true ->
  error_content <> EmptyString ->
  all_chars (isnt "}") error_content = true ->
  exists sm,
    search AddErrorDebugInfo.status_pattern None
      ("res.status(" ++ status_code ++ ").json({" ++ error_content ++ "});")
    = Some (EmptyString, sm) /\
    grp 1 sm = status_code /\ grp 2 sm = error_content.
Proof.
  intros N1 D1 N2 D2.
  set (response := "res.status(" ++ status_code ++ ").json({"
                   ++ error_content ++ "});").
  assert (M : matches AddErrorDebugInfo.status_pattern None response
                EmptyString [] [(2, error_content); (1, status_code)]).
  { unfold AddErrorDebugInfo.status_pattern, response. cbn [sequence].
    repeat first
      [ apply matches_lit
      | apply M_Grp
      | apply matches_plus_cls; assumption
      | eapply M_Cat ]. }
  rewrite <- (append_nil_r response).
  destruct (match_here_complete _ _ _ _ _ M) as [sm Hsm].
  exists sm. split; [apply search_here; exact Hsm|].
  apply match_here_sound in Hsm. destruct Hsm as (Htext & Msm & _).
  destruct sm as [w c p rest]. simpl in *.
  unfold AddErrorDebugInfo.status_pattern in Msm. cbn [sequence] in Msm.
  invert_matches. subst. unfold grp. simpl.
  rewrite append_nil_r in Htext. unfold response in Htext.
  rewrite !append_assoc in Htext. simpl in Htext.
  repeat match type of Htext with
         | String _ _ = String _ _ => injection Htext as Htext
         end.
  destruct (run_unique is_digit status_code w2 ")" ")"
              _ _ D1 ltac:(assumption) eq_refl eq_refl Htext) as [-> Htext'].
  simpl in Htext'.
  repeat match type of Htext' with
         | String _ _ = String _ _ => injection Htext' as Htext'
         end.
  destruct (run_unique (isnt "}") error_content w6 "}" "}"
              _ _ D2 ltac:(assumption) eq_refl eq_refl Htext') as [-> _].
  auto.
Qed.

Lemma early_replacement_instruments (content : string) (pos : nat)
      (m : rmatch) :
  In (pos, m) (finditer AddErrorDebugInfo.early_pattern content) ->
  exists ws status_code error_content sm,
    all_chars is_space ws = true /\
    m_text m = grp 1 m ++ ws ++ grp 2 m /\
    grp 2 m = "res.status(" ++ status_code ++ ").json({" ++ error_content
              ++ "});" /\
    search AddErrorDebugInfo.status_pattern None (grp 2 m)
    = Some (EmptyString, sm) /\
    AddErrorDebugInfo.early_replacement m
    = AddErrorDebugInfo.early_instrumented (grp 1 m) status_code
        error_content.
Proof.
  intros Hin. apply finditer_matches in Hin. destruct Hin as [prev M].
  apply early_pattern_inv in M.
  destruct M as (condition & ws & status_code & error_content
                 & Hws & N1 & D1 & N2 & D2 & Htext & Hcaps).
  destruct (status_search status_code error_content N1 D1 N2 D2)
    as (sm & Hsearch & G1 & G2).
  exists ws, status_code, error_content, sm.
  unfold AddErrorDebugInfo.early_replacement, grp. rewrite Hcaps. simpl.
  unfold grp in G1, G2. simpl in Hsearch.
  rewrite Hsearch, G1, G2, Htext. auto.
Qed.

(** The inner search of [early_replacement] fails on no match of the outer
    pattern: no input makes [re.sub] call the replacement on a match for
    which the fallback [return match.group(0)] runs. *)
Lemma early_fallback_is_never_taken :
  ~ exists content pos m,
      In (pos, m) (finditer AddErrorDebugInfo.early_pattern content) /\
      search AddErrorDebugInfo.status_pattern None (grp 2 m) = None.
Proof.
  intros (content & pos & m & Hin & Hnone).
  apply early_replacement_instruments in Hin.
  destruct Hin as (ws & status_code & error_content & sm & _ & _ & _ & H & _).
  congruence.
Qed.

(** C8, amended. For every input and every region the outer pattern of
    [add_debug_to_early_returns] matches, the inner search on the captured
    response succeeds, so the replacement is the instrumented text built
    from the captured condition block, status code and error content, and it
    differs from the matched region: the fallback that returns the region
    unchanged is dead code. *)
Theorem early_return_match_is_always_instrumented (content : string)
        (pos : nat) (m : rmatch) :
  In (pos, m) (finditer AddErrorDebugInfo.early_pattern content) ->
  search AddErrorDebugInfo.status_pattern None (grp 2 m) <> None /\
  (exists status_code error_content,
     grp 2 m = "res.status(" ++ status_code ++ ").json({" ++ error_content
               ++ "});" /\
     AddErrorDebugInfo.early_replacement m
     = AddErrorDebugInfo.early_instrumented (grp 1 m) status_code
         error_content) /\
  AddErrorDebugInfo.early_replacement m <> m_text m.
Proof.
  intros Hin. apply early_replacement_instruments in Hin.
  destruct Hin as (ws & status_code & error_content & sm
                   & Hws & Htext & Hresp & Hsearch & Hrepl).
  split; [congruence|]. split; [eauto|].
  rewrite Hrepl, Htext, Hresp.
  unfold AddErrorDebugInfo.early_instrumented. intros E.
  apply append_cancel_l in E.
  apply (f_equal lstrip) in E.
  rewrite (lstrip_spaces ws) in E by assumption.
  simpl in E. discriminate.
Qed.

Lemma early_return_match_is_always_instrumented_witness :
  let content :=
    "if (!puppetserverService) { logger.warn(x); } res.status(503).json({ error: 'x' });" in
  let m :=
    mkMatch content
      [ (2, "res.status(503).json({ error: 'x' });");
        (1, "if (!puppetserverService) { logger.warn(x); }") ]
      (Some ";"%char) EmptyString in
  AddErrorDebugInfo.early_replacement m <> m_text m.
Proof.
  intros content m.
  apply (early_return_match_is_always_instrumented content 0 m).
  vm_compute. left. reflexivity.
Defined.

(** ** Operation names *)

Lemma route_hit_region (route_pattern : string) (p : piece) :
  hit_of (AddExpertModeInit.route_regex route_pattern) p ->
  route_region route_pattern p.
Proof.
  destruct p as [u|m]; simpl; [trivial|].
  intros [prev M]. destruct m as [w c p rest]. simpl in *.
  unfold AddExpertModeInit.route_regex in M. cbn [sequence] in M.
  invert_matches.
  match goal with
  | H : matches (Alt _ _) _ ?method _ _ _ |- _ =>
      exists method;
      assert (Hm : In method http_methods)
        by (apply matches_alt_inv in H; destruct H as [H|H];
            [|apply matches_alt_inv in H; destruct H as [H|H]];
            apply matches_lit_inv in H; destruct H as [-> _];
            simpl; auto)
  end.
  subst. eexists _, _. repeat split; try eassumption.
Qed.

Lemma route_found_contains (route_pattern content : string) :
  finditer (AddExpertModeInit.route_regex route_pattern) content <> [] ->
  contains route_pattern content = true.
Proof.
  intros H.
  destruct (search (AddExpertModeInit.route_regex route_pattern) None content)
    as [[skipped m]|] eqn:E.
  - apply search_sound in E. destruct E as (-> & M & _).
    assert (R : route_region route_pattern (Hit m))
      by (apply route_hit_region; simpl; eauto).
    destruct R as (method & ws & between & _ & _ & ->).
    replace (skipped ++ ("router." ++ method ++ "(" ++ ws ++ route_pattern
                         ++ between ++ "OPERATION_PLACEHOLDER") ++ m_rest m)
      with ((skipped ++ "router." ++ method ++ "(" ++ ws) ++ route_pattern
            ++ (between ++ "OPERATION_PLACEHOLDER" ++ m_rest m)).
    + apply contains_intro.
    + rewrite !append_assoc. simpl. rewrite ?append_assoc. reflexivity.
  - apply finditer_no_match in E. contradiction.
Qed.

(** The handler of a route that is not in the table loses its placeholder to
    the route registered before it, whose own handler has none. *)
Lemma unlisted_handler_gets_a_name :
  let content :=
    "router.get(" ++ dq ++ "/metrics" ++ dq ++ ", plain);
router.get(" ++ dq ++ "/unknown" ++ dq ++ ", f('OPERATION_PLACEHOLDER'));" in
  ~ In (AddExpertModeInit.quoted "/unknown")
       (map fst AddExpertModeInit.routes) /\
  AddExpertModeInit.fix_operation_names content
  = "router.get(" ++ dq ++ "/metrics" ++ dq ++ ", plain);
router.get(" ++ dq ++ "/unknown" ++ dq
    ++ ", f('GET /api/integrations/puppetserver/metrics'));".
Proof.
  split.
  - cbv. intros H.
    repeat (destruct H as [H|H]; [discriminate|]). exact H.
  - vm_compute. reflexivity.
Qed.

(** C7, amended. [fix_operation_names] is a textual heuristic.  Each turn of
    its loop replaces the placeholder inside every region that starts at a
    registration [router.get(], [router.post(] or [router.delete(] of the
    table entry's route text and runs up to an [OPERATION_PLACEHOLDER]
    further on, whatever the method and whichever handler the placeholder
    is in; the text outside those regions is kept.  A text in which no route
    text of the table occurs is returned unchanged, placeholders included.
    The run reports nothing but its success line. *)
Theorem operation_names_follow_route_text (content : string) :
  (forall route_pattern operation_name,
     exists ps,
       source_of ps = content /\
       output_of (fun m => replace "OPERATION_PLACEHOLDER" operation_name
                             (m_text m)) ps
       = AddExpertModeInit.fix_route content (route_pattern, operation_name) /\
       hits_of 0 ps
       = finditer (AddExpertModeInit.route_regex route_pattern) content /\
       Forall (route_region route_pattern) ps) /\
  ((forall route, In route AddExpertModeInit.routes ->
      contains (fst route) content = false) ->
   AddExpertModeInit.fix_operation_names content = content) /\
  (forall w n,
     lookup AddExpertModeInit.file_path (files w) = Some n ->
     readable n = true -> writable n = true ->
     exists files',
       AddExpertModeInit.main w
       = (Ok tt,
          mkWorld files' (dirs w)
            ("✓ Added expert mode initialization to routes" :: stdout w))).
Proof.
  repeat split.
  - intros route_pattern operation_name.
    destruct (re_sub_pieces (AddExpertModeInit.route_regex route_pattern)
                (AddExpertModeInit.replace_op operation_name) content)
      as (ps & Hsrc & Hout & Hhits & Hall).
    exists ps. repeat split; try assumption.
    eapply Forall_impl; [apply route_hit_region | exact Hall].
  - intros H. apply fix_routes_zero. intros route Hin.
    destruct (finditer _ content) eqn:E; [reflexivity|].
    specialize (H route Hin).
    rewrite route_found_contains in H; [discriminate|].
    rewrite E. discriminate.
  - intros w n Hn Hr Hw.
    apply readable_read in Hr. apply writable_write in Hw.
    unfold AddExpertModeInit.main, bind, read_file, write_file, print.
    rewrite Hn, Hr. cbn [files]. rewrite Hn, Hw. simpl. eauto.
Qed.

Lemma operation_names_follow_route_text_witness :
  let content :=
    "router.get(" ++ dq ++ "/unknown" ++ dq
    ++ ", f('OPERATION_PLACEHOLDER'));" in
  AddExpertModeInit.fix_operation_names content = content.
Proof.
  intros content.
  apply (operation_names_follow_route_text content).
  intros route Hin. simpl in Hin.
  repeat (destruct Hin as [<- | Hin]; [vm_compute; reflexivity|]).
  contradiction.
Defined.

(** ** Counting occurrences *)

Lemma strip_prefix_shorter (p s rest : string) :
  p <> EmptyString -> strip_prefix p s = Some rest ->
  String.length rest < String.length s.
Proof.
  intros Hp H. apply strip_prefix_some in H. subst s.
  rewrite length_append. destruct p; [congruence | simpl; lia].
Qed.

Lemma count_loop_fuel (p : string) :
  p <> EmptyString ->
  forall n n' s,
    String.length s < n -> String.length s < n' ->
    count_loop n p s = count_loop n' p s.
Proof.
  intros Hp. induction n as [|n IH]; intros n' s Hn Hn'; [lia|].
  destruct n' as [|n']; [lia|]. simpl.
  destruct (strip_prefix p s) as [rest|] eqn:E.
  - pose proof (strip_prefix_shorter _ _ _ Hp E).
    f_equal. apply IH; lia.
  - destruct s as [|a s]; [reflexivity|]. simpl in *. apply IH; lia.
Qed.

(** The equation [str.count] satisfies. *)
Lemma count_eq (p s : string) :
  p <> EmptyString ->
  count p s =
  match strip_prefix p s with
  | Some rest => S (count p rest)
  | None =>
      match s with
      | EmptyString => 0
      | String _ s' => count p s'
      end
  end.
Proof.
  intros Hp. unfold count at 1. simpl.
  destruct (strip_prefix p s) as [rest|] eqn:E.
  - pose proof (strip_prefix_shorter _ _ _ Hp E).
    f_equal. apply count_loop_fuel; [assumption | lia | lia].
  - destruct s as [|a s]; [reflexivity|].
    apply count_loop_fuel; [assumption | simpl; lia | lia].
Qed.

Lemma count_zero_iff (p s : string) :
  p <> EmptyString -> (contains p s = false <-> count p s = 0).
Proof.
  intros Hp. induction s as [|a s IH]; rewrite count_eq by assumption; simpl.
  - destruct (strip_prefix p EmptyString); split; congruence.
  - destruct (strip_prefix p (String a s)); [split; congruence | exact IH].
Qed.

(** A prefix without the character [a] of a text cut at an [a] lies before
    the cut. *)
Lemma prefix_before_char (p : string) (a : ascii) :
  occurrences a p = 0 ->
  forall x y rest,
    p ++ rest = x ++ String a y ->
    exists x', x = p ++ x' /\ rest = x' ++ String a y.
Proof.
  induction p as [|b p IH]; simpl; intros Hp x y rest E.
  - exists x. auto.
  - destruct (Ascii.eqb b a) eqn:Hb; [discriminate|]. simpl in Hp.
    destruct x as [|c x]; simpl in E.
    + injection E as -> _. rewrite Ascii.eqb_refl in Hb. discriminate.
    + injection E as -> E. destruct (IH Hp _ _ _ E) as (x' & -> & ->).
      exists x'. auto.
Qed.

Lemma strip_prefix_none_shorter (p s t : string) :
  strip_prefix p (s ++ t) = None -> strip_prefix p s = None.
Proof.
  intros H. destruct (strip_prefix p s) as [rest|] eqn:E; [|reflexivity].
  rewrite (strip_prefix_extend _ _ _ t E) in H. discriminate.
Qed.

(** Occurrences of [p] cannot span a character that [p] does not contain,
    so they are counted on each side of it. *)
Lemma count_cut (p : string) (a : ascii) :
  p <> EmptyString -> occurrences a p = 0 ->
  forall x y, count p (x ++ String a y) = count p x + count p y.
Proof.
  intros Hp Ha x.
  induction x as [x IH]
    using (well_founded_induction (well_founded_ltof _ String.length)).
  unfold ltof in IH. intros y. rewrite (count_eq p (x ++ String a y)) by assumption.
  destruct (strip_prefix p (x ++ String a y)) as [rest|] eqn:E.
  - pose proof (strip_prefix_some _ _ _ E) as E'. symmetry in E'.
    destruct (prefix_before_char p a Ha _ _ _ E') as (x' & -> & ->).
    rewrite (count_eq p (p ++ x')), strip_prefix_append by assumption.
    rewrite IH; [reflexivity|].
    rewrite length_append. destruct p; [congruence | simpl; lia].
  - apply strip_prefix_none_shorter in E as E0.
    rewrite (count_eq p x), E0 by assumption.
    destruct x as [|b x]; simpl.
    + reflexivity.
    + apply IH. simpl. lia.
Qed.

(** ** The ExpertModeService import *)

Section ServiceImport.

Import TransformExpertMode.

Let q : ascii := "034"%char.

Lemma guard_cut (x y : string) :
  count import_guard (x ++ String q y)
  = count import_guard x + count import_guard y.
Proof. apply count_cut; [discriminate | reflexivity]. Qed.

(** Around an anchor, declarations are counted before it and after it. *)
Lemma guard_count_anchor (pre rest : string) :
  count import_guard (pre ++ utils_import ++ rest)
  = count import_guard (pre ++ "from ")
    + count import_guard (";" ++ rest).
Proof.
  replace (pre ++ utils_import ++ rest)
    with ((pre ++ "from ") ++ String q ("./utils" ++ String q (";" ++ rest)))
    by (rewrite append_assoc; reflexivity).
  rewrite !guard_cut.
  change (count import_guard "./utils") with 0. lia.
Qed.

(** The inserted line adds one declaration. *)
Lemma guard_count_inserted (pre rest : string) :
  count import_guard (pre ++ utils_and_service_import ++ rest)
  = count import_guard (pre ++ "from ")
    + 1 + count import_guard (";" ++ rest).
Proof.
  replace (pre ++ utils_and_service_import ++ rest)
    with ((pre ++ "from ")
          ++ String q ("./utils"
          ++ String q (";
import { ExpertModeService } from "
          ++ String q ("../../services/ExpertModeService"
          ++ String q (";" ++ rest)))))
    by (rewrite append_assoc; reflexivity).
  rewrite !guard_cut.
  change (count import_guard "./utils") with 0.
  change (count import_guard "../../services/ExpertModeService") with 0.
  change (count import_guard ";
import { ExpertModeService } from ") with 1.
  lia.
Qed.

Lemma insert_counts (n : nat) :
  forall pre c,
    count import_guard
      (pre ++ replace_loop n utils_import utils_and_service_import c)
    = count import_guard (pre ++ c) + count_loop n utils_import c.
Proof.
  induction n as [|n IH]; intros pre c; cbn [replace_loop count_loop];
    [lia|].
  destruct (strip_prefix utils_import c) as [rest|] eqn:E.
  - apply strip_prefix_some in E. subst c.
    rewrite guard_count_inserted, guard_count_anchor, IH. lia.
  - destruct c as [|a c]; [lia|].
    replace (pre ++ String a (replace_loop n utils_import
                                utils_and_service_import c))
      with ((pre ++ String a EmptyString)
            ++ replace_loop n utils_import utils_and_service_import c)
      by (rewrite append_assoc; reflexivity).
    rewrite IH, append_assoc. reflexivity.
Qed.

(** The insertion adds one declaration for every anchor. *)
Lemma replace_counts (c : string) :
  count import_guard (replace utils_import utils_and_service_import c)
  = count import_guard c + count utils_import c.
Proof. exact (insert_counts (S (String.length c)) EmptyString c). Qed.

Lemma add_service_import_idempotent (c : string) :
  add_service_import (add_service_import c) = add_service_import c.
Proof.
  unfold add_service_import at 2.
  destruct (contains import_guard c) eqn:G; cbn [negb].
  - unfold add_service_import. rewrite G. reflexivity.
  - set (c' := replace utils_import utils_and_service_import c).
    destruct (contains utils_import c) eqn:A.
    + unfold add_service_import.
      destruct (contains import_guard c') eqn:G'; [rewrite G; reflexivity|].
      apply count_zero_iff in G'; [|discriminate].
      unfold c' in G'. rewrite replace_counts in G'.
      assert (H : count utils_import c = 0) by lia.
      apply count_zero_iff in H; [congruence | discriminate].
    + assert (E : c' = c)
        by (apply (replace_loop_absent utils_import); assumption).
      rewrite E. unfold add_service_import. rewrite G. reflexivity.
Qed.

Lemma iterate_idempotent {X : Type} (f : X -> X) (x : X) (n : nat) :
  f (f x) = f x -> Nat.iter (S n) f x = f x.
Proof.
  intros H. induction n as [|n IH]; [reflexivity|].
  change (Nat.iter (S (S n)) f x) with (f (Nat.iter (S n) f x)).
  rewrite IH. exact H.
Qed.

End ServiceImport.

Lemma obsolete_hit_symbol (p : piece) :
  hit_of TransformExpertMode.obsolete_import p -> obsolete_symbol p.
Proof.
  destruct p as [u|m]; simpl; [trivial|].
  intros [prev M]. unfold TransformExpertMode.obsolete_import in M.
  invert_matches. subst. eauto.
Qed.

(** A file that does not import from [./utils] gets no declaration, and the
    obsolete name stays when it is the last of its import list. *)
Lemma no_anchor_no_service_import :
  let content :=
    "import { helper, handleExpertModeResponse } from " ++ dq ++ "./helpers"
    ++ dq ++ ";" in
  let after_step :=
    TransformExpertMode.add_service_import
      (TransformExpertMode.remove_obsolete_import content) in
  count TransformExpertMode.import_guard after_step = 0 /\
  contains "handleExpertModeResponse" after_step = true.
Proof. vm_compute. auto. Qed.

(** What the import step does keep.  A text that already contains
    [import { ExpertModeService }] is left as it is by the import insertion.
    A text that does not, and that contains the anchor [from "./utils";]
    exactly once, has that text once after any number of runs of the
    insertion (at least one): the import line stands right after the anchor,
    and later runs change nothing.  The removal deletes every
    [handleExpertModeResponse,] with the whitespace after it and keeps the
    rest of the text. *)
Theorem service_import_once_per_anchor (content : string) (n : nat) :
  let runs := Nat.iter (S n) TransformExpertMode.add_service_import content in
  (contains TransformExpertMode.import_guard content = true ->
   runs = content) /\
  (contains TransformExpertMode.import_guard content = false ->
   count TransformExpertMode.utils_import content = 1 ->
   count TransformExpertMode.import_guard runs = 1 /\
   runs = replace TransformExpertMode.utils_import
            (TransformExpertMode.utils_import ++ nl
             ++ "import { ExpertModeService } from " ++ dq
             ++ "../../services/ExpertModeService" ++ dq ++ ";") content) /\
  (exists ps,
     source_of ps = content /\
     output_of (fun _ => EmptyString) ps
     = TransformExpertMode.remove_obsolete_import content /\
     hits_of 0 ps = finditer TransformExpertMode.obsolete_import content /\
     Forall obsolete_symbol ps).
Proof.
  intros runs.
  assert (Hruns : runs = TransformExpertMode.add_service_import content)
    by (apply iterate_idempotent, add_service_import_idempotent).
  split; [|split].
  - intros G. rewrite Hruns. unfold TransformExpertMode.add_service_import.
    rewrite G. reflexivity.
  - intros G A. rewrite Hruns.
    unfold TransformExpertMode.add_service_import. rewrite G. cbn [negb].
    split; [|reflexivity].
    rewrite replace_counts.
    apply count_zero_iff in G; [|discriminate]. lia.
  - destruct (re_sub_pieces TransformExpertMode.obsolete_import
                (fun _ => EmptyString) content)
      as (ps & Hsrc & Hout & Hhits & Hall).
    exists ps. repeat split; try assumption.
    eapply Forall_impl; [apply obsolete_hit_symbol | exact Hall].
Qed.

Lemma service_import_once_per_anchor_witness :
  let content :=
    "import { asyncHandler } from " ++ dq ++ "./utils" ++ dq ++ ";
const router = Router();" in
  count TransformExpertMode.import_guard
    (Nat.iter 3 TransformExpertMode.add_service_import content) = 1.
Proof.
  intros content.
  apply (service_import_once_per_anchor content 2); vm_compute; reflexivity.
Defined.

Lemma remove_needs_comma (content : string) :
  contains "handleExpertModeResponse," content = false ->
  TransformExpertMode.remove_obsolete_import content = content.
Proof.
  intros H. apply re_sub_no_match.
  destruct (search TransformExpertMode.obsolete_import None content)
    as [[skipped m]|] eqn:E; [|reflexivity].
  apply search_sound in E. destruct E as (Hs & M & _).
  destruct (obsolete_hit_symbol (Hit m)) as (ws & _ & Ht);
    [simpl; eauto|].
  rewrite Hs, Ht, append_assoc, contains_intro in H. discriminate.
Qed.

(** C3. The import step of transform-expert-mode.py does not keep a file at
    exactly one import of [ExpertModeService] without the obsolete name.
    Its comments read "Remove handleExpertModeResponse from imports" and
    "Add ExpertModeService import if not present"; the code works on three
    fixed texts instead.  The import is inserted after every
    [from "./utils";] and nowhere else: a file without that text gets none.
    The test for an import that is already there looks for the spelling
    [import { ExpertModeService }] only: a file that imports the name
    together with another one gets a second import.  The name
    [handleExpertModeResponse] is removed only where a comma follows it: as
    the last name of an import list it stays. *)
Theorem service_import_is_not_kept_single :
  (forall content,
     contains TransformExpertMode.utils_import content = false ->
     TransformExpertMode.add_service_import content = content) /\
  (forall content,
     contains TransformExpertMode.import_guard content = false ->
     count TransformExpertMode.import_guard
       (TransformExpertMode.add_service_import content)
     = count TransformExpertMode.utils_import content) /\
  (forall content,
     contains "handleExpertModeResponse," content = false ->
     TransformExpertMode.remove_obsolete_import content = content) /\
  (let content :=
     "import { helper, handleExpertModeResponse } from " ++ dq ++ "./helpers"
     ++ dq ++ ";" in
   let result :=
     TransformExpertMode.add_service_import
       (TransformExpertMode.remove_obsolete_import content) in
   contains "ExpertModeService" result = false /\
   contains "handleExpertModeResponse" result = true) /\
  (let content :=
     "import { ExpertModeService, DebugInfo } from " ++ dq
     ++ "../../services/ExpertModeService" ++ dq ++ ";
import { asyncHandler } from " ++ dq ++ "./utils" ++ dq ++ ";" in
   let result :=
     TransformExpertMode.add_service_import
       (TransformExpertMode.remove_obsolete_import content) in
   count "import { ExpertModeService" content = 1 /\
   count "import { ExpertModeService" result = 2) /\
  (let content :=
     "import { asyncHandler } from " ++ dq ++ "./utils" ++ dq ++ ";
export { asyncHandler } from " ++ dq ++ "./utils" ++ dq ++ ";" in
   let result :=
     TransformExpertMode.add_service_import
       (TransformExpertMode.remove_obsolete_import content) in
   count TransformExpertMode.import_guard result = 2).
Proof.
  split; [|split; [|split; [|split; [|split]]]].
  - intros content H. unfold TransformExpertMode.add_service_import.
    destruct (negb _); [|reflexivity].
    apply (replace_loop_absent TransformExpertMode.utils_import). exact H.
  - intros content G. unfold TransformExpertMode.add_service_import.
    rewrite G. cbn [negb]. rewrite replace_counts.
    apply count_zero_iff in G; [|discriminate]. lia.
  - apply remove_needs_comma.
  - vm_compute. auto.
  - vm_compute. auto.
  - vm_compute. reflexivity.
Qed.

(** ** Running the catch-block pass again *)

Lemma source_of_app (ps1 ps2 : list piece) :
  source_of (ps1 ++ ps2) = source_of ps1 ++ source_of ps2.
Proof.
  induction ps1 as [|[u|m] ps1 IH]; simpl; [reflexivity| |];
    rewrite IH, append_assoc; reflexivity.
Qed.

Lemma output_of_app (repl : rmatch -> string) (ps1 ps2 : list piece) :
  output_of repl (ps1 ++ ps2) = output_of repl ps1 ++ output_of repl ps2.
Proof.
  induction ps1 as [|[u|m] ps1 IH]; simpl; [reflexivity| |];
    rewrite IH, append_assoc; reflexivity.
Qed.

Lemma hits_of_nonempty (ps : list piece) :
  forall pos, hits_of pos ps <> [] -> exists m, In (Hit m) ps.
Proof.
  induction ps as [|[u|m] ps IH]; simpl; intros pos H.
  - congruence.
  - destruct (IH _ H) as [m Hm]. eauto.
  - eauto.
Qed.

(** Replacements longer than what they replace make the text longer. *)
Lemma output_longer (repl : rmatch -> string) (ps : list piece) :
  Forall (fun p => match p with
                   | Kept _ => True
                   | Hit m => String.length (m_text m)
                              < String.length (repl m)
                   end) ps ->
  String.length (source_of ps) <= String.length (output_of repl ps) /\
  ((exists m, In (Hit m) ps) ->
   String.length (source_of ps) < String.length (output_of repl ps)).
Proof.
  induction 1 as [|[u|m] ps Hp Hps [IH1 IH2]]; simpl.
  - split; [lia | intros [m []]].
  - rewrite !length_append. split; [lia|].
    intros [m [Hm|Hm]]; [discriminate|].
    assert (String.length (source_of ps)
            < String.length (output_of repl ps)) by eauto.
    lia.
  - rewrite !length_append. split; lia.
Qed.

(** What the catch-block pattern matches, wherever it stands. *)
Lemma catch_pattern_inv prev w rest c' :
  matches AddErrorDebugInfo.catch_pattern prev w rest [] c' ->
  c' = [(1, w)] /\
  forall prev' rest',
    matches AddErrorDebugInfo.catch_pattern prev' w rest' [] [(1, w)].
Proof.
  unfold AddErrorDebugInfo.catch_pattern. cbn [sequence]. intros M.
  invert_matches. subst. split; [reflexivity|].
  intros prev' rest'. apply M_Grp.
  eapply M_Cat; [apply matches_lit|].
  eapply M_Cat; [apply matches_star_cls; assumption | apply matches_lit].
Qed.

Lemma catch_hit_grows (p : piece) :
  hit_of AddErrorDebugInfo.catch_pattern p ->
  match p with
  | Kept _ => True
  | Hit m =>
      String.length (m_text m)
      < String.length (grp 1 m ++ AddErrorDebugInfo.catch_block)
  end.
Proof.
  destruct p as [u|m]; simpl; [trivial|].
  intros [prev M]. apply catch_pattern_inv in M. destruct M as [Hc _].
  unfold grp. rewrite Hc. simpl. rewrite length_append. simpl. lia.
Qed.

Lemma catch_pass_grows (content : string) :
  finditer AddErrorDebugInfo.catch_pattern content <> [] ->
  String.length content
  < String.length (AddErrorDebugInfo.add_debug_to_catch_block content).
Proof.
  intros H.
  destruct (re_sub_pieces AddErrorDebugInfo.catch_pattern
              (fun m => grp 1 m ++ AddErrorDebugInfo.catch_block) content)
    as (ps & Hsrc & Hout & Hhits & Hall).
  unfold AddErrorDebugInfo.add_debug_to_catch_block.
  rewrite <- Hout, <- Hsrc. apply output_longer.
  - eapply Forall_impl; [apply catch_hit_grows | exact Hall].
  - apply (hits_of_nonempty ps 0). rewrite Hhits. exact H.
Qed.

(** The pass keeps what it matched in front of the inserted block, so its
    output has a match again. *)
Lemma catch_pass_keeps_match (content : string) :
  finditer AddErrorDebugInfo.catch_pattern content <> [] ->
  finditer AddErrorDebugInfo.catch_pattern
    (AddErrorDebugInfo.add_debug_to_catch_block content) <> [].
Proof.
  intros H.
  destruct (re_sub_pieces AddErrorDebugInfo.catch_pattern
              (fun m => grp 1 m ++ AddErrorDebugInfo.catch_block) content)
    as (ps & Hsrc & Hout & Hhits & Hall).
  destruct (hits_of_nonempty ps 0) as [m Hm]; [rewrite Hhits; exact H|].
  pose proof (proj1 (Forall_forall _ _) Hall _ Hm) as [prev M].
  apply catch_pattern_inv in M. destruct M as [Hc M].
  apply in_split in Hm. destruct Hm as (ps1 & ps2 & ->).
  unfold AddErrorDebugInfo.add_debug_to_catch_block. rewrite <- Hout.
  rewrite output_of_app. simpl. unfold grp. rewrite Hc. simpl.
  rewrite append_assoc.
  intros E. apply finditer_no_match in E.
  eapply search_none in E; [|reflexivity]. apply E. apply M.
Qed.

(** C1. The catch-block pass is not idempotent: on every text in which its
    pattern matches, a second run finds the same catch blocks again and
    inserts the debug block once more, so the result of two runs is longer
    than, and different from, the result of one. *)
Theorem catch_block_pass_repeats_insertion (content : string) :
  finditer AddErrorDebugInfo.catch_pattern content <> [] ->
  String.length (AddErrorDebugInfo.add_debug_to_catch_block content)
  < String.length
      (AddErrorDebugInfo.add_debug_to_catch_block
         (AddErrorDebugInfo.add_debug_to_catch_block content)) /\
  AddErrorDebugInfo.add_debug_to_catch_block
    (AddErrorDebugInfo.add_debug_to_catch_block content)
  <> AddErrorDebugInfo.add_debug_to_catch_block content.
Proof.
  intros H. apply catch_pass_keeps_match in H. apply catch_pass_grows in H.
  split; [exact H|]. intros E. rewrite E in H. lia.
Qed.

Lemma catch_block_pass_repeats_insertion_witness :
  let content :=
    "} catch (error) { const duration = Date.now() - startTime; }" in
  AddErrorDebugInfo.add_debug_to_catch_block
    (AddErrorDebugInfo.add_debug_to_catch_block content)
  <> AddErrorDebugInfo.add_debug_to_catch_block content.
Proof.
  intros content.
  apply (catch_block_pass_repeats_insertion content).
  vm_compute. discriminate.
Defined.

(** On a catch block two runs leave two copies of the debug block, while the
    initialisation pass leaves its own insertion alone. *)
Example catch_block_inserted_twice :
  let content :=
    "try { run(); } catch (error) { const duration = Date.now() - startTime; }" in
  let once := AddErrorDebugInfo.add_debug_to_catch_block content in
  let twice := AddErrorDebugInfo.add_debug_to_catch_block once in
  once = "try { run(); } catch (error) { const duration = Date.now() - startTime;"
         ++ AddErrorDebugInfo.catch_block ++ " }" /\
  twice = "try { run(); } catch (error) { const duration = Date.now() - startTime;"
          ++ AddErrorDebugInfo.catch_block ++ AddErrorDebugInfo.catch_block
          ++ " }" /\
  count "expertModeService.addError" once = 1 /\
  count "expertModeService.addError" twice = 2.
Proof. vm_compute. auto. Qed.

Example init_pass_on_its_own_output :
  let content := "const startTime = Date.now();

      logger.info(x);" in
  AddExpertModeInit.add_expert_mode_init
    (AddExpertModeInit.add_expert_mode_init content)
  = AddExpertModeInit.add_expert_mode_init content.
Proof. vm_compute. reflexivity. Qed.

(** ** Nested error bodies *)

(** C2. A response whose error body holds an object literal that itself
    holds an object literal is matched by neither error-response pattern:
    both passes leave the statement as it is.  One level of nesting is
    matched as a whole by [fix_error_responses] only. *)
Theorem nested_error_body_is_not_matched :
  let deep :=
    "res.status(500).json({ error: { code: 'X', details: { a: { b: 1 } } } });" in
  let one_level :=
    "res.status(500).json({ error: { code: 'X', details: { a: 1 } } });" in
  finditer FixAllErrorResponses.error_pattern deep = [] /\
  FixAllErrorResponses.fix_error_responses deep = deep /\
  finditer AddErrorDebugInfo.error_pattern deep = [] /\
  AddErrorDebugInfo.add_debug_to_error_responses deep = deep /\
  AddErrorDebugInfo.add_debug_to_error_responses one_level = one_level /\
  FixAllErrorResponses.fix_error_responses one_level
  = canonical_response "500" "{ code: 'X', details: { a: 1 } }".
Proof. vm_compute. repeat split; reflexivity. Qed.

(** ** Passes that reach a fixed point *)

Lemma quiet_no_start (r : re) (a b : string) :
  boundary_free r = true -> quiet r (a ++ b) -> ~ starts_match r b.
Proof.
  intros B. revert b. induction a as [|c a IH]; intros b Q; simpl in Q.
  - apply (match_here_none r None _ B).
    specialize (Q None). destruct b; simpl in Q;
      destruct (match_here r None _); congruence.
  - apply IH. intros prev. specialize (Q None). simpl in Q.
    destruct (match_here r None (String c (a ++ b))); [discriminate|].
    destruct (search r (Some c) (a ++ b)) as [[sk m]|] eqn:E; [discriminate|].
    eapply search_prev; eassumption.
Qed.

Lemma quiet_suffix (r : re) (a b : string) :
  boundary_free r = true -> quiet r (a ++ b) -> quiet r b.
Proof.
  intros B. induction a as [|c a IH]; intros Q; simpl in Q; [assumption|].
  apply IH. intros prev. specialize (Q None). simpl in Q.
  destruct (match_here r None (String c (a ++ b))); [discriminate|].
  destruct (search r (Some c) (a ++ b)) as [[sk m]|] eqn:E; [discriminate|].
  eapply search_prev; eassumption.
Qed.

(** A pass whose replacements bring in no new match leaves none: it is
    enough to look at one replacement, with the text skipped before it and
    a text without a match after it. *)
Lemma sub_loop_quiet (r : re) (repl : rmatch -> string) :
  boundary_free r = true ->
  (forall prev m,
     matches r prev (m_text m) (m_rest m) [] (m_caps m) ->
     m_text m <> EmptyString /\
     forall skipped rest',
       (forall a b, skipped = a ++ b -> b <> EmptyString ->
                    ~ starts_match r (b ++ m_text m ++ m_rest m)) ->
       quiet r rest' -> quiet r (skipped ++ repl m ++ rest')) ->
  forall n prev s,
    String.length s < n -> quiet r (sub_loop n r repl prev s).
Proof.
  intros B H. induction n as [|n IH]; intros prev s Hn; [lia|].
  cbn [sub_loop].
  destruct (search r prev s) as [[skipped m]|] eqn:E.
  - pose proof (search_leftmost _ _ B _ _ _ E) as Hleft.
    apply search_sound in E. destruct E as (Hs & M & _).
    destruct (H _ _ M) as [Hne Hq].
    destruct (m_text m) as [|c t] eqn:Ht; [congruence|].
    rewrite <- Ht in *. apply Hq; [exact Hleft|].
    apply IH. rewrite Hs, !length_append in Hn. rewrite Ht in Hn.
    simpl in Hn. lia.
  - eapply quiet_of_search; eassumption.
Qed.

(** A pass whose replacements bring in no match of another pattern keeps a
    text free of that pattern. *)
Lemma sub_loop_keeps_quiet (r r2 : re) (repl2 : rmatch -> string) :
  boundary_free r = true ->
  (forall prev m,
     matches r2 prev (m_text m) (m_rest m) [] (m_caps m) ->
     m_text m <> EmptyString /\
     forall skipped rest',
       quiet r (skipped ++ m_text m ++ m_rest m) ->
       quiet r rest' -> quiet r (skipped ++ repl2 m ++ rest')) ->
  forall n prev s, quiet r s -> quiet r (sub_loop n r2 repl2 prev s).
Proof.
  intros B H. induction n as [|n IH]; intros prev s Q; [exact Q|].
  cbn [sub_loop].
  destruct (search r2 prev s) as [[skipped m]|] eqn:E; [|exact Q].
  apply search_sound in E. destruct E as (Hs & M & _).
  destruct (H _ _ M) as [Hne Hq].
  destruct (m_text m) as [|c t] eqn:Ht; [congruence|].
  rewrite <- Ht in *. rewrite Hs in Q. apply Hq; [exact Q|].
  apply IH. rewrite <- append_assoc in Q.
  eapply quiet_suffix; eassumption.
Qed.

Lemma re_sub_quiet (r : re) (repl : rmatch -> string) (s : string) :
  quiet r s -> re_sub r repl s = s.
Proof. intros Q. apply re_sub_no_match, Q. Qed.

Lemma quiet_finditer (r : re) (s : string) :
  quiet r s -> finditer r s = [].
Proof. intros Q. apply finditer_no_match, Q. Qed.

Lemma matches_chr_inv (a : ascii) prev w rest c c' :
  matches (Chr a) prev w rest c c' -> w = String a EmptyString /\ c' = c.
Proof. intros M. inversion M; subst. auto. Qed.

(** A match reaches into a text that starts with a character the match has
    only at its start: it ends before that text. *)
Lemma not_across (a : ascii) (w e b x : string) :
  all_chars (isnt a) w = true ->
  String a w ++ e = b ++ String a x ->
  b <> EmptyString ->
  exists e', b = String a w ++ e'.
Proof.
  intros Hw E Hb.
  destruct (append_eq_append _ _ _ _ E) as [(e0 & -> & _)|(f & Hf & Ew & Ex)];
    [eauto|].
  exfalso. destruct f as [|c f]; [congruence|].
  simpl in Ex. injection Ex as <- _.
  destruct b as [|c b]; [congruence|].
  simpl in Ew. injection Ew as _ ->.
  rewrite all_chars_append in Hw. simpl in Hw.
  unfold isnt in Hw at 2. rewrite Ascii.eqb_refl in Hw. simpl in Hw.
  rewrite andb_false_r in Hw. discriminate.
Qed.

Section InitPass.

Import AddExpertModeInit.

Let start_time : string := "const startTime = Date.now();".
Let log_call : string := "logger.info(".

Lemma init_boundary_free : boundary_free init_pattern = true.
Proof. reflexivity. Qed.

Lemma init_inv prev w rest c' :
  matches init_pattern prev w rest [] c' ->
  exists ws1 ws2 ws3,
    all_chars is_space ws1 = true /\ all_chars is_space ws2 = true /\
    all_chars is_space ws3 = true /\
    w = start_time ++ (ws1 ++ nl ++ ws2 ++ nl ++ ws3) ++ log_call /\
    c' = [(2, log_call); (1, start_time)].
Proof.
  intros M. unfold init_pattern in M. cbn [sequence] in M. invert_matches.
  repeat match goal with
         | H : matches (Chr _) _ _ _ _ _ |- _ =>
             apply matches_chr_inv in H; destruct H as [? ?]
         end.
  subst.
  match goal with
  | |- context [ ?l ++ ?a ++ String "010" EmptyString ++ ?b
                 ++ String "010" EmptyString ++ ?c ++ _ ] =>
      exists a, b, c
  end.
  repeat (split; [assumption|]). split; [|reflexivity].
  unfold start_time, log_call, nl. rewrite ?append_assoc. reflexivity.
Qed.

Lemma space_isnt_c : forall a, is_space a = true -> isnt "c" a = true.
Proof. by_char. Qed.

Lemma space_run (ws1 ws2 ws3 : string) :
  all_chars is_space ws1 = true -> all_chars is_space ws2 = true ->
  all_chars is_space ws3 = true ->
  all_chars is_space (ws1 ++ nl ++ ws2 ++ nl ++ ws3) = true.
Proof.
  intros H1 H2 H3. rewrite !all_chars_append, H1, H2, H3. reflexivity.
Qed.

(** The text of a match has its first character nowhere else. *)
Lemma init_text_c (ws : string) :
  all_chars is_space ws = true ->
  all_chars (isnt "c")
    ("onst startTime = Date.now();" ++ ws ++ log_call) = true.
Proof.
  intros H. rewrite !all_chars_append.
  rewrite (all_chars_impl _ _ _ space_isnt_c H). reflexivity.
Qed.

Lemma init_starts (y : string) :
  starts_match init_pattern y ->
  exists ws t,
    all_chars is_space ws = true /\
    y = start_time ++ ws ++ log_call ++ t /\
    forall t', starts_match init_pattern (start_time ++ ws ++ log_call ++ t').
Proof.
  intros (w & t & c' & -> & M).
  destruct (init_inv _ _ _ _ M) as (ws1 & ws2 & ws3 & H1 & H2 & H3 & Hw & _).
  exists (ws1 ++ nl ++ ws2 ++ nl ++ ws3), t.
  split; [apply space_run; assumption|]. subst w. split.
  - rewrite ?append_assoc. reflexivity.
  - intros t'. exists (start_time ++ (ws1 ++ nl ++ ws2 ++ nl ++ ws3) ++ log_call),
      t', c'.
    split; [rewrite ?append_assoc; reflexivity|].
    eapply matches_context; [exact M | reflexivity].
Qed.

Lemma init_lead (y : string) :
  starts_match init_pattern y -> exists t, y = start_time ++ t.
Proof.
  intros S. destruct (init_starts _ S) as (ws & t & _ & -> & _). eauto.
Qed.

(** The rewritten text is no match: an assignment follows the start time,
    not the logging call. *)
Lemma init_not_at_replacement (z : string) :
  ~ starts_match init_pattern (start_time ++ init_block ++ z).
Proof.
  intros S. destruct (init_starts _ S) as (ws & t & Hws & E & _).
  apply append_cancel_l in E.
  change (init_block ++ z)
    with ("
      " ++ String "c" ("onst expertModeService = new ExpertModeService();
      const requestId = req.id ?? expertModeService.generateRequestId();

      // Create debug info once at the start if expert mode is enabled
      const debugInfo = req.expertMode
        ? expertModeService.createDebugInfo('OPERATION_PLACEHOLDER', requestId, 0)
        : null;

      if (debugInfo) {
        expertModeService.setIntegration(debugInfo, 'puppetserver');
      }

      " ++ z)) in E.
  change (log_call ++ t) with (String "l" ("ogger.info(" ++ t)) in E.
  destruct (run_unique is_space (nl ++ "      ") ws "c" "l" _ _
              eq_refl Hws eq_refl eq_refl E)
    as [_ E'].
  discriminate.
Qed.

Lemma init_replacement_quiet (skipped old rest : string) :
  (forall a b, skipped = a ++ b -> b <> EmptyString ->
               ~ starts_match init_pattern (b ++ old)) ->
  quiet init_pattern rest ->
  quiet init_pattern
    (skipped ++ (start_time ++ init_block ++ log_call) ++ rest).
Proof.
  intros Hleft Q.
  apply quiet_app; [reflexivity | |].
  { intros a b E Hb S. apply (Hleft a b E Hb).
    destruct (init_starts _ S) as (ws & t & Hws & Ey & Hany).
    symmetry in Ey.
    change (start_time ++ ws ++ log_call ++ t)
      with (String "c" ("onst startTime = Date.now();" ++ ws ++ log_call ++ t))
      in Ey.
    replace (String "c" ("onst startTime = Date.now();" ++ ws ++ log_call ++ t))
      with (String "c" ("onst startTime = Date.now();" ++ ws ++ log_call) ++ t)
      in Ey by (simpl; rewrite ?append_assoc; reflexivity).
    destruct (not_across "c" _ _ _ _ (init_text_c _ Hws) Ey Hb) as [e' ->].
    replace ((String "c" ("onst startTime = Date.now();" ++ ws ++ log_call)
              ++ e') ++ old)
      with (start_time ++ ws ++ log_call ++ (e' ++ old))
      by (unfold start_time; simpl; rewrite ?append_assoc; reflexivity).
    apply Hany. }
  rewrite !append_assoc.
  change (start_time ++ init_block ++ log_call ++ rest)
    with (String "c" ("onst startTime = Date.now();" ++ init_block ++ log_call
                      ++ rest)).
  apply quiet_cons; [reflexivity | |].
  { apply (init_not_at_replacement (log_call ++ rest)). }
  rewrite <- !append_assoc.
  apply (quiet_literal _ start_time); [reflexivity | apply init_lead
                                      | reflexivity | assumption].
Qed.

Lemma init_sub_quiet (n : nat) :
  forall prev s,
    String.length s < n ->
    quiet init_pattern
      (sub_loop n init_pattern (fun m => grp 1 m ++ init_block ++ grp 2 m)
         prev s).
Proof.
  apply sub_loop_quiet; [reflexivity|].
  intros prev m M.
  destruct (init_inv _ _ _ _ M) as (ws1 & ws2 & ws3 & _ & _ & _ & Ht & Hc).
  split; [rewrite Ht; discriminate|].
  intros skipped rest' Hleft Q.
  unfold grp. rewrite Hc. cbn [group Nat.eqb].
  apply init_replacement_quiet with (old := m_text m ++ m_rest m);
    assumption.
Qed.

End InitPass.

Lemma output_of_ext (f g : rmatch -> string) (ps : list piece) :
  Forall (fun p => match p with Kept _ => True | Hit m => f m = g m end) ps ->
  output_of f ps = output_of g ps.
Proof.
  induction 1 as [|p ps Hp Hps IH]; [reflexivity|].
  destruct p as [u|m]; simpl; rewrite IH; [reflexivity|].
  rewrite Hp. reflexivity.
Qed.

(** X1. [add_expert_mode_init] puts the initialisation block in the place of
    the whitespace between every start time and the logging call that
    follows it after an empty line, and keeps the rest of the text.  Its
    pattern matches nowhere in the result: the start time is now followed
    by the block.  Running the function again changes nothing. *)
Theorem init_block_is_inserted_once (content : string) :
  let result := AddExpertModeInit.add_expert_mode_init content in
  (exists ps,
     source_of ps = content /\
     output_of (fun _ => "const startTime = Date.now();"
                         ++ AddExpertModeInit.init_block ++ "logger.info(")
       ps = result /\
     hits_of 0 ps = finditer AddExpertModeInit.init_pattern content /\
     Forall init_site ps) /\
  finditer AddExpertModeInit.init_pattern result = [] /\
  AddExpertModeInit.add_expert_mode_init result = result.
Proof.
  intros result.
  assert (Q : quiet AddExpertModeInit.init_pattern result)
    by (apply init_sub_quiet; lia).
  split; [|split].
  - destruct (re_sub_pieces AddExpertModeInit.init_pattern
                (fun m => grp 1 m ++ AddExpertModeInit.init_block ++ grp 2 m)
                content)
      as (ps & Hsrc & Hout & Hhits & Hall).
    exists ps. split; [assumption|]. split; [|split; [assumption|]].
    + unfold result, AddExpertModeInit.add_expert_mode_init.
      rewrite <- Hout. symmetry. apply output_of_ext.
      eapply Forall_impl; [|exact Hall].
      intros [u|m]; simpl; [trivial|]. intros [prev M].
      destruct (init_inv _ _ _ _ M) as (ws1 & ws2 & ws3 & _ & _ & _ & _ & Hc).
      unfold grp. rewrite Hc. reflexivity.
    + eapply Forall_impl; [|exact Hall].
      intros [u|m]; simpl; [trivial|]. intros [prev M].
      destruct (init_inv _ _ _ _ M) as (ws1 & ws2 & ws3 & H1 & H2 & H3 & Ht & _).
      exists ws1, ws2, ws3. repeat (split; [assumption|]).
      rewrite Ht, ?append_assoc. reflexivity.
  - apply quiet_finditer. exact Q.
  - apply re_sub_quiet. exact Q.
Qed.

(** ** The early returns of fix-all-error-responses.py *)

Lemma guard_boundary_free (head : string) :
  boundary_free (guard_pattern head) = true.
Proof.
  unfold guard_pattern. cbn [sequence boundary_free].
  assert (H : forall s, boundary_free (lit s) = true)
    by (induction s; simpl; auto).
  rewrite !H. reflexivity.
Qed.

Lemma guard_inv (head : string) prev w rest c' :
  matches (guard_pattern head) prev w rest [] c' ->
  exists g1 g2 ws,
    all_chars (isnt "}") g1 = true /\ all_chars (isnt "}") g2 = true /\
    all_chars is_space ws = true /\
    w = (head ++ g1 ++ "logger.warn" ++ g2 ++ "}") ++ ws ++ "res.status" /\
    c' = [(1, head ++ g1 ++ "logger.warn" ++ g2 ++ "}")].
Proof.
  intros M. unfold guard_pattern in M. cbn [sequence] in M. invert_matches.
  subst.
  match goal with
  | H1 : all_chars (isnt "}") ?a = true, H2 : all_chars (isnt "}") ?b = true,
    H3 : all_chars is_space ?c = true
    |- context [ (head ++ ?a ++ "logger.warn" ++ ?b ++ "}") ++ ?c ++ _ ] =>
      exists a, b, c
  end.
  repeat (split; [assumption|]). split; reflexivity.
Qed.

Section Guards.

Variable head : string.
Hypothesis head_no_brace : all_chars (isnt "}") head = true.

(** The text of a match: no closing brace before the one that ends the
    guard, then whitespace and the call. *)
Lemma guard_starts (y : string) :
  starts_match (guard_pattern head) y ->
  exists body ws t,
    all_chars (isnt "}") body = true /\ all_chars is_space ws = true /\
    y = (body ++ "}" ++ ws ++ "res.status") ++ t /\
    (exists t0, body = head ++ t0) /\
    forall t', starts_match (guard_pattern head)
                 ((body ++ "}" ++ ws ++ "res.status") ++ t').
Proof.
  intros (w & t & c' & -> & M).
  destruct (guard_inv _ _ _ _ _ M) as (g1 & g2 & ws & H1 & H2 & H3 & Hw & _).
  exists (head ++ g1 ++ "logger.warn" ++ g2), ws, t.
  assert (E : w = (head ++ g1 ++ "logger.warn" ++ g2) ++ "}" ++ ws
                  ++ "res.status")
    by (subst w; rewrite ?append_assoc; reflexivity).
  split; [|split; [assumption|split; [|split]]].
  - rewrite !all_chars_append, head_no_brace, H1, H2. reflexivity.
  - rewrite E. reflexivity.
  - eauto.
  - intros t'. rewrite <- E. exists w, t', c'. split; [reflexivity|].
    eapply matches_context; [exact M | apply guard_boundary_free].
Qed.

Lemma guard_lead (y : string) :
  starts_match (guard_pattern head) y -> exists t, y = head ++ t.
Proof.
  intros S.
  destruct (guard_starts _ S) as (body & ws & t & _ & _ & -> & [t0 ->] & _).
  rewrite ?append_assoc. eauto.
Qed.

Variable block : string.

(** The inserted text starts with whitespace and goes on with something
    else than the call. *)
Hypothesis block_start :
  exists ws0 a tl,
    block = ws0 ++ String a tl /\ all_chars is_space ws0 = true /\
    is_space a = false /\ a <> "r"%char.
Hypothesis block_clash : clash head ("}" ++ block) = true.

(** A match that starts before the closing brace of a guard whose early
    return has been rewritten ends before that brace. *)
Lemma guard_within (x z : string) :
  starts_match (guard_pattern head) (x ++ "}" ++ block ++ z) ->
  exists w e,
    x = w ++ e /\ w <> EmptyString /\
    (exists w1 w2, w = w1 ++ String "}" w2) /\
    forall t', starts_match (guard_pattern head) (w ++ t').
Proof.
  intros S.
  destruct (guard_starts _ S) as (body & ws & t & Hb & Hws & E & _ & Hany).
  rewrite !append_assoc in E. simpl in E. symmetry in E.
  destruct (first_brace _ _ _ _ Hb E) as [[-> E']|(x2 & -> & E')].
  - exfalso. destruct block_start as (ws0 & a & tl & -> & H0 & Ha & Hr).
    rewrite append_assoc in E'. simpl in E'.
    change ("res.status" ++ t) with (String "r" ("es.status" ++ t)) in E'.
    destruct (run_unique is_space _ _ "r" a _ _ Hws H0 eq_refl Ha E')
      as [_ E''].
    congruence.
  - change (String "r" (String "e" (String "s" (String "." (String "s"
             (String "t" (String "a" (String "t" (String "u"
             (String "s" t))))))))))
      with ("res.status" ++ t) in E'.
    rewrite <- append_assoc in E'.
    destruct (append_eq_append _ _ _ _ E') as [(e & -> & _)|(e & He & Ee & Et)].
    + exists (body ++ "}" ++ ws ++ "res.status"), e.
      split; [rewrite ?append_assoc; reflexivity|].
      split; [destruct body; discriminate|].
      split; [exists body, (ws ++ "res.status"); reflexivity|]. exact Hany.
    + exfalso. destruct e as [|c e]; [congruence|].
      simpl in Et. injection Et as <- _.
      assert (Hq : all_chars (isnt "}") (ws ++ "res.status") = true).
      { rewrite all_chars_append.
        rewrite (all_chars_impl _ _ _ space_isnt_brace Hws). reflexivity. }
      eapply no_brace_in; [exact Hq | exact Ee].
Qed.

Lemma guard_tail_quiet (z : string) :
  quiet (guard_pattern head) z ->
  quiet (guard_pattern head) ("}" ++ block ++ z).
Proof.
  intros Q.
  replace ("}" ++ block ++ z) with (("}" ++ block) ++ z)
    by (rewrite ?append_assoc; reflexivity).
  apply (quiet_literal _ head); [apply guard_boundary_free | apply guard_lead
                                | exact block_clash | exact Q].
Qed.

(** The rewriting of an early return brings in no match of the pattern
    when no match lies in the text before the closing brace of its
    guard. *)
Lemma guard_replacement_quiet (x old z : string) :
  (forall a b, x = a ++ b -> b <> EmptyString ->
     forall w e, b = w ++ e -> (exists w1 w2, w = w1 ++ String "}" w2) ->
                 ~ starts_match (guard_pattern head) (w ++ e ++ old)) ->
  quiet (guard_pattern head) z ->
  quiet (guard_pattern head) (x ++ "}" ++ block ++ z).
Proof.
  intros H Q. apply quiet_app; [apply guard_boundary_free | |].
  - intros a b E Hb S.
    destruct (guard_within _ _ S) as (w & e & Eb & _ & Hbr & Hany).
    apply (H a b E Hb w e Eb Hbr). apply Hany.
  - apply guard_tail_quiet. exact Q.
Qed.

(** A turn on the guards that open with [head2], inserting [block]. *)
Variable head2 : string.
Hypothesis head2_no_brace : all_chars (isnt "}") head2 = true.
Variable repl2 : rmatch -> string.
Hypothesis repl2_inserts : forall m, repl2 m = grp 1 m ++ block.

Lemma guard_turn (prev : option ascii) (m : rmatch) :
  matches (guard_pattern head2) prev (m_text m) (m_rest m) [] (m_caps m) ->
  exists body ws,
    all_chars (isnt "}") body = true /\
    m_text m = body ++ "}" ++ ws ++ "res.status" /\
    repl2 m = body ++ "}" ++ block.
Proof.
  intros M.
  destruct (guard_inv _ _ _ _ _ M) as (g1 & g2 & ws & H1 & H2 & _ & Ht & Hc).
  exists (head2 ++ g1 ++ "logger.warn" ++ g2), ws. split; [|split].
  - rewrite !all_chars_append, head2_no_brace, H1, H2. reflexivity.
  - rewrite Ht, ?append_assoc. reflexivity.
  - rewrite repl2_inserts. unfold grp. rewrite Hc. cbn [group Nat.eqb].
    rewrite ?append_assoc. reflexivity.
Qed.

(** The turn keeps a text free of matches of [guard_pattern head]. *)
Lemma guard_keeps_quiet (n : nat) :
  forall prev s,
    quiet (guard_pattern head) s ->
    quiet (guard_pattern head) (sub_loop n (guard_pattern head2) repl2 prev s).
Proof.
  apply sub_loop_keeps_quiet; [apply guard_boundary_free|].
  intros prev m M.
  destruct (guard_turn _ _ M) as (body & ws & Hb & Ht & Hr).
  split; [rewrite Ht; destruct body; discriminate|].
  intros skipped rest' Q Q'. rewrite Hr, Ht in *.
  replace (skipped ++ (body ++ "}" ++ block) ++ rest')
    with ((skipped ++ body) ++ "}" ++ block ++ rest')
    by (rewrite ?append_assoc; reflexivity).
  apply guard_replacement_quiet
    with (old := "}" ++ ws ++ "res.status" ++ m_rest m); [|exact Q'].
  intros a b E Hne w e Eb _.
  apply (quiet_no_start _ a); [apply guard_boundary_free|].
  replace (a ++ w ++ e ++ "}" ++ ws ++ "res.status" ++ m_rest m)
    with (skipped ++ (body ++ "}" ++ ws ++ "res.status") ++ m_rest m);
    [exact Q|].
  rewrite <- (append_assoc w e), <- Eb.
  rewrite <- (append_assoc a b), <- E.
  rewrite ?append_assoc. reflexivity.
Qed.

End Guards.

(** A turn leaves no match of its own pattern. *)
Lemma guard_sub_quiet (head block : string) (repl : rmatch -> string) :
  all_chars (isnt "}") head = true ->
  (exists ws0 a tl,
     block = ws0 ++ String a tl /\ all_chars is_space ws0 = true /\
     is_space a = false /\ a <> "r"%char) ->
  clash head ("}" ++ block) = true ->
  (forall m, repl m = grp 1 m ++ block) ->
  forall n prev s,
    String.length s < n ->
    quiet (guard_pattern head) (sub_loop n (guard_pattern head) repl prev s).
Proof.
  intros Hh Hstart Hclash Hrepl.
  apply sub_loop_quiet; [apply guard_boundary_free|].
  intros prev m M.
  destruct (guard_turn block head Hh repl Hrepl _ _ M)
    as (body & ws & Hb & Ht & Hr).
  split; [rewrite Ht; destruct body; discriminate|].
  intros skipped rest' Hleft Q'. rewrite Hr.
  replace (skipped ++ (body ++ "}" ++ block) ++ rest')
    with ((skipped ++ body) ++ "}" ++ block ++ rest')
    by (rewrite ?append_assoc; reflexivity).
  apply guard_replacement_quiet
    with (old := "}" ++ ws ++ "res.status" ++ m_rest m);
    [assumption | assumption | assumption | | exact Q'].
  intros a b E Hne w e Eb (w1 & w2 & Hw).
  destruct (append_eq_append _ _ _ _ E) as [(e1 & _ & Ebody)|(e1 & He1 & Es & Ebb)].
  - intros _. apply (no_brace_in body (e1 ++ w1) (w2 ++ e) Hb).
    rewrite Ebody, Eb, Hw, ?append_assoc. reflexivity.
  - replace (w ++ e ++ "}" ++ ws ++ "res.status" ++ m_rest m)
      with (e1 ++ m_text m ++ m_rest m).
    + apply (Hleft a e1); assumption.
    + rewrite Ht, <- (append_assoc w e), <- Eb, Ebb.
      rewrite ?append_assoc. reflexivity.
Qed.

Section EarlyReturns.

Import FixAllErrorResponses.

Let not_configured : string := "Puppetserver integration is not configured".
Let not_initialized : string := "Puppetserver integration is not initialized".
Let head1 : string := "if (!puppetserverService) {".
Let head2 : string := "if (!puppetserverService.isInitialized()) {".

Lemma debug_collection_start (message : string) :
  exists ws0 a tl,
    debug_collection message = ws0 ++ String a tl /\
    all_chars is_space ws0 = true /\ is_space a = false /\ a <> "r"%char.
Proof.
  exists (nl ++ nl ++ "        "), "i"%char.
  eexists. split; [reflexivity|]. repeat split. discriminate.
Qed.

Lemma early_returns_quiet (content : string) :
  quiet pattern1 (add_debug_to_early_returns content) /\
  quiet pattern2 (add_debug_to_early_returns content).
Proof.
  unfold add_debug_to_early_returns, re_sub. split.
  - apply (guard_keeps_quiet head1 eq_refl (debug_collection not_initialized)
             (debug_collection_start _) eq_refl head2 eq_refl
             add_debug_collection2 (fun m => eq_refl)).
    apply (guard_sub_quiet head1 (debug_collection not_configured)
             add_debug_collection eq_refl (debug_collection_start _) eq_refl
             (fun m => eq_refl)).
    lia.
  - apply (guard_sub_quiet head2 (debug_collection not_initialized)
             add_debug_collection2 eq_refl (debug_collection_start _) eq_refl
             (fun m => eq_refl)).
    lia.
Qed.

Lemma guard_hit_instrumented (head message : string)
      (repl : rmatch -> string) (p : piece) :
  (forall m, repl m = grp 1 m ++ debug_collection message) ->
  hit_of (guard_pattern head) p -> guard_instrumented head message repl p.
Proof.
  intros Hrepl. destruct p as [u|m]; simpl; [trivial|].
  intros [prev M].
  destruct (guard_inv _ _ _ _ _ M) as (g1 & g2 & ws & H1 & H2 & H3 & Ht & Hc).
  exists g1, g2, ws. cbv zeta.
  split; [exact H1|]. split; [exact H2|]. split; [exact H3|].
  split; [exact Ht|].
  rewrite Hrepl. unfold grp. rewrite Hc. reflexivity.
Qed.

End EarlyReturns.

(** X2. [FixAllErrorResponses.add_debug_to_early_returns] makes two turns, one
    for each guard.  A turn keeps the guard block and the response call of
    every match and puts the collection of a warning in the place of the
    whitespace between them.  After the two turns neither pattern matches
    anywhere, so running the function again changes nothing. *)
Theorem early_returns_are_instrumented_once (content : string) :
  let first_turn :=
    re_sub FixAllErrorResponses.pattern1
      FixAllErrorResponses.add_debug_collection content in
  let result := FixAllErrorResponses.add_debug_to_early_returns content in
  (exists ps,
     source_of ps = content /\
     output_of FixAllErrorResponses.add_debug_collection ps = first_turn /\
     hits_of 0 ps = finditer FixAllErrorResponses.pattern1 content /\
     Forall (guard_instrumented "if (!puppetserverService) {"
               "Puppetserver integration is not configured"
               FixAllErrorResponses.add_debug_collection) ps) /\
  (exists ps,
     source_of ps = first_turn /\
     output_of FixAllErrorResponses.add_debug_collection2 ps = result /\
     hits_of 0 ps = finditer FixAllErrorResponses.pattern2 first_turn /\
     Forall (guard_instrumented "if (!puppetserverService.isInitialized()) {"
               "Puppetserver integration is not initialized"
               FixAllErrorResponses.add_debug_collection2) ps) /\
  finditer FixAllErrorResponses.pattern1 result = [] /\
  finditer FixAllErrorResponses.pattern2 result = [] /\
  FixAllErrorResponses.add_debug_to_early_returns result = result.
Proof.
  intros first_turn result.
  destruct (early_returns_quiet content) as [Q1 Q2].
  split; [|split; [|split; [|split]]].
  - destruct (re_sub_pieces FixAllErrorResponses.pattern1
                FixAllErrorResponses.add_debug_collection content)
      as (ps & Hsrc & Hout & Hhits & Hall).
    exists ps. repeat split; try assumption.
    eapply Forall_impl; [|exact Hall].
    intros p. apply guard_hit_instrumented. reflexivity.
  - destruct (re_sub_pieces FixAllErrorResponses.pattern2
                FixAllErrorResponses.add_debug_collection2 first_turn)
      as (ps & Hsrc & Hout & Hhits & Hall).
    exists ps. repeat split; try assumption.
    eapply Forall_impl; [|exact Hall].
    intros p. apply guard_hit_instrumented. reflexivity.
  - apply quiet_finditer. exact Q1.
  - apply quiet_finditer. exact Q2.
  - unfold FixAllErrorResponses.add_debug_to_early_returns.
    fold result. rewrite (re_sub_quiet _ _ _ Q1). apply re_sub_quiet, Q2.
Qed.

(** ** Template literals *)

Lemma last_char (u v : string) (a b : ascii) :
  u ++ String a EmptyString = v ++ String b EmptyString -> a = b.
Proof.
  revert v. induction u as [|c u IH]; intros [|d v] E; simpl in E.
  - congruence.
  - injection E as _ E. destruct v; discriminate.
  - injection E as _ E. destruct u; discriminate.
  - injection E as _ E. eauto.
Qed.

Section Interpolations.

Import FixLintErrors.

Variable r : re.
Hypothesis r_free : boundary_free r = true.
Hypothesis r_inv :
  forall prev w rest c',
    matches r prev w rest [] c' ->
    exists inner,
      all_chars (isnt "}") inner = true /\
      (forall x, inner <> x ++ ")") /\
      w = "${" ++ inner ++ "}" /\ c' = [(1, inner)].

Lemma interp_starts (y : string) :
  starts_match r y ->
  exists inner t,
    all_chars (isnt "}") inner = true /\
    (forall x, inner <> x ++ ")") /\
    y = ("${" ++ inner ++ "}") ++ t /\
    forall t', starts_match r (("${" ++ inner ++ "}") ++ t').
Proof.
  intros (w & t & c' & -> & M).
  destruct (r_inv _ _ _ _ M) as (inner & H1 & H2 & -> & _).
  exists inner, t. repeat (split; [assumption || reflexivity|]).
  intros t'. exists ("${" ++ inner ++ "}"), t', c'. split; [reflexivity|].
  eapply matches_context; eassumption.
Qed.

Lemma interp_lead (y : string) :
  starts_match r y -> exists t, y = "${" ++ t.
Proof.
  intros S. destruct (interp_starts _ S) as (inner & t & _ & _ & -> & _).
  simpl. eauto.
Qed.

(** No match ends at the closing brace of a wrapped interpolation: a
    parenthesis comes before it. *)
Lemma interp_not_closed (x z : string) :
  all_chars (isnt "}") x = true -> ~ starts_match r (x ++ ")}" ++ z).
Proof.
  intros Hx S.
  destruct (interp_starts _ S) as (inner & t & Hi & Hend & E & _).
  replace (x ++ ")}" ++ z) with ((x ++ ")") ++ String "}" z) in E
    by (rewrite ?append_assoc; reflexivity).
  replace (("${" ++ inner ++ "}") ++ t) with (("${" ++ inner) ++ String "}" t)
    in E by (simpl; rewrite ?append_assoc; reflexivity).
  assert (Hx' : all_chars (isnt "}") (x ++ ")") = true)
    by (rewrite all_chars_append, Hx; reflexivity).
  assert (Hi' : all_chars (isnt "}") ("${" ++ inner) = true)
    by (simpl; exact Hi).
  destruct (run_unique _ _ _ "}" "}" _ _ Hx' Hi' eq_refl eq_refl E) as [E' _].
  destruct x as [|c1 [|c2 x]]; simpl in E'; try discriminate.
  injection E' as _ _ E'. apply (Hend x). congruence.
Qed.

(** A match that starts before a wrapped interpolation ends before it. *)
Lemma interp_within (x inner0 z : string) :
  all_chars (isnt "}") inner0 = true ->
  starts_match r (x ++ ("${String(" ++ inner0 ++ ")}") ++ z) ->
  exists w e, x = w ++ e /\ forall t', starts_match r (w ++ t').
Proof.
  intros H0 S.
  destruct (all_chars (isnt "}") x) eqn:Hx.
  - exfalso. revert S.
    replace (x ++ ("${String(" ++ inner0 ++ ")}") ++ z)
      with ((x ++ "${String(" ++ inner0) ++ ")}" ++ z)
      by (rewrite ?append_assoc; simpl; rewrite ?append_assoc; reflexivity).
    apply interp_not_closed.
    rewrite !all_chars_append, Hx, H0. reflexivity.
  - destruct (split_at_first _ _ Hx) as (x1 & x2 & -> & Hx1).
    destruct (interp_starts _ S) as (inner & t & Hi & _ & E & Hany).
    replace (("${" ++ inner ++ "}") ++ t) with (("${" ++ inner) ++ String "}" t)
      in E by (simpl; rewrite ?append_assoc; reflexivity).
    rewrite append_assoc in E. simpl in E.
    assert (Hi' : all_chars (isnt "}") ("${" ++ inner) = true)
      by (simpl; exact Hi).
    destruct (run_unique _ _ _ "}" "}" _ _ Hx1 Hi' eq_refl eq_refl E) as [E' _].
    exists ("${" ++ inner ++ "}"), x2. split; [|exact Hany].
    rewrite E'. simpl. rewrite ?append_assoc. reflexivity.
Qed.

Lemma interp_replacement_quiet (x inner0 old z : string) :
  all_chars (isnt "}") inner0 = true ->
  (forall a b, x = a ++ b -> b <> EmptyString ->
               ~ starts_match r (b ++ old)) ->
  quiet r z ->
  quiet r (x ++ ("${String(" ++ inner0 ++ ")}") ++ z).
Proof.
  intros H0 H Q. apply quiet_app; [exact r_free | |].
  - intros a b E Hb S.
    destruct (interp_within _ _ _ H0 S) as (w & e & -> & Hany).
    apply (H a _ E Hb). rewrite append_assoc. apply Hany.
  - replace (("${String(" ++ inner0 ++ ")}") ++ z)
      with (("${String(" ++ inner0) ++ ")}" ++ z)
      by (rewrite ?append_assoc; simpl; rewrite ?append_assoc; reflexivity).
    apply quiet_app; [exact r_free | |].
    + intros a b E Hb. apply interp_not_closed.
      apply (all_chars_suffix _ a). rewrite <- E. simpl. exact H0.
    + apply (quiet_literal _ "${" ")}"); [exact r_free | apply interp_lead
                                         | reflexivity | exact Q].
Qed.

Lemma interp_sub_quiet (n : nat) :
  forall prev s,
    String.length s < n -> quiet r (sub_loop n r wrap_string prev s).
Proof.
  apply sub_loop_quiet; [exact r_free|].
  intros prev m M.
  destruct (r_inv _ _ _ _ M) as (inner & Hi & _ & Ht & Hc).
  split; [rewrite Ht; discriminate|].
  intros skipped rest' Hleft Q.
  unfold wrap_string, grp. rewrite Hc. cbn [group Nat.eqb].
  apply interp_replacement_quiet with (old := m_text m ++ m_rest m);
    assumption.
Qed.

(** A turn that wraps the matches of another pattern. *)
Variable r2 : re.
Hypothesis r2_inv :
  forall prev w rest c',
    matches r2 prev w rest [] c' ->
    exists inner,
      all_chars (isnt "}") inner = true /\
      w = "${" ++ inner ++ "}" /\ c' = [(1, inner)].

Lemma interp_keeps_quiet (n : nat) :
  forall prev s, quiet r s -> quiet r (sub_loop n r2 wrap_string prev s).
Proof.
  apply sub_loop_keeps_quiet; [exact r_free|].
  intros prev m M.
  destruct (r2_inv _ _ _ _ M) as (inner & Hi & Ht & Hc).
  split; [rewrite Ht; discriminate|].
  intros skipped rest' Q Q'.
  unfold wrap_string, grp. rewrite Hc. cbn [group Nat.eqb].
  apply interp_replacement_quiet with (old := m_text m ++ m_rest m);
    [assumption | | assumption].
  intros a b E Hb. apply (quiet_no_start _ a); [exact r_free|].
  rewrite <- append_assoc, <- E. exact Q.
Qed.

End Interpolations.

Section TemplateLiterals.

Import FixLintErrors.

Lemma length_inv prev w rest c' :
  matches length_pattern prev w rest [] c' ->
  exists object,
    object <> EmptyString /\ all_chars (isnt "}") object = true /\
    w = "${" ++ object ++ ".length}" /\ c' = [(1, object ++ ".length")].
Proof.
  intros M. unfold length_pattern in M. cbn [sequence] in M.
  invert_matches. subst.
  match goal with
  | H : all_chars (isnt "}") ?g = true |- _ => exists g
  end.
  repeat (split; [assumption|]). split; [|reflexivity].
  simpl. rewrite ?append_assoc. reflexivity.
Qed.

Lemma counter_inv prev w rest c' :
  matches counter_pattern prev w rest [] c' ->
  exists name,
    In name counters /\ w = "${" ++ name ++ "}" /\ c' = [(1, name)].
Proof.
  intros M. unfold counter_pattern in M. cbn [sequence] in M.
  invert_matches.
  repeat match goal with
         | H : matches (Alt _ _) _ _ _ _ _ |- _ =>
             apply matches_alt_inv in H; destruct H as [H|H]
         end;
    match goal with
    | H : matches (lit _) _ _ _ _ _ |- _ =>
        apply matches_lit_inv in H; destruct H as [-> ->]
    end;
    subst; eexists; (split; [|split; reflexivity]); simpl; auto 10.
Qed.

Lemma length_interp prev w rest c' :
  matches length_pattern prev w rest [] c' ->
  exists inner,
    all_chars (isnt "}") inner = true /\
    (forall x, inner <> x ++ ")") /\
    w = "${" ++ inner ++ "}" /\ c' = [(1, inner)].
Proof.
  intros M. destruct (length_inv _ _ _ _ M) as (g & _ & Hg & -> & ->).
  exists (g ++ ".length"). split; [|split; [|split]].
  - rewrite all_chars_append, Hg. reflexivity.
  - intros x E.
    replace (g ++ ".length") with ((g ++ ".lengt") ++ "h") in E
      by (rewrite ?append_assoc; reflexivity).
    apply last_char in E. discriminate.
  - rewrite ?append_assoc. reflexivity.
  - reflexivity.
Qed.

Lemma counter_interp prev w rest c' :
  matches counter_pattern prev w rest [] c' ->
  exists inner,
    all_chars (isnt "}") inner = true /\
    (forall x, inner <> x ++ ")") /\
    w = "${" ++ inner ++ "}" /\ c' = [(1, inner)].
Proof.
  intros M. destruct (counter_inv _ _ _ _ M) as (name & Hin & -> & ->).
  exists name. split; [|split; [|split; reflexivity]].
  - simpl in Hin.
    repeat (destruct Hin as [<-|Hin]; [reflexivity|]). contradiction.
  - intros x E. simpl in Hin.
    repeat (destruct Hin as [<-|Hin];
            [ match type of E with
              | ?s = _ =>
                  let n := eval vm_compute in (String.length s - 1) in
                  let a := eval vm_compute in (substring 0 n s) in
                  let b := eval vm_compute in (substring n 1 s) in
                  change s with (a ++ b) in E
              end;
              apply last_char in E; discriminate |]).
    contradiction.
Qed.

Lemma template_literals_quiet (content : string) :
  quiet length_pattern (fix_template_literals content) /\
  quiet counter_pattern (fix_template_literals content).
Proof.
  unfold fix_template_literals. cbn [fold_left fst snd]. unfold re_sub.
  split.
  - apply (interp_keeps_quiet length_pattern eq_refl length_interp
             counter_pattern).
    + intros prev w rest c' M.
      destruct (counter_interp _ _ _ _ M) as (inner & H1 & _ & H2 & H3).
      eauto.
    + apply (interp_sub_quiet length_pattern eq_refl length_interp). lia.
  - apply (interp_sub_quiet counter_pattern eq_refl counter_interp). lia.
Qed.

End TemplateLiterals.

(** X3. [fix_template_literals] wraps in [String(...)] every interpolation
    that ends with [.length], then every interpolation of a counter alone,
    and keeps the rest of the text.  Neither pattern matches in the result:
    running the function again changes nothing. *)
Theorem template_literals_are_wrapped_once (content : string) :
  let first_turn :=
    re_sub FixLintErrors.length_pattern FixLintErrors.wrap_string content in
  let result := FixLintErrors.fix_template_literals content in
  (exists ps,
     source_of ps = content /\
     output_of FixLintErrors.wrap_string ps = first_turn /\
     hits_of 0 ps = finditer FixLintErrors.length_pattern content /\
     Forall length_wrapped ps) /\
  (exists ps,
     source_of ps = first_turn /\
     output_of FixLintErrors.wrap_string ps = result /\
     hits_of 0 ps = finditer FixLintErrors.counter_pattern first_turn /\
     Forall counter_wrapped ps) /\
  finditer FixLintErrors.length_pattern result = [] /\
  finditer FixLintErrors.counter_pattern result = [] /\
  FixLintErrors.fix_template_literals result = result.
Proof.
  intros first_turn result.
  destruct (template_literals_quiet content) as [Q1 Q2].
  split; [|split; [|split; [|split]]].
  - destruct (re_sub_pieces FixLintErrors.length_pattern
                FixLintErrors.wrap_string content)
      as (ps & Hsrc & Hout & Hhits & Hall).
    exists ps. repeat split; try assumption.
    eapply Forall_impl; [|exact Hall].
    intros [u|m]; simpl; [trivial|]. intros [prev M].
    destruct (length_inv _ _ _ _ M) as (g & Hne & Hg & Ht & Hc).
    exists g. repeat (split; [assumption|]).
    unfold FixLintErrors.wrap_string, grp. rewrite Hc. cbn [group Nat.eqb].
    rewrite ?append_assoc. reflexivity.
  - destruct (re_sub_pieces FixLintErrors.counter_pattern
                FixLintErrors.wrap_string first_turn)
      as (ps & Hsrc & Hout & Hhits & Hall).
    exists ps. repeat split; try assumption.
    eapply Forall_impl; [|exact Hall].
    intros [u|m]; simpl; [trivial|]. intros [prev M].
    destruct (counter_inv _ _ _ _ M) as (name & Hin & Ht & Hc).
    exists name. repeat (split; [assumption|]).
    unfold FixLintErrors.wrap_string, grp. rewrite Hc. reflexivity.
  - apply quiet_finditer. exact Q1.
  - apply quiet_finditer. exact Q2.
  - unfold FixLintErrors.fix_template_literals. cbn [fold_left fst snd].
    change (FixLintErrors.fix_template_literals content) with result.
    rewrite (re_sub_quiet _ _ _ Q1). apply re_sub_quiet, Q2.
Qed.

(** ** Texts that survive a replacement *)






Section RouteLogging.

Import AddLoggingToRoutes.








End RouteLogging.



(** ** Scripts that rewrite a file *)




(** ** The lint-fix run goes on after a file it cannot read *)

Section LintRun.

Import FixLintErrors.




End LintRun.



(** ** The route report *)




(** ** Nullish coalescing *)

Lemma matches_wordb_inv prev w rest c c' :
  matches Wordb prev w rest c c' ->
  w = EmptyString /\ c' = c /\
  xorb (is_word_before prev) (is_word_at rest) = true.
Proof. intros M. inversion M; subst. auto. Qed.

Lemma or_prefix_inv (t : re) (ts : list re) prev w rest c' :
  matches (sequence (FixLintErrors.or_prefix ++ t :: ts)) prev w rest [] c' ->
  exists name ws1 ws2 w' prev',
    name <> EmptyString /\ all_chars is_word name = true /\
    all_chars is_space ws1 = true /\ all_chars is_space ws2 = true /\
    w = name ++ ws1 ++ "||" ++ ws2 ++ w' /\
    matches (sequence (t :: ts)) prev' w' rest [(1, name)] c'.
Proof.
  intros M. unfold FixLintErrors.or_prefix in M.
  cbn [app] in M.
  change (sequence (Grp 1 (plus word) :: Star space :: lit "||"
                    :: Star space :: t :: ts))
    with (Cat (Grp 1 (plus word))
            (Cat (Star space)
               (Cat (lit "||") (Cat (Star space) (sequence (t :: ts))))))
    in M.
  apply matches_cat_inv in M. destruct M as (w1 & w2 & c1 & -> & M1 & M).
  apply matches_grp_inv in M1. destruct M1 as (c0 & -> & M1).
  apply matches_plus_cls_inv in M1. destruct M1 as (Hne & Hw & ->).
  apply matches_cat_inv in M. destruct M as (w3 & w4 & c2 & -> & M2 & M).
  apply matches_star_cls_inv in M2. destruct M2 as [Hs1 ->].
  apply matches_cat_inv in M. destruct M as (w5 & w6 & c3 & -> & M3 & M).
  apply matches_lit_inv in M3. destruct M3 as [-> ->].
  apply matches_cat_inv in M. destruct M as (w7 & w8 & c4 & -> & M4 & M).
  apply matches_star_cls_inv in M4. destruct M4 as [Hs2 ->].
  exists w1, w3, w7, w8. eexists. repeat (split; [assumption|]).
  split; [reflexivity | exact M].
Qed.

Lemma or_zero_inv prev w rest c' :
  matches FixLintErrors.or_zero prev w rest [] c' ->
  exists name ws1 ws2,
    name <> EmptyString /\ all_chars is_word name = true /\
    all_chars is_space ws1 = true /\ all_chars is_space ws2 = true /\
    w = name ++ ws1 ++ "||" ++ ws2 ++ "0" /\ c' = [(1, name)] /\
    is_word_at rest = false.
Proof.
  intros M. apply or_prefix_inv in M.
  destruct M as (name & ws1 & ws2 & w' & prev' & H1 & H2 & H3 & H4 & -> & M).
  cbn [sequence] in M.
  apply matches_cat_inv in M. destruct M as (w1 & w2 & c1 & -> & M1 & M).
  apply matches_lit_inv in M1. destruct M1 as [-> ->].
  apply matches_wordb_inv in M. destruct M as (-> & -> & Hb).
  exists name, ws1, ws2. repeat (split; [assumption|]).
  split; [reflexivity|]. split; [reflexivity|].
  destruct prev'; simpl in Hb; destruct (is_word_at rest);
    (reflexivity || discriminate).
Qed.

Lemma or_quotes_inv (quotes : string) prev w rest c' :
  matches (sequence (FixLintErrors.or_prefix ++ [lit quotes])) prev w rest
    [] c' ->
  exists name ws1 ws2,
    name <> EmptyString /\ all_chars is_word name = true /\
    all_chars is_space ws1 = true /\ all_chars is_space ws2 = true /\
    w = name ++ ws1 ++ "||" ++ ws2 ++ quotes /\ c' = [(1, name)].
Proof.
  intros M. apply or_prefix_inv in M.
  destruct M as (name & ws1 & ws2 & w' & prev' & H1 & H2 & H3 & H4 & -> & M).
  cbn [sequence] in M.
  apply matches_lit_inv in M. destruct M as [-> ->].
  exists name, ws1, ws2. repeat (split; [assumption|]).
  split; reflexivity.
Qed.

(** X8. [fix_nullish_coalescing] makes three turns over the text.  Each
    turn keeps the text outside its matches.  The first puts [name ?? 0]
    for a name, [||] and a [0] that no word character follows; the second
    puts two double quotes after [??] for two double quotes after [||];
    the third, for two single quotes, writes each of them behind a
    backslash, as its template spells them.  A turn does not look at what
    an earlier match left: in [a || 0 || 0] one run rewrites the first
    [||] and a second run the other. *)
Theorem nullish_coalescing_rewrites_defaults (content : string) :
  let first_turn := re_sub FixLintErrors.or_zero to_zero content in
  let second_turn := re_sub FixLintErrors.or_dquotes to_dquotes first_turn in
  let third_turn := re_sub FixLintErrors.or_squotes to_squotes second_turn in
  FixLintErrors.fix_nullish_coalescing content = third_turn /\
  (exists ps,
     source_of ps = content /\ output_of to_zero ps = first_turn /\
     hits_of 0 ps = finditer FixLintErrors.or_zero content /\
     Forall (nullish_rewritten "0" "0" to_zero) ps /\
     Forall (fun p => match p with
                      | Kept _ => True
                      | Hit m => is_word_at (m_rest m) = false
                      end) ps) /\
  (exists ps,
     source_of ps = first_turn /\ output_of to_dquotes ps = second_turn /\
     hits_of 0 ps = finditer FixLintErrors.or_dquotes first_turn /\
     Forall (nullish_rewritten (dq ++ dq) (dq ++ dq) to_dquotes) ps) /\
  (exists ps,
     source_of ps = second_turn /\ output_of to_squotes ps = third_turn /\
     hits_of 0 ps = finditer FixLintErrors.or_squotes second_turn /\
     Forall (nullish_rewritten "''" "\'\'" to_squotes) ps) /\
  FixLintErrors.fix_nullish_coalescing "a || 0 || 0" = "a ?? 0 || 0" /\
  FixLintErrors.fix_nullish_coalescing "a ?? 0 || 0" = "a ?? 0 ?? 0".
Proof.
  intros first_turn second_turn third_turn.
  split; [reflexivity|]. split; [|split; [|split; [|split]]].
  - destruct (re_sub_pieces FixLintErrors.or_zero to_zero content)
      as (ps & Hsrc & Hout & Hhits & Hall).
    exists ps. repeat (split; [assumption|]). split.
    + eapply Forall_impl; [|exact Hall].
      intros [u|m]; simpl; [trivial|]. intros [prev M].
      destruct (or_zero_inv _ _ _ _ M)
        as (name & ws1 & ws2 & H1 & H2 & H3 & H4 & Ht & Hc & _).
      exists name, ws1, ws2. repeat (split; [assumption|]).
      unfold to_zero, grp. rewrite Hc. reflexivity.
    + eapply Forall_impl; [|exact Hall].
      intros [u|m]; simpl; [trivial|]. intros [prev M].
      destruct (or_zero_inv _ _ _ _ M)
        as (name & ws1 & ws2 & _ & _ & _ & _ & _ & _ & Hb).
      exact Hb.
  - destruct (re_sub_pieces FixLintErrors.or_dquotes to_dquotes first_turn)
      as (ps & Hsrc & Hout & Hhits & Hall).
    exists ps. repeat (split; [assumption|]).
    eapply Forall_impl; [|exact Hall].
    intros [u|m]; simpl; [trivial|]. intros [prev M].
    destruct (or_quotes_inv _ _ _ _ _ M)
      as (name & ws1 & ws2 & H1 & H2 & H3 & H4 & Ht & Hc).
    exists name, ws1, ws2. repeat (split; [assumption|]).
    unfold to_dquotes, grp. rewrite Hc. reflexivity.
  - destruct (re_sub_pieces FixLintErrors.or_squotes to_squotes second_turn)
      as (ps & Hsrc & Hout & Hhits & Hall).
    exists ps. repeat (split; [assumption|]).
    eapply Forall_impl; [|exact Hall].
    intros [u|m]; simpl; [trivial|]. intros [prev M].
    destruct (or_quotes_inv _ _ _ _ _ M)
      as (name & ws1 & ws2 & H1 & H2 & H3 & H4 & Ht & Hc).
    exists name, ws1, ws2. repeat (split; [assumption|]).
    unfold to_squotes, grp. rewrite Hc. reflexivity.
  - vm_compute. reflexivity.
  - vm_compute. reflexivity.
Qed.
